(** * Flexisip: push-notification service, conference address generator,
      authentication event log

    A shallow embedding of
    - [src/pushnotification/service.cc]   (module [Push]),
    - [src/conference/conference-address-generator.cc] (module [Conference]),
    - the event-log writer's [AuthLog::setOrigin] (module [EventLog]),
    together with the properties the specification states about them.

    Conventions.
    - A [std::shared_ptr<T>] that may be null is an [option T]; [None] is
      [nullptr].
    - [std::map<std::string, V>] is [StdMap.t V]: an association list kept in
      the key order the C++ container iterates in.
    - A C++ member function that mutates [*this] and may throw is a function
      [Service -> Service * (exception + A)]: the mutations made before a
      [throw] stay in the returned state.
    - Undefined behaviour (dereferencing a null pointer, reading a C string
      that has no terminator) is the result [None] of an [option]. *)

From Stdlib Require Import String Ascii List Bool Arith ZArith Lia.
From Stdlib Require Import DecimalString.
From Stdlib Require Import OrderedTypeEx.
From Stdlib Require HexadecimalString.
Import ListNotations.
Local Open Scope list_scope.
Local Open Scope string_scope.

(** ** std::string *)

Module Str.

(** [s.substr(pos, count)] for [pos <= s.size()]. *)
Definition substr (pos count : nat) (s : string) : string :=
string_of_list_ascii (firstn count (skipn pos (list_ascii_of_string s))).

(** [s.substr(pos)]. *)
Definition substr_from (pos : nat) (s : string) : string :=
string_of_list_ascii (skipn pos (list_ascii_of_string s)).

(** Position of the first occurrence of a character in a list of characters. *)
Fixpoint find_in (c : ascii) (l : list ascii) : option nat :=
match l with
| [] => None
| x :: l' => if Ascii.eqb x c then Some 0 else option_map S (find_in c l')
end.

(** [s.find(c)] for a one-character needle; [None] is [std::string::npos]. *)
Definition find (c : ascii) (s : string) : option nat :=
find_in c (list_ascii_of_string s).

(** [s.compare(pos, len, t) == 0]. *)
Definition compare_at_eq (pos len : nat) (t s : string) : bool :=
String.eqb (substr pos len s) t.

End Str.

(** ** std::map<std::string, V> *)

Module StdMap.

Section Map.

Context {V : Type}.

Definition t : Type := list (string * V).

Definition empty : t := [].

(** [m.find(k)]: [None] is [m.end()], [Some v] an iterator whose [second]
    is [v]. *)
Fixpoint find (k : string) (m : t) : option V :=
match m with
| [] => None
| (k', v) :: m' => if String.eqb k k' then Some v else find k m'
end.

(** [m[k] = v]: the entry of [k] is replaced, or a new one is inserted at the
    place [std::less<std::string>] gives it. *)
Fixpoint assign (k : string) (v : V) (m : t) : t :=
match m with
| [] => [(k, v)]
| (k', v') :: m' =>
    match String.compare k k' with
    | Lt => (k, v) :: (k', v') :: m'
    | Eq => (k, v) :: m'
    | Gt => (k', v') :: assign k v m'
    end
end.

Definition contains (k : string) (m : t) : bool :=
match find k m with Some _ => true | None => false end.

Definition keys (m : t) : list string := map fst m.

(** Keys strictly increasing: the order of iteration of the container. *)
Fixpoint sorted (m : t) : Prop :=
match m with
| [] => True
| (k, _) :: m' =>
    match m' with
    | [] => True
    | (k', _) :: _ => String.compare k k' = Lt
    end /\ sorted m'
end.

End Map.

Arguments t V : clear implicits.

End StdMap.

(** ** Exceptions and the state-and-exception monad *)

Inductive exception : Type :=
| runtime_error (what : string)
| invalid_argument (what : string).

Definition what (e : exception) : string :=
match e with
| runtime_error w => w
| invalid_argument w => w
end.

Module StateExc.

Section Monad.

Context {S : Type}.

(** A computation over a state [S]: the final state is returned also when the
    computation throws. *)
Definition M (A : Type) : Type := S -> S * (exception + A).

Definition ret {A} (a : A) : M A := fun s => (s, inr a).

Definition throw {A} (e : exception) : M A := fun s => (s, inl e).

Definition bind {A B} (c : M A) (k : A -> M B) : M B :=
fun s =>
  match c s with
  | (s', inl e) => (s', inl e)
  | (s', inr a) => k a s'
  end.

Definition get : M S := fun s => (s, inr s).

Definition modify (f : S -> S) : M unit := fun s => (f s, inr tt).

(** [for (const auto& x : l) body(x);] *)
Fixpoint for_each {A} (l : list A) (body : A -> M unit) : M unit :=
match l with
| [] => ret tt
| x :: l' => bind (body x) (fun _ => for_each l' body)
end.

End Monad.

Arguments M S A : clear implicits.

End StateExc.

Declare Scope stexc_scope.
Delimit Scope stexc_scope with stexc.
Notation "x <- c ;; k" := (StateExc.bind c (fun x => k))
  (at level 61, c at next level, right associativity) : stexc_scope.
Notation "c ;; k" := (StateExc.bind c (fun _ => k))
  (at level 61, right associativity) : stexc_scope.

(** ** The push-notification service ([pushnotification/service.cc]) *)

Module Push.

Import StateExc.
Local Open Scope stexc_scope.

(** *** The collaborators of the service *)

(** Modelled from the spec: the enumeration [PushType], whose header is not
    among the files verified here ("tag identifying the class of the
    notification: Message, Call, Background"). *)
Inductive PushType : Type := Message | Call | Background.

(** The push parameters of one destination; the service reads [getParam]. *)
Record RFC8599PushParams : Type := mkPushParams {
  getProvider : string;
  getParam : string;
  getPrid : string
}.

(** A [PushInfo] object, seen through the two accessors the service calls. *)
Record PushInfo : Type := mkPushInfo {
  getDestination : PushType -> RFC8599PushParams;
  getPNProvider : string
}.

(** Modelled from the spec: the states of a [Request] ("Created, Queued,
    InProgress, then Successful or Failed"); the class is not among the files
    verified here. *)
Inductive RequestState : Type := Created | Queued | InProgress | Successful | Failed.

(** A [Request] object; the service reads [getAppIdentifier]. *)
Record Request : Type := mkRequest {
  getAppIdentifier : string;
  getPushType : PushType;
  getPInfo : PushInfo;
  getState : RequestState
}.

(** The enumeration [Method]; [OtherMethod] is any enumerator but the two
    named in [setupGenericClient], with its integer value. *)
Inductive Method : Type :=
| HttpGet
| HttpPost
| OtherMethod (value : Z).

Inductive Protocol : Type := Http | Http2.

(** The concrete client classes the service instantiates, each with the
    arguments its constructor receives (the event-loop root and the [this]
    back-pointer apart). [ForeignClient] is a client built by the caller and
    handed to [setFallbackClient]. *)
Inductive ClientImpl : Type :=
| AppleClient (cafile certpath certName : string)
| FirebaseClient (apiKey : string)
| FirebaseV1Client (scriptPath serviceAccountFilePath : string)
    (defaultRefreshInterval tokenExpirationAnticipationTime : Z)
| GenericHttpClient (url : string) (method : Method) (name : string) (maxQueueSize : nat)
| GenericHttp2Client (url : string) (method : Method)
| ForeignClient (tag : string).

(** Modelled from the spec: the state of a client object, whose classes are
    not among the files verified here ("queue of pending requests", "no
    request is InProgress"), next to what the service itself gives it: its
    class with the constructor arguments, and the [mService] back-pointer. *)
Record Client : Type := mkClient {
  impl : ClientImpl;
  mService : bool;
  queue : list Request;
  inProgress : list Request
}.

Definition newClient (i : ClientImpl) : Client :=
{| impl := i; mService := true; queue := []; inProgress := [] |}.

(** The registry [mClients]: the mapped pointer may be null. *)
Definition Registry : Type := StdMap.t (option Client).

(** The virtual member functions of [Client]. Their implementations belong to
    the client classes, which are not among the files verified here: the
    service is verified for any implementation. The [option Registry] is the
    third argument of [makeRequest], which the service passes for the generic
    client only. *)
Class ClientInterface : Type := {
  Client_makeRequest :
    Client -> PushType -> PushInfo -> option Registry -> exception + Request;
  Client_sendPush : Client -> Request -> Client * (exception + unit);
  Client_isIdle : Client -> bool
}.

(** *** The service *)

Record Service : Type := mkService {
  mClients : Registry;
  mMaxQueueSize : nat
}.

Definition set_mClients (f : Registry -> Registry) (s : Service) : Service :=
{| mClients := f (mClients s); mMaxQueueSize := mMaxQueueSize s |}.

Definition sGenericClientName : string := "generic".
Definition sFallbackClientKey : string := "fallback".

(** [it != mClients.cend() ? it->second.get() : nullptr] *)
Definition get_or_null (it : option (option Client)) : option Client :=
match it with
| Some p => p
| None => None
end.

(** [std::all_of] over a range whose predicate may hit undefined behaviour:
    the elements are visited in order and the first [false] ends the visit. *)
Fixpoint all_of {A} (p : A -> option bool) (l : list A) : option bool :=
match l with
| [] => Some true
| x :: l' =>
    match p x with
    | None => None
    | Some false => Some false
    | Some true => all_of p l'
    end
end.

Inductive LogLine : Type :=
| LOGE (msg : string)
| SLOGE (msg : string)
| SLOGW (msg : string)
| SLOGD (msg : string).

(** What [opendir] and the successive [readdir] calls give for a directory:
    the names of the entries read, and the [errno] text when the last
    [readdir] failed rather than reached the end. *)
Record DirStream : Type := mkDirStream {
  entries : list string;
  read_error : option string
}.

(** The configuration structure [pushConfig], by the four keys read. *)
Record GenericStruct : Type := mkConfig {
  firebase_projects_api_keys : list string;
  firebase_service_accounts : list string;
  firebase_default_refresh_interval : Z;
  firebase_token_expiration_anticipation_time : Z
}.

Definition string_of_Z (n : Z) : string := NilZero.string_of_int (Z.to_int n).

(** [keyval.substr(0, sep)] and [keyval.substr(sep + 1)] for
    [sep = keyval.find(":")]. When there is no colon [sep] is [npos]: the first
    is the whole string, and [npos + 1] wraps to [0], so is the second. *)
Definition split_keyval (keyval : string) : string * string :=
match Str.find ":"%char keyval with
| Some sep => (Str.substr 0 sep keyval, Str.substr_from (sep + 1) keyval)
| None => (keyval, keyval)
end.

Definition suffix : string := ".pem".

(** The test of [setupiOSClient] that makes the loop [continue]. *)
Definition skipped (cert : string) : bool :=
String.eqb cert "." || String.eqb cert ".."
|| Nat.leb (String.length cert) (String.length suffix)
|| negb (Str.compare_at_eq (String.length cert - String.length suffix)
           (String.length suffix) suffix cert).

(** The one-character string made of a double quote. *)
Definition dquote : string := String (ascii_of_nat 34) EmptyString.

Definition duplicate_message (appId : string) : string :=
"unable to add firebase v1 client, firebase application with id " ++ dquote ++ appId ++
dquote ++ " already exists. Only use firebase-projects-api-keys OR firebase-service-accounts " ++
"for the same appId.".

Section ServiceOperations.

Context {CI : ClientInterface}.

(** Text that [os << pn] writes for a request pointer. *)
Variable print_Request : Request -> string.

(** The macro [FIREBASE_GET_ACCESS_TOKEN_SCRIPT_PATH], set by the build. *)
Variable FIREBASE_GET_ACCESS_TOKEN_SCRIPT_PATH : string.

(** The file system seen by [setupiOSClient]: [opendir] fails ([None], with
    the [errno] text lost) or opens a stream. *)
Variable opendir : string -> option DirStream.
Variable strerror_errno : string.

(** [TlsConnection::CreationError] thrown by the constructor of [AppleClient]
    for a CA file and a certificate path: [Some what] when it is thrown. *)
Variable tlsCreationError : string -> string -> option string.

(** [Service::makeRequest] *)
Definition makeRequest (s : Service) (pType : PushType) (pInfo : PushInfo)
  : exception + Request :=
match get_or_null (StdMap.find sGenericClientName (mClients s)) with
| Some genericClient => Client_makeRequest genericClient pType pInfo (Some (mClients s))
| None =>
    match get_or_null (StdMap.find (getParam (getDestination pInfo pType)) (mClients s)) with
    | Some client => Client_makeRequest client pType pInfo None
    | None =>
        match get_or_null (StdMap.find sFallbackClientKey (mClients s)) with
        | Some client => Client_makeRequest client pType pInfo None
        | None => inl (runtime_error ("unsupported PN provider [" ++ getPNProvider pInfo ++ "]"))
        end
    end
end.

(** [client->sendPush(pn)] on the client object that the registry holds under
    [key]. *)
Definition call_sendPush (key : string) (client : Client) (pn : Request) : M Service unit :=
fun s =>
  let (client', r) := Client_sendPush client pn in
  (set_mClients (StdMap.assign key (Some client')) s, r).

(** [Service::sendPush] *)
Definition sendPush (pn : Request) : M Service unit :=
fun s =>
  match get_or_null (StdMap.find (getAppIdentifier pn) (mClients s)) with
  | Some client => call_sendPush (getAppIdentifier pn) client pn s
  | None =>
      match get_or_null (StdMap.find sFallbackClientKey (mClients s)) with
      | Some client => call_sendPush sFallbackClientKey client pn s
      | None =>
          throw (runtime_error
                   ("No push notification client available for push notification request : "
                    ++ print_Request pn)) s
      end
  end.

(** [Service::isIdle]: [kv.second->isIdle()] dereferences the mapped pointer. *)
Definition isIdle (s : Service) : option bool :=
all_of (fun kv : string * option Client =>
          match snd kv with
          | Some client => Some (Client_isIdle client)
          | None => None
          end)
       (mClients s).

(** [Service::setupGenericClient] *)
Definition setupGenericClient (url : string) (method : Method) (protocol : Protocol)
  : M Service unit :=
match method with
| OtherMethod value =>
    throw (invalid_argument
             ("invalid method value [" ++ string_of_Z value
              ++ "]. Only HttpGet and HttpPost are authorized"))
| _ =>
    fun s =>
      match protocol with
      | Http =>
          modify (set_mClients (StdMap.assign sGenericClientName
            (Some (newClient (GenericHttpClient url method sGenericClientName (mMaxQueueSize s)))))) s
      | Http2 =>
          modify (set_mClients (StdMap.assign sGenericClientName
            (Some (newClient (GenericHttp2Client url method))))) s
      end
end.

(** The [while (true)] loop of [setupiOSClient] over the entries that
    [readdir] returns. The right-hand side of [mClients[certName] = ...] is
    evaluated first (C++17): when the constructor throws, no entry is made. *)
Fixpoint scan_certificates (certdir cafile : string) (ents : list string) (s : Service)
  : Service * list LogLine :=
match ents with
| [] => (s, [])
| cert :: rest =>
    if skipped cert then scan_certificates certdir cafile rest s
    else
      let certpath := certdir ++ "/" ++ cert in
      let certName := Str.substr 0 (String.length cert - 4) cert in
      match tlsCreationError cafile certpath with
      | None =>
          let (s', log) :=
            scan_certificates certdir cafile rest
              (set_mClients
                 (StdMap.assign certName (Some (newClient (AppleClient cafile certpath certName)))) s) in
          (s', SLOGD ("Adding ios push notification client [" ++ certName ++ "]") :: log)
      | Some err =>
          let (s', log) := scan_certificates certdir cafile rest s in
          (s', SLOGW ("Couldn't make iOS PN client from [" ++ certName ++ "]: " ++ err) :: log)
      end
end.

(** [Service::setupiOSClient] *)
Definition setupiOSClient (certdir cafile : string) (s : Service) : Service * list LogLine :=
match opendir certdir with
| None =>
    (s, [LOGE ("Could not open push notification certificates directory (" ++ certdir
               ++ "): " ++ strerror_errno)])
| Some dirp =>
    let (s', log) := scan_certificates certdir cafile (entries dirp) s in
    (s', SLOGD ("Searching push notification client on dir [" ++ certdir ++ "]")
         :: (log ++ match read_error dirp with
                    | Some e => [SLOGE ("Cannot read dir [" ++ certdir ++ "] because [" ++ e ++ "]")]
                    | None => []
                    end)%list)
end.

(** [Service::addFirebaseClient] *)
Definition addFirebaseClient (appId apiKey : string) : M Service unit :=
modify (set_mClients (StdMap.assign appId (Some (newClient (FirebaseClient apiKey))))).

(** [Service::addFirebaseV1Client] *)
Definition addFirebaseV1Client (appId serviceAccountFilePath : string)
  (defaultRefreshInterval tokenExpirationAnticipationTime : Z) : M Service unit :=
modify (set_mClients (StdMap.assign appId
  (Some (newClient (FirebaseV1Client FIREBASE_GET_ACCESS_TOKEN_SCRIPT_PATH
                      serviceAccountFilePath defaultRefreshInterval
                      tokenExpirationAnticipationTime))))).

(** The body of the first loop of [setupFirebaseClients]. *)
Definition addApiKey (keyval : string) : M Service unit :=
addFirebaseClient (fst (split_keyval keyval)) (snd (split_keyval keyval)).

(** The body of the second loop of [setupFirebaseClients]. *)
Definition addServiceAccount (defaultRefreshInterval tokenExpirationAnticipationTime : Z)
  (keyval : string) : M Service unit :=
let appId := fst (split_keyval keyval) in
let filePath := snd (split_keyval keyval) in
s <- get ;;
if StdMap.contains appId (mClients s)
then throw (runtime_error (duplicate_message appId))
else addFirebaseV1Client appId filePath defaultRefreshInterval tokenExpirationAnticipationTime.

(** [Service::setupFirebaseClients] *)
Definition setupFirebaseClients (pushConfig : GenericStruct) : M Service unit :=
let firebaseKeys := firebase_projects_api_keys pushConfig in
let firebaseServiceAccounts := firebase_service_accounts pushConfig in
for_each firebaseKeys addApiKey ;;
let defaultRefreshInterval := (firebase_default_refresh_interval pushConfig * 1000)%Z in
let tokenExpirationAnticipationTime :=
  (firebase_token_expiration_anticipation_time pushConfig * 1000)%Z in
for_each firebaseServiceAccounts
  (addServiceAccount defaultRefreshInterval tokenExpirationAnticipationTime).

(** [Service::setFallbackClient] *)
Definition setFallbackClient (fallbackClient : option Client) : M Service unit :=
let linked :=
  match fallbackClient with
  | Some c => Some {| impl := impl c; mService := true; queue := queue c;
                      inProgress := inProgress c |}
  | None => None
  end in
modify (set_mClients (StdMap.assign sFallbackClientKey linked)).

End ServiceOperations.

(** *** The claims of the specification, in the vocabulary of the service *)

(** A non-null client is registered under [name]. *)
Definition registered (m : Registry) (name : string) (c : Client) : Prop :=
StdMap.find name m = Some (Some c).

(** No client can be taken under [name]: no entry, or a null pointer. *)
Definition unregistered (m : Registry) (name : string) : Prop :=
get_or_null (StdMap.find name m) = None.

(** No entry of the registry holds a null pointer. *)
Definition null_free (m : Registry) : Prop :=
Forall (fun kv : string * option Client => snd kv <> None) m.

(** The entries hold [name ++ ".pem"] for a [name] that is not empty. *)
Definition has_certificate (ents : list string) (name : string) : bool :=
negb (String.eqb name "") && existsb (String.eqb (name ++ ".pem")) ents.

(** The service before any setup. *)
Definition newService (maxQueueSize : nat) : Service :=
{| mClients := StdMap.empty; mMaxQueueSize := maxQueueSize |}.

(** The application identifiers of a list of [appId:value] pairs. *)
Definition appIds (keyvals : list string) : list string :=
map (fun keyval => fst (split_keyval keyval)) keyvals.

(** C2 as the specification states it: with an application identifier in both
    lists the call throws and leaves the registry empty. *)
Definition duplicate_leaves_registry_empty (scriptPath : string) (pushConfig : GenericStruct)
  (s : Service) : Prop :=
(exists appId, In appId (appIds (firebase_projects_api_keys pushConfig))
               /\ In appId (appIds (firebase_service_accounts pushConfig))) ->
(exists e, snd (setupFirebaseClients scriptPath pushConfig s) = inl e)
/\ forall name, StdMap.find name (mClients (fst (setupFirebaseClients scriptPath pushConfig s))) = None.

(** C7 as the specification states it: every entry whose name ends in ".pem"
    and whose TLS connection can be made gets an [AppleClient] under its name
    without the suffix. *)
Definition every_pem_entry_registered (opendir : string -> option DirStream)
  (strerror_errno : string) (tlsCreationError : string -> string -> option string)
  (certdir cafile : string) (s : Service) : Prop :=
forall dirp cert name,
  opendir certdir = Some dirp -> In cert (entries dirp) -> cert = name ++ ".pem" ->
  tlsCreationError cafile (certdir ++ "/" ++ cert) = None ->
  registered
    (mClients (fst (setupiOSClient opendir strerror_errno tlsCreationError certdir cafile s)))
    name (newClient (AppleClient cafile (certdir ++ "/" ++ cert) name)).

(** *** A client implementation to run the service on *)

Definition enqueue (pn : Request) (c : Client) : Client :=
{| impl := impl c; mService := mService c;
   queue := (queue c ++ [ {| getAppIdentifier := getAppIdentifier pn;
                             getPushType := getPushType pn;
                             getPInfo := getPInfo pn;
                             getState := Queued |} ])%list;
   inProgress := inProgress c |}.

(** Modelled from the spec: the contract of the client classes, which are not
    among the files verified here. "A bounded FIFO queue. Enqueue while full
    fails with QueueFull"; "sendPush returns promptly"; "a client is idle iff
    its queue is empty and no request is InProgress". A request is made in the
    state Created for the destination of the given type. *)
Definition SpecClient (maxQueueSize : nat) : ClientInterface :=
{| Client_makeRequest := fun _ pType pInfo _ =>
     inr {| getAppIdentifier := getParam (getDestination pInfo pType);
            getPushType := pType; getPInfo := pInfo; getState := Created |};
   Client_sendPush := fun c pn =>
     if Nat.ltb (List.length (queue c)) maxQueueSize
     then (enqueue pn c, inr tt)
     else (c, inl (runtime_error "QueueFull"));
   Client_isIdle := fun c =>
     match queue c, inProgress c with
     | [], [] => true
     | _, _ => false
     end |}.

End Push.

(** ** The conference address generator
       ([conference/conference-address-generator.cc]) *)

Module Conference.

Inductive State : Type := Fetching | Binding.

(** A [linphone::Address], by the user part that [setUsername] writes and the
    rest of the URI. *)
Record Address : Type := mkAddress {
  getUsername : string;
  getDomain : string
}.

Definition setUsername (u : string) (a : Address) : Address :=
{| getUsername := u; getDomain := getDomain a |}.

(** An [ExtendedContact] of a registrar record. *)
Record ExtendedContact : Type := mkContact {
  contactId : string
}.

(** A registrar [Record], seen through the member functions the generator
    calls; [getPubGruu] gives the text of the URL, [None] for a null
    [url_t*]. *)
Record Record_ : Type := mkRecord {
  isEmpty : bool;
  getExtendedContacts : list ExtendedContact;
  getPubGruu : ExtendedContact -> option string
}.

Record ConferenceAddressGenerator : Type := mkGenerator {
  mConferenceAddr : Address;
  mUuid : string;
  mPath : string;
  mState : State
}.

(** What the generator does to its collaborators. *)
Inductive Action : Type :=
| RegistrarDb_fetch (url : string)
| bindChatRoom (uri transport uuid : string)
| setConferenceAddress (addr : option Address)
| LOGW (msg : string)
| LOGF (msg : string).

(** The callbacks of the registrar listener. [token] is the content of the
    array [char token[17]] as [belle_sip_random_token] leaves it, should the
    callback call [changeAddress]. *)
Inductive Callback : Type :=
| onRecordFound (r : option Record_) (token : list ascii)
| onError.

(** [sizeof(token)] *)
Definition sizeof_token : nat := 17.

(** The C string that [os << token] reads from an array: the characters before
    the first NUL; reading on past the array is undefined. *)
Fixpoint c_str (buf : list ascii) : option string :=
match buf with
| [] => None
| c :: buf' =>
    if Ascii.eqb c zero then Some EmptyString
    else option_map (String c) (c_str buf')
end.

Definition set_mConferenceAddr (a : Address) (g : ConferenceAddressGenerator)
  : ConferenceAddressGenerator :=
{| mConferenceAddr := a; mUuid := mUuid g; mPath := mPath g; mState := mState g |}.

Definition set_mState (st : State) (g : ConferenceAddressGenerator)
  : ConferenceAddressGenerator :=
{| mConferenceAddr := mConferenceAddr g; mUuid := mUuid g; mPath := mPath g; mState := st |}.

Section Generator.

(** [conference::CHATROOM_PREFIX], from [conference/chatroom-prefix.hh]. *)
Variable CHATROOM_PREFIX : string.

(** [linphone::Address::asStringUriOnly] *)
Variable asStringUriOnly : Address -> string.

(** The [transport] key of the [conference-server] configuration. *)
Variable transport : string.

(** [ExtendedContacts::latest], dereferenced: [None] is the end iterator. *)
Variable latest : list ExtendedContact -> option ExtendedContact.

(** [linphone::Factory::createAddress]: the pointer may be null. *)
Variable createAddress : string -> option Address.

(** [ConferenceAddressGenerator::run] *)
Definition run (g : ConferenceAddressGenerator) : list Action :=
[RegistrarDb_fetch (asStringUriOnly (mConferenceAddr g))].

(** [ConferenceAddressGenerator::changeAddress] *)
Definition changeAddress (token : list ascii) (g : ConferenceAddressGenerator)
  : option ConferenceAddressGenerator :=
match c_str token with
| None => None
| Some tok => Some (set_mConferenceAddr (setUsername (CHATROOM_PREFIX ++ tok) (mConferenceAddr g)) g)
end.

(** [ConferenceAddressGenerator::onRecordFound] *)
Definition handle_onRecordFound (r : option Record_) (token : list ascii)
  (g : ConferenceAddressGenerator) : option (ConferenceAddressGenerator * list Action) :=
match mState g with
| Fetching =>
    if match r with Some rec => negb (isEmpty rec) | None => false end
    then
      match changeAddress token g with
      | None => None
      | Some g' =>
          Some (g', LOGW "Conference address conflict detected, trying another random name."
                    :: run g')
      end
    else
      Some (set_mState Binding g,
            [bindChatRoom (asStringUriOnly (mConferenceAddr g)) transport (mUuid g)])
| Binding =>
    match r with
    | None => None
    | Some rec =>
        match getExtendedContacts rec with
        | [] => Some (g, [LOGF "Conference address bind failed."])
        | _ :: _ =>
            match latest (getExtendedContacts rec) with
            | None => None
            | Some ec =>
                match getPubGruu rec ec with
                | None => Some (g, [LOGF "Conference does not have gruu address."])
                | Some pub_gruu => Some (g, [setConferenceAddress (createAddress pub_gruu)])
                end
            end
        end
    end
end.

(** [ConferenceAddressGenerator::onError] *)
Definition handle_onError (g : ConferenceAddressGenerator)
  : option (ConferenceAddressGenerator * list Action) :=
Some (g, [setConferenceAddress None]).

Definition handle (cb : Callback) (g : ConferenceAddressGenerator)
  : option (ConferenceAddressGenerator * list Action) :=
match cb with
| onRecordFound r token => handle_onRecordFound r token g
| onError => handle_onError g
end.

(** One callback delivered: the generator before it, and what it did. *)
Record Step : Type := mkStep {
  before : ConferenceAddressGenerator;
  callback : Callback;
  actions : list Action;
  after : ConferenceAddressGenerator
}.

(** The callbacks delivered one after the other, up to the end of the list or
    to the first undefined behaviour. *)
Fixpoint deliver (cbs : list Callback) (g : ConferenceAddressGenerator) : list Step :=
match cbs with
| [] => []
| cb :: rest =>
    match handle cb g with
    | None => []
    | Some (g', acts) =>
        {| before := g; callback := cb; actions := acts; after := g' |} :: deliver rest g'
    end
end.

(** The number of registrar requests (fetch or bind) among some actions; each
    is answered by one callback. *)
Fixpoint requests (acts : list Action) : nat :=
match acts with
| [] => 0
| RegistrarDb_fetch _ :: acts' => S (requests acts')
| bindChatRoom _ _ _ :: acts' => S (requests acts')
| _ :: acts' => requests acts'
end.

(** The callbacks answer requests: one is delivered only while a request of
    the generator is outstanding. *)
Fixpoint answers (outstanding : nat) (cbs : list Callback) (g : ConferenceAddressGenerator)
  : bool :=
match cbs with
| [] => true
| cb :: rest =>
    match outstanding with
    | 0 => false
    | S n =>
        match handle cb g with
        | None => true
        | Some (g', acts) => answers (n + requests acts) rest g'
        end
    end
end.

End Generator.

(** The step publishes a GRUU: it sets the conference address of the chat
    room to a non-null address. *)
Definition publishes_gruu (st : Step) : Prop :=
exists a, In (setConferenceAddress (Some a)) (actions st).

(** The callback brings a record that is neither null nor empty. *)
Definition found_nonempty (cb : Callback) : bool :=
match cb with
| onRecordFound (Some rec) _ => negb (isEmpty rec)
| _ => false
end.

Definition is_onRecordFound (cb : Callback) : bool :=
match cb with
| onRecordFound _ _ => true
| onError => false
end.

(** Before the step, the last callback handled in the state Fetching was
    [onRecordFound] with a null or an empty record, and every callback since
    was handled in the state Binding. *)
Definition last_fetch_found_nothing (pre : list Step) : Prop :=
exists pre1 f pre2,
  pre = (pre1 ++ f :: pre2)%list
  /\ mState (before f) = Fetching
  /\ is_onRecordFound (callback f) = true
  /\ found_nonempty (callback f) = false
  /\ Forall (fun x => mState (before x) = Binding) pre2.

(** C5 as the specification states it: in a run of callbacks, a step that
    handles [onError] sets the conference address to null, and no step after
    it publishes a GRUU. *)
Definition nothing_published_after_error (CHATROOM_PREFIX : string)
  (asStringUriOnly : Address -> string) (transport : string)
  (latest : list ExtendedContact -> option ExtendedContact)
  (createAddress : string -> option Address)
  (cbs : list Callback) (g : ConferenceAddressGenerator) : Prop :=
forall pre st post,
  deliver CHATROOM_PREFIX asStringUriOnly transport latest createAddress cbs g
  = (pre ++ st :: post)%list ->
  callback st = onError ->
  actions st = [setConferenceAddress None] /\ Forall (fun x => ~ publishes_gruu x) post.

(** The hexadecimal digit of a value below sixteen. *)
Definition hex_digit (n : N) : ascii :=
if N.ltb n 10 then ascii_of_N (48 + n) else ascii_of_N (87 + n).

(** A number written with a given count of hexadecimal digits. *)
Fixpoint hex_of (digits : nat) (x : N) : string :=
match digits with
| 0 => EmptyString
| S d => hex_of d (N.div x 16) ++ String (hex_digit (N.modulo x 16)) EmptyString
end.

(** A token of 128 bits rendered as hexadecimal: 32 digits. *)
Definition hex128 (x : N) : string := hex_of 32 x.

(** C3 as the specification states it: the user parts that [changeAddress]
    can set are the prefix followed by the 128-bit values in hexadecimal. *)
Definition token_is_128_bit_hex (CHATROOM_PREFIX : string) (g : ConferenceAddressGenerator)
  : Prop :=
(forall token g', List.length token = sizeof_token ->
   changeAddress CHATROOM_PREFIX token g = Some g' ->
   exists x, (x < 2 ^ 128)%N
             /\ getUsername (mConferenceAddr g') = CHATROOM_PREFIX ++ hex128 x)
/\ (forall x, (x < 2 ^ 128)%N ->
      exists token g', List.length token = sizeof_token
        /\ changeAddress CHATROOM_PREFIX token g = Some g'
        /\ getUsername (mConferenceAddr g') = CHATROOM_PREFIX ++ hex128 x).

End Conference.

(** ** The origin of an authentication log ([AuthLog::setOrigin]) *)

Module EventLog.

(** The fields of a [sip_via_t] that [setOrigin] reads; an [option] is a
    pointer that may be null. *)
Record sip_via_t : Type := mkVia {
  v_protocol : string;
  v_host : string;
  v_port : option string;
  v_rport : option string;
  v_received : option string
}.

(** The [url_t] that [url_format] builds from the formatted text, and its
    [url_params] member. *)
Record url_t : Type := mkUrl {
  url_text : string;
  url_params : option string
}.

(** [strchr(s, c) + 1]: the text after the first [c]. When [c] does not occur
    [strchr] is null and the pointer computed is undefined. *)
Fixpoint after_char (c : ascii) (s : string) : option string :=
match s with
| EmptyString => None
| String x s' => if Ascii.eqb x c then Some s' else after_char c s'
end.

Definition tolower (c : ascii) : ascii :=
let n := nat_of_ascii c in
if Nat.leb 65 n && Nat.leb n 90 then ascii_of_nat (n + 32) else c.

(** [strcasecmp]: the difference of the first two characters that differ once
    lowered, [0] when there is none. *)
Fixpoint strcasecmp (a b : string) : Z :=
match a, b with
| EmptyString, EmptyString => 0
| EmptyString, String y _ => (0 - Z.of_nat (nat_of_ascii (tolower y)))%Z
| String x _, EmptyString => Z.of_nat (nat_of_ascii (tolower x))
| String x a', String y b' =>
    if Ascii.eqb (tolower x) (tolower y) then strcasecmp a' b'
    else (Z.of_nat (nat_of_ascii (tolower x)) - Z.of_nat (nat_of_ascii (tolower y)))%Z
end.

(** The scheme of a URL text: what stands before its first colon. *)
Fixpoint url_scheme_of (s : string) : string :=
match s with
| EmptyString => EmptyString
| String x s' => if Ascii.eqb x ":"%char then EmptyString else String x (url_scheme_of s')
end.

Definition url_scheme (u : url_t) : string := url_scheme_of (url_text u).

(** [AuthLog::setOrigin]: the value left in [mOrigin]. *)
Definition setOrigin (via : sip_via_t) : option url_t :=
match after_char "/"%char (v_protocol via) with
| None => None
| Some protocol0 =>
    let scheme0 := "sip" in
    let port := match v_rport via with Some p => Some p | None => v_port via end in
    let ip := match v_received via with Some r => r | None => v_host via end in
    match after_char "/"%char protocol0 with
    | None => None
    | Some protocol1 =>
        let '(protocol, scheme) :=
          if Z.eqb (strcasecmp protocol1 "UDP") 0 then (None, scheme0)
          else if Z.eqb (strcasecmp protocol1 "UDP") 0 then (None, "sips")
          else (Some protocol1, scheme0) in
        let text :=
          match port with
          | Some p => scheme ++ ":" ++ ip ++ ":" ++ p
          | None => scheme ++ ":" ++ ip
          end in
        Some {| url_text := text;
                url_params := match protocol with
                              | Some p => Some ("transport=" ++ p)
                              | None => None
                              end |}
    end
end.

End EventLog.

(** ** Concrete scenarios *)

Module Scenarios.

Import Push.

Definition clients : ClientInterface := SpecClient 2.

Definition print_Request (pn : Request) : string := "0x55d0c0de".

Definition apns : RFC8599PushParams := mkPushParams "apns" "org.example.app" "abc".

Definition pInfo : PushInfo := mkPushInfo (fun _ => apns) "apns".

Definition pn : Request := mkRequest "org.example.app" Message pInfo Created.

Definition opendir (certdir : string) : option DirStream :=
if String.eqb certdir "certs"
then Some (mkDirStream ["."; ".."; "org.example.app.pem"; "broken.pem"; ".pem"; "README"] None)
else None.

Definition tlsCreationError (cafile certpath : string) : option string :=
if String.eqb certpath "certs/broken.pem" then Some "bad certificate" else None.

Definition fallbackClient : Client := newClient (ForeignClient "fallback").

Definition s_empty : Service := newService 2.

Definition s_generic : Service :=
fst (setupGenericClient "https://push.example.org" HttpPost Http s_empty).

Definition s_ios : Service :=
fst (setupiOSClient opendir "ENOENT" tlsCreationError "certs" "ca.pem" s_empty).

Definition s_fallback : Service := fst (setFallbackClient (Some fallbackClient) s_empty).

Definition s_ios_fallback : Service := fst (setFallbackClient (Some fallbackClient) s_ios).

(** Scenario 6 of the specification. *)
Definition duplicate_config : GenericStruct := mkConfig ["app1:k"] ["app1:/path"] 60 300.

Definition generic_account_config : GenericStruct := mkConfig [] ["generic:/sa.json"] 60 300.

(** A directory whose only entry is called ".pem". *)
Definition opendir_dot_pem (certdir : string) : option DirStream :=
Some (mkDirStream [".pem"] None).

Import Conference.

Definition CHATROOM_PREFIX : string := "chatroom-".

Definition asStringUriOnly (a : Address) : string :=
"sip:" ++ getUsername a ++ "@" ++ getDomain a.

Definition transport : string := "sip:127.0.0.1:6064;transport=tcp".

Definition latest (l : list ExtendedContact) : option ExtendedContact :=
List.last (List.map Some l) None.

Definition createAddress (url : string) : option Address := Some (mkAddress "" url).

Definition g0 : ConferenceAddressGenerator :=
mkGenerator (mkAddress "chatroom-first" "conf.example.org") "uuid-1" "/var/conf" Fetching.

(** Sixteen characters and the terminating NUL. *)
Definition token_a : list ascii := (List.repeat "a"%char 16 ++ [zero])%list.

Definition token_z : list ascii := (List.repeat "z"%char 16 ++ [zero])%list.

Definition taken : Record_ := mkRecord false [mkContact "other"] (fun _ => None).

Definition bound : Record_ :=
mkRecord false [mkContact "focus"] (fun _ => Some "sip:conf@example.org;gr=abc").

(** Scenario 5 of the specification: a collision, a free address, the bind. *)
Definition collision_then_bind : list Callback :=
[onRecordFound (Some taken) token_a; onRecordFound None token_a;
 onRecordFound (Some bound) token_a].

Definition collision_then_error : list Callback :=
[onRecordFound (Some taken) token_a; onError].

(** An error, then two callbacks that answer no request of the generator. *)
Definition error_then_bind : list Callback :=
[onError; onRecordFound None token_a; onRecordFound (Some bound) token_a].

Definition steps (cbs : list Callback) : list Step :=
deliver CHATROOM_PREFIX asStringUriOnly transport latest createAddress cbs g0.

Definition step_at (n : nat) (cbs : list Callback) : Step :=
List.nth n (steps cbs) (mkStep g0 onError [] g0).

Import EventLog.

Definition via_udp : sip_via_t := mkVia "SIP/2.0/UDP" "192.0.2.1" (Some "5060") None None.

Definition via_tls : sip_via_t :=
mkVia "SIP/2.0/TLS" "192.0.2.1" (Some "5061") (Some "40000") (Some "198.51.100.7").

End Scenarios.

(** ** The event-log writer ([FilesystemEventLogWriter]) *)

Module EventLogWriter.

Import EventLog.

(** *** The logs *)

(** A [sip_from_t] or [sip_to_t] header. *)
Record sip_addr_t : Type := mkAddr {
  a_display : option string;
  a_url : url_t
}.

Record sip_user_agent_t : Type := mkUserAgent {
  g_string : string
}.

Record sip_contact_t : Type := mkSipContact {
  m_url : url_t
}.

(** The fields of a [struct tm] that [openPath] reads. *)
Record tm : Type := mkTm {
  tm_year : Z;
  tm_mon : Z;
  tm_mday : Z
}.

(** The members of [EventLog]; a header that was never set, or that
    [sip_from_dup] could not copy, is null. *)
Record EventLogData : Type := mkEventLog {
  mFrom : option sip_addr_t;
  mTo : option sip_addr_t;
  mDate : Z;
  mUA : option sip_user_agent_t;
  mCompleted : bool;
  mStatusCode : Z;
  mReason : string
}.

Inductive RegistrationLog_Type : Type := Register | Unregister | Expired.

Inductive ReportType : Type := Reception | Delivery.

Record RegistrationLog : Type := mkRegistrationLog {
  reg_log : EventLogData;
  mType : RegistrationLog_Type;
  mInstanceId : string;
  mContacts : option sip_contact_t
}.

Record CallLog : Type := mkCallLog {
  call_log : EventLogData;
  mCancelled : bool
}.

Record MessageLog : Type := mkMessageLog {
  msg_log : EventLogData;
  mReportType : ReportType;
  mId : N;
  mUri : option url_t
}.

Record AuthLog : Type := mkAuthLog {
  auth_log : EventLogData;
  mOrigin : option url_t;
  mUserExists : bool;
  mMethod : string
}.

(** An event log by its dynamic type, which [write] tests with [typeid];
    [OtherLog] is an object of any other class. *)
Inductive AnyEventLog : Type :=
| IsRegistrationLog (rlog : RegistrationLog)
| IsCallLog (clog : CallLog)
| IsMessageLog (mlog : MessageLog)
| IsAuthLog (alog : AuthLog)
| OtherLog (log : EventLogData).

(** *** The libraries and the system *)

(** What sofia-sip and the C library give: the user and host members of a
    parsed URL, the text that [url_e] and [sip_user_agent_e] write, the text
    of [ctime_r] and the broken-down time of [localtime_r]. *)
Class Externals : Type := {
  url_user : url_t -> option string;
  url_host : url_t -> option string;
  url_e : url_t -> string;
  sip_user_agent_e : sip_user_agent_t -> string;
  ctime_r : Z -> string;
  localtime_r : Z -> tm
}.

(** The file system, by the system calls of the writer. A call gives the new
    state and whether it succeeded; [fs_open] gives the descriptor, [None]
    for -1. *)
Class FileSystem : Type := {
  fs : Type;
  fs_access : string -> fs -> bool;
  fs_mkdir : string -> fs -> fs * bool;
  fs_open : string -> fs -> fs * option nat;
  fs_write : nat -> string -> fs -> fs * bool;
  fs_close : nat -> fs -> fs;
  fs_strerror : fs -> string
}.

(** What a function of the writer did, in order. *)
Inductive Event : Type :=
| sys_access (path : string) (ok : bool)
| sys_mkdir (path : string) (ok : bool)
| sys_open (path : string) (fd : option nat)
| sys_write (fd : nat) (data : string) (ok : bool)
| sys_close (fd : nat)
| LOGE (msg : string).

Section Writer.

Context {X : Externals} {FS : FileSystem}.

(** A computation on the file system: the new state, the events and the
    result, or [None] when the behaviour is undefined. *)
Definition IO (A : Type) : Type := fs -> option (fs * list Event * A).

Definition ret {A} (a : A) : IO A := fun w => Some (w, [], a).

Definition undefined {A} : IO A := fun _ => None.

Definition bind {A B} (c : IO A) (k : A -> IO B) : IO B :=
fun w =>
  match c w with
  | None => None
  | Some (w1, ev1, a) =>
      match k a w1 with
      | None => None
      | Some (w2, ev2, b) => Some (w2, (ev1 ++ ev2)%list, b)
      end
  end.

Definition access (path : string) : IO bool :=
fun w => Some (w, [sys_access path (fs_access path w)], fs_access path w).

Definition mkdir (path : string) : IO bool :=
fun w => let (w', ok) := fs_mkdir path w in Some (w', [sys_mkdir path ok], ok).

Definition open (path : string) : IO (option nat) :=
fun w => let (w', fd) := fs_open path w in Some (w', [sys_open path fd], fd).

Definition write_ (fd : nat) (data : string) : IO bool :=
fun w => let (w', ok) := fs_write fd data w in Some (w', [sys_write fd data ok], ok).

Definition close (fd : nat) : IO unit :=
fun w => Some (fs_close fd w, [sys_close fd], tt).

(** [LOGE(text ": %s", strerror(errno))] *)
Definition log_errno (text : string) : IO unit :=
fun w => Some (w, [LOGE (text ++ ": " ++ fs_strerror w)], tt).


Notation "x <- c ;; k" := (bind c (fun x => k))
  (at level 61, c at next level, right associativity).
Notation "c ;; k" := (bind c (fun _ => k))
  (at level 61, right associativity).

(** *** The texts *)

Definition endl : string := String (ascii_of_nat 10) EmptyString.

(** An [int] written with [setfill('0')] and [setw(2)]. *)
Definition pad2 (n : Z) : string :=
let digits := Push.string_of_Z n in
if Nat.ltb (String.length digits) 2 then "0" ++ digits else digits.

(** An [unsigned long] written after [std::hex]. *)
Definition hex (n : N) : string :=
HexadecimalString.NilZero.string_of_uint (N.to_hex_uint n).

(** The last character of a text, and the text without it. *)
Fixpoint chop (s : string) : option (string * ascii) :=
match s with
| EmptyString => None
| String c s' =>
    match chop s' with
    | None => Some (EmptyString, c)
    | Some (init, last) => Some (String c init, last)
    end
end.

(** [operator<<] for [PrettyTime]: the text of [ctime_r] without its final
    newline. On an empty text [tmp[len-1]] is read before the array. *)
Definition PrettyTime (t : Z) : option string :=
match chop (ctime_r t) with
| None => None
| Some (init, last) =>
    if Ascii.eqb last (ascii_of_nat 10) then Some init else Some (ctime_r t)
end.

(** [operator<<] for a header: the display name when there is one and it is
    not empty, then the URL between angle brackets. *)
Definition print_addr (from : sip_addr_t) : string :=
match a_display from with
| Some display => if String.eqb display "" then "" else display
| None => ""
end ++ " <" ++ url_e (a_url from) ++ ">".

Definition print_Type (type : RegistrationLog_Type) : string :=
match type with
| Register => "Registered"
| Unregister => "Unregistered"
| Expired => "Registration expired"
end.

Definition print_ReportType (type : ReportType) : string :=
match type with
| Reception => "Reception"
| Delivery => "Delivery"
end.

(** The name that [openPath] gives to the file of a day, after the
    directory. *)
Definition day_file (t : tm) : string :=
"/" ++ Push.string_of_Z (1900 + tm_year t) ++ "-" ++ pad2 (tm_mon t + 1) ++ "-"
++ pad2 (tm_mday t) ++ ".log".

(** *** The writer *)

(** [createDirectoryIfNotExist] *)
Definition createDirectoryIfNotExist (path : string) : IO bool :=
accessible <- access path ;;
if accessible then ret true
else
  created <- mkdir path ;;
  if created then ret true
  else log_errno ("Cannot create directory " ++ path) ;; ret false.

Record FilesystemEventLogWriter : Type := mkWriter {
  mRootPath : string;
  mIsReady : bool
}.



(** The end of [openPath]: the file of the day is opened in the directory. *)
Definition open_day_file (path : string) (curtime : Z) : IO (option nat) :=
let file := path ++ day_file (localtime_r curtime) in
fd <- open file ;;
match fd with
| None => log_errno ("Cannot open " ++ file) ;; ret None
| Some fd => ret (Some fd)
end.

(** [FilesystemEventLogWriter::openPath]; [None] is the descriptor -1. *)
Definition openPath (w : FilesystemEventLogWriter) (uri : option url_t) (kind : string)
  (curtime : Z) (errorcode : Z) : IO (option nat) :=
if Z.eqb errorcode 0 then
  match uri with
  | None => undefined
  | Some uri =>
      let username := url_user uri in
      let domain := url_host uri in
      let path := mRootPath w ++ "/users" in
      ok <- createDirectoryIfNotExist path ;;
      if negb ok then ret None else
      match domain with
      | None => undefined
      | Some domain =>
          let path := path ++ "/" ++ domain in
          ok <- createDirectoryIfNotExist path ;;
          if negb ok then ret None else
          let username := match username with Some u => u | None => "anonymous" end in
          let path := path ++ "/" ++ username in
          ok <- createDirectoryIfNotExist path ;;
          if negb ok then ret None else
          let path := path ++ "/" ++ kind in
          ok <- createDirectoryIfNotExist path ;;
          if negb ok then ret None else
          open_day_file path curtime
      end
  end
else
  let path := mRootPath w ++ "/" ++ "errors/" in
  ok <- createDirectoryIfNotExist path ;;
  if negb ok then ret None else
  let path := path ++ kind in
  ok <- createDirectoryIfNotExist path ;;
  if negb ok then ret None else
  let path := path ++ "/" ++ Push.string_of_Z errorcode in
  ok <- createDirectoryIfNotExist path ;;
  if negb ok then ret None else
  open_day_file path curtime.

(** The value of the default argument of [openPath], which its declaration
    gives. *)
Variable openPath_default_errorcode : Z.

(** [::write(fd, ...)], with the error logged when it fails. *)
Definition write_or_log (fd : nat) (data : string) (failure : string) : IO unit :=
ok <- write_ fd data ;;
if ok then ret tt else log_errno failure.

(** [FilesystemEventLogWriter::writeErrorLog] *)
Definition writeErrorLog (w : FilesystemEventLogWriter) (log : EventLogData) (kind : string)
  (logstr : string) : IO unit :=
fd <- openPath w None kind (mDate log) (mStatusCode log) ;;
match fd with
| None => ret tt
| Some fd =>
    write_or_log fd logstr "Fail to write error log" ;;
    close fd
end.

(** The line of a registration log. *)
Definition registration_line (rlog : RegistrationLog) : option string :=
match PrettyTime (mDate (reg_log rlog)), mFrom (reg_log rlog) with
| Some time, Some from =>
    Some (time ++ ": " ++ print_Type (mType rlog) ++ " " ++ print_addr from
          ++ match mContacts rlog with
             | Some contacts => " (" ++ url_e (m_url contacts) ++ ") "
             | None => ""
             end
          ++ match mUA (reg_log rlog) with
             | Some ua => sip_user_agent_e ua ++ endl
             | None => ""
             end)
| _, _ => None
end.

(** [FilesystemEventLogWriter::writeRegistrationLog] *)
Definition writeRegistrationLog (w : FilesystemEventLogWriter) (rlog : RegistrationLog)
  : IO unit :=
let label := "registers" in
match mFrom (reg_log rlog) with
| None => undefined
| Some from =>
    fd <- openPath w (Some (a_url from)) label (mDate (reg_log rlog))
            openPath_default_errorcode ;;
    match fd with
    | None => ret tt
    | Some fd =>
        match registration_line rlog with
        | None => undefined
        | Some msg =>
            write_or_log fd msg "Fail to write registration log" ;;
            close fd ;;
            if Z.geb (mStatusCode (reg_log rlog)) 300
            then writeErrorLog w (reg_log rlog) label msg
            else ret tt
        end
    end
end.

(** The line of a call log. *)
Definition call_line (clog : CallLog) : option string :=
match PrettyTime (mDate (call_log clog)), mFrom (call_log clog), mTo (call_log clog) with
| Some time, Some from, Some to =>
    Some (time ++ ": " ++ print_addr from ++ " --> " ++ print_addr to ++ " "
          ++ (if mCancelled clog then "Cancelled"
              else Push.string_of_Z (mStatusCode (call_log clog)) ++ " "
                   ++ mReason (call_log clog))
          ++ endl)
| _, _, _ => None
end.

(** [if (fd == -1 || ::write(fd, ...) == -1) LOGE(...)] *)
Definition write_if_open (fd : option nat) (data : string) (failure : string) : IO unit :=
match fd with
| None => log_errno failure
| Some fd => write_or_log fd data failure
end.

Definition close_if_open (fd : option nat) : IO unit :=
match fd with
| None => ret tt
| Some fd => close fd
end.

(** [FilesystemEventLogWriter::writeCallLog] *)
Definition writeCallLog (w : FilesystemEventLogWriter) (clog : CallLog) : IO unit :=
let label := "calls" in
match mFrom (call_log clog), mTo (call_log clog) with
| Some from, Some to =>
    fd1 <- openPath w (Some (a_url from)) label (mDate (call_log clog))
             openPath_default_errorcode ;;
    fd2 <- openPath w (Some (a_url to)) label (mDate (call_log clog))
             openPath_default_errorcode ;;
    match call_line clog with
    | None => undefined
    | Some msg =>
        write_if_open fd1 msg "Fail to write registration log" ;;
        (if negb (Z.eqb (mStatusCode (call_log clog)) 404)
         then write_if_open fd2 msg "Fail to write registration log"
         else ret tt) ;;
        close_if_open fd1 ;;
        close_if_open fd2 ;;
        if Z.geb (mStatusCode (call_log clog)) 300
        then writeErrorLog w (call_log clog) label msg
        else ret tt
    end
| _, _ => undefined
end.

(** The line of a message log. *)
Definition message_line (mlog : MessageLog) : option string :=
match PrettyTime (mDate (msg_log mlog)), mFrom (msg_log mlog), mTo (msg_log mlog) with
| Some time, Some from, Some to =>
    Some (time ++ ": " ++ print_ReportType (mReportType mlog) ++ " id:" ++ hex (mId mlog)
          ++ " " ++ print_addr from ++ " --> " ++ print_addr to
          ++ match mUri mlog with
             | Some uri => " (" ++ url_e uri ++ ") "
             | None => ""
             end
          ++ Push.string_of_Z (mStatusCode (msg_log mlog)) ++ " " ++ mReason (msg_log mlog)
          ++ endl)
| _, _, _ => None
end.

(** [FilesystemEventLogWriter::writeMessageLog] *)
Definition writeMessageLog (w : FilesystemEventLogWriter) (mlog : MessageLog) : IO unit :=
let label := "messages" in
match match mReportType mlog with
      | Reception => mFrom (msg_log mlog)
      | Delivery => mTo (msg_log mlog)
      end with
| None => undefined
| Some addr =>
    fd <- openPath w (Some (a_url addr)) label (mDate (msg_log mlog))
            openPath_default_errorcode ;;
    match fd with
    | None => ret tt
    | Some fd =>
        match message_line mlog with
        | None => undefined
        | Some msg =>
            (if negb (match mReportType mlog with Delivery => true | Reception => false end
                      && Z.eqb (mStatusCode (msg_log mlog)) 404)
             then write_or_log fd msg "Fail to write message log"
             else ret tt) ;;
            close fd ;;
            if Z.geb (mStatusCode (msg_log mlog)) 300
            then writeErrorLog w (msg_log mlog) label msg
            else ret tt
        end
    end
end.

(** The line of an authentication log. *)
Definition auth_line (alog : AuthLog) : option string :=
match PrettyTime (mDate (auth_log alog)), mFrom (auth_log alog), mTo (auth_log alog) with
| Some time, Some from, Some to =>
    Some (time ++ " " ++ mMethod alog ++ " " ++ print_addr from
          ++ match mOrigin alog with
             | Some origin => " (" ++ url_e origin ++ ") "
             | None => ""
             end
          ++ match mUA (auth_log alog) with
             | Some ua => " (" ++ sip_user_agent_e ua ++ ") "
             | None => ""
             end
          ++ " --> " ++ print_addr to ++ " "
          ++ Push.string_of_Z (mStatusCode (auth_log alog)) ++ " " ++ mReason (auth_log alog)
          ++ endl)
| _, _, _ => None
end.

(** [FilesystemEventLogWriter::writeAuthLog] *)
Definition writeAuthLog (w : FilesystemEventLogWriter) (alog : AuthLog) : IO unit :=
let label := "auth" in
match auth_line alog, mFrom (auth_log alog) with
| Some msg, Some from =>
    (if mUserExists alog
     then
       fd <- openPath w (Some (a_url from)) label (mDate (auth_log alog))
               openPath_default_errorcode ;;
       match fd with
       | None => ret tt
       | Some fd => write_or_log fd msg "Fail to write auth log" ;; close fd
       end
     else ret tt) ;;
    writeErrorLog w (auth_log alog) "auth" msg
| _, _ => undefined
end.

(** [FilesystemEventLogWriter::write] *)
Definition write (w : FilesystemEventLogWriter) (evlog : AnyEventLog) : IO unit :=
match evlog with
| IsRegistrationLog rlog => writeRegistrationLog w rlog
| IsCallLog clog => writeCallLog w clog
| IsMessageLog mlog => writeMessageLog w mlog
| IsAuthLog alog => writeAuthLog w alog
| OtherLog _ => ret tt
end.

(** Directories made one after the other, as [openPath] makes them, then
    the file of the day opened in the last one. *)
Fixpoint make_then_open (dirs : list string) (last : string) (curtime : Z)
  : IO (option nat) :=
match dirs with
| [] => open_day_file last curtime
| dir :: dirs' =>
    ok <- createDirectoryIfNotExist dir ;;
    if negb ok then ret None else make_then_open dirs' last curtime
end.

End Writer.

(** *** Words for what the writer did *)

(** The descriptors left open by some events, from those open before. *)
Fixpoint remove_one (fd : nat) (l : list nat) : list nat :=
match l with
| [] => []
| x :: l' => if Nat.eqb x fd then l' else x :: remove_one fd l'
end.

Fixpoint open_after (opened : list nat) (events : list Event) : list nat :=
match events with
| [] => opened
| sys_open _ (Some fd) :: events' => open_after (fd :: opened) events'
| sys_close fd :: events' => open_after (remove_one fd opened) events'
| _ :: events' => open_after opened events'
end.

(** The paths that the events tested with [access], in order. *)
Fixpoint accessed (events : list Event) : list string :=
match events with
| [] => []
| sys_access path _ :: events' => path :: accessed events'
| _ :: events' => accessed events'
end.

(** The paths of the files that the events opened or tried to open. *)
Fixpoint opened_paths (events : list Event) : list string :=
match events with
| [] => []
| sys_open path _ :: events' => path :: opened_paths events'
| _ :: events' => opened_paths events'
end.

(** What the events wrote to a descriptor. *)
Fixpoint written_to (fd : nat) (events : list Event) : list string :=
match events with
| [] => []
| sys_write fd' data _ :: events' =>
    if Nat.eqb fd' fd then data :: written_to fd events' else written_to fd events'
| _ :: events' => written_to fd events'
end.

(** The directory of the logs of one kind of a user, and the directory of
    the errors of one kind and one status code. *)
Definition user_directory (root domain username kind : string) : string :=
root ++ "/users/" ++ domain ++ "/" ++ username ++ "/" ++ kind.

Definition error_directory (root kind : string) (errorcode : Z) : string :=
root ++ "/errors/" ++ kind ++ "/" ++ Push.string_of_Z errorcode.

(** *** Words for what the file system answers *)

Section Answers.

Context {FS : FileSystem}.

(** Asking for a directory: [access] is called; [mkdir] is called when, and
    only when, [access] fails; a failure of [mkdir] is logged. The result is
    the file system after the calls, the events, and whether the directory
    can be used. *)
Definition ask (path : string) (w : fs) : fs * list Event * bool :=
if fs_access path w then (w, [sys_access path true], true)
else
  let (w', made) := fs_mkdir path w in
  (w',
   sys_access path false :: sys_mkdir path made
   :: (if made then []
       else [LOGE (("Cannot create directory " ++ path) ++ ": " ++ fs_strerror w')]),
   made).

(** Asking for directories one after the other: the first that cannot be
    used is the last one asked for. *)
Fixpoint ask_all (dirs : list string) (w : fs) : fs * list Event * bool :=
match dirs with
| [] => (w, [], true)
| dir :: rest =>
    let '(w1, ev1, ok) := ask dir w in
    if ok
    then let '(w2, ev2, all) := ask_all rest w1 in (w2, (ev1 ++ ev2)%list, all)
    else (w1, ev1, false)
end.

(** Opening a file in directories: the directories are asked for, and [open]
    is called when, and only when, all of them can be used; a failure of
    [open] is logged. *)
Definition open_in (dirs : list string) (file : string) (w : fs)
  : fs * list Event * option nat :=
let '(w1, ev1, all) := ask_all dirs w in
if all then
  let (w2, fd) := fs_open file w1 in
  (w2,
   (ev1 ++ sys_open file fd
           :: match fd with
              | Some _ => []
              | None => [LOGE (("Cannot open " ++ file) ++ ": " ++ fs_strerror w2)]
              end)%list,
   fd)
else (w1, ev1, None).

(** Writing a line to a descriptor: [write] is called once, and a failure is
    logged. *)
Definition writing (fd : nat) (line failure : string) (w : fs) : fs * list Event :=
let (w', ok) := fs_write fd line w in
(w', sys_write fd line ok :: (if ok then [] else [LOGE (failure ++ ": " ++ fs_strerror w')])).

(** Writing a line to a descriptor, then closing it; nothing for the
    descriptor -1. *)
Definition writing_and_closing (fd : option nat) (line failure : string) (w : fs)
  : fs * list Event :=
match fd with
| None => (w, [])
| Some n =>
    let (w1, ev1) := writing n line failure w in (fs_close n w1, (ev1 ++ [sys_close n])%list)
end.

(** The three directories of the errors of a kind and a code, and the file of
    a day in the last one. *)
Definition error_directories (root kind : string) (code : Z) : list string :=
[root ++ "/errors/"; root ++ "/errors/" ++ kind; error_directory root kind code].

Definition error_file (root kind : string) (code : Z) (day : tm) : string :=
error_directory root kind code ++ day_file day.

(** Writing a line to the log of the errors of a kind and a code: the file of
    the day is opened in its directories; when it is, the line is written to
    it and it is closed. *)
Definition logging_error (root kind : string) (code : Z) (day : tm) (line : string)
  (w : fs) : fs * list Event :=
let '(w1, ev1, fd) :=
  open_in (error_directories root kind code) (error_file root kind code day) w in
let (w2, ev2) := writing_and_closing fd line "Fail to write error log" w1 in
(w2, (ev1 ++ ev2)%list).

End Answers.

(** A text ends with another. *)
Definition ends_with (suffix text : string) : Prop :=
exists body, text = body ++ suffix.

(** The month and the day of a broken-down time are those of a calendar. *)
Definition calendar_day (t : tm) : Prop :=
(0 <= tm_mon t <= 11)%Z /\ (1 <= tm_mday t <= 31)%Z.

(** Two days of the same year, the first before the second. *)
Definition earlier_in_year (t1 t2 : tm) : Prop :=
tm_year t1 = tm_year t2
/\ (tm_mon t1 < tm_mon t2 \/ tm_mon t1 = tm_mon t2 /\ tm_mday t1 < tm_mday t2)%Z.

(** The end of the name of the file of a day, after the year. *)
Definition month_day_log (mon mday : Z) : string :=
pad2 (mon + 1) ++ "-" ++ pad2 mday ++ ".log".

(** The months and the days of a calendar, as [struct tm] numbers them. *)
Definition months : list Z := map Z.of_nat (seq 0 12).

Definition days : list Z := map Z.of_nat (seq 1 31).

(** When the first day is before the second, so is the name of its file. *)
Definition ordered_pair (m1 d1 m2 d2 : Z) : bool :=
if (Z.ltb m1 m2 || (Z.eqb m1 m2 && Z.ltb d1 d2))%bool
then match String.compare (month_day_log m1 d1) (month_day_log m2 d2) with
     | Lt => true
     | _ => false
     end
else true.

End EventLogWriter.

(** ** Sequences of calls on the service *)

Module ServiceCalls.

Import Push.

(** The value that the last pair of a list of [appId:value] pairs gives to an
    application identifier. *)
Fixpoint last_value (appId : string) (keyvals : list string) : option string :=
match keyvals with
| [] => None
| keyval :: rest =>
    match last_value appId rest with
    | Some v => Some v
    | None =>
        if String.eqb appId (fst (split_keyval keyval)) then Some (snd (split_keyval keyval))
        else None
    end
end.

(** A call of a public member function that changes the service. *)
Inductive Call : Type :=
| invoke_setupGenericClient (url : string) (method : Method) (protocol : Protocol)
| invoke_setupiOSClient (certdir cafile : string)
| invoke_setupFirebaseClients (pushConfig : GenericStruct)
| invoke_setFallbackClient (fallbackClient : option Client)
| invoke_sendPush (pn : Request).

(** The call does not hand a null pointer to [setFallbackClient]. *)
Definition passes_no_null (c : Call) : Prop :=
match c with
| invoke_setFallbackClient None => False
| _ => True
end.

(** The two facts that every state of the service verifies when no null
    pointer was handed to [setFallbackClient]. *)
Definition well_formed (s : Service) : Prop :=
StdMap.sorted (mClients s) /\ null_free (mClients s).

Section Perform.

Context {CI : ClientInterface}.
Variable print_Request : Request -> string.
Variable FIREBASE_GET_ACCESS_TOKEN_SCRIPT_PATH : string.
Variable opendir : string -> option DirStream.
Variable strerror_errno : string.
Variable tlsCreationError : string -> string -> option string.

(** The service after a call, whether the call returned or threw. *)
Definition perform (s : Service) (c : Call) : Service :=
match c with
| invoke_setupGenericClient url method protocol => fst (setupGenericClient url method protocol s)
| invoke_setupiOSClient certdir cafile =>
    fst (setupiOSClient opendir strerror_errno tlsCreationError certdir cafile s)
| invoke_setupFirebaseClients pushConfig =>
    fst (setupFirebaseClients FIREBASE_GET_ACCESS_TOKEN_SCRIPT_PATH pushConfig s)
| invoke_setFallbackClient fallbackClient => fst (setFallbackClient fallbackClient s)
| invoke_sendPush pn => fst (sendPush print_Request pn s)
end.

(** The service after a sequence of calls. *)
Definition perform_all (calls : list Call) (s : Service) : Service :=
fold_left perform calls s.

End Perform.

End ServiceCalls.

(** ** Words for the runs of the generator and for C strings *)

Module ConferenceWords.

Import Conference.

(** The array of the token that the callback carries holds a NUL. *)
Definition token_terminated (cb : Callback) : Prop :=
match cb with
| onRecordFound _ token => In zero token
| onError => True
end.

(** The step calls [bindChatRoom]. *)
Definition binds (st : Step) : Prop :=
exists uri transport uuid, In (bindChatRoom uri transport uuid) (actions st).

(** The step touches the conference address of the chat room. *)
Definition sets_address (st : Step) : Prop :=
exists a, In (setConferenceAddress a) (actions st).

End ConferenceWords.

Module CStrings.

(** A string in lower case, as [tolower] makes it character by character. *)
Fixpoint lower (s : string) : string :=
match s with
| EmptyString => EmptyString
| String c s' => String (EventLog.tolower c) (lower s')
end.

(** The string holds no NUL, as every C string. *)
Definition no_nul (s : string) : Prop := ~ In zero (list_ascii_of_string s).

End CStrings.

(** ** The client of the tester *)

Module Tester.

(** The configuration of a core, by the accessor that the client calls:
    [getString(section, key, default_string)]. *)
Record Config : Type := mkLinphoneConfig {
  getString : string -> string -> string -> string
}.

(** A [CoreClient], by the members that its inline functions read. *)
Record CoreClient : Type := mkCoreClient {
  getConfig : Config;
  mCallInviteReceivedDelay : Z
}.

(** [CoreClient::getUuid] *)
Definition getUuid (c : CoreClient) : string :=
getString (getConfig c) "misc" "uuid" "UNSET!".

(** [CoreClient::getGruu] *)
Definition getGruu (c : CoreClient) : string :=
Push.dquote ++ "<urn:uuid:" ++ getUuid c ++ ">" ++ Push.dquote.

(** [CoreClient::setCallInviteReceivedDelay] *)
Definition setCallInviteReceivedDelay (aDelay : Z) (c : CoreClient) : CoreClient :=
{| getConfig := getConfig c; mCallInviteReceivedDelay := aDelay |}.

(** A configuration for the examples: the entries by section and key. *)
Definition config_of (entries : list (string * string * string)) : Config :=
mkLinphoneConfig (fun section key default_string =>
  match List.find (fun e => String.eqb (fst (fst e)) section && String.eqb (snd (fst e)) key)
          entries with
  | Some e => snd e
  | None => default_string
  end).

Definition marie : CoreClient :=
mkCoreClient (config_of [("misc", "uuid", "6e87dc8a-2c6f-0041-8f5b-8a0b2c1d3e4f")]) 5.

(** Two clients whose configuration has no uuid. *)
Definition pauline : CoreClient := mkCoreClient (config_of []) 5.

Definition laure : CoreClient := mkCoreClient (config_of [("sip", "contact", "laure")]) 5.

End Tester.

(** ** Further scenarios *)

Module MoreScenarios.

Import Push ServiceCalls Scenarios.

(** Two legacy keys for "app1", one for "app2", and two service accounts, the
    path of the second holding a colon. *)
Definition firebase_config : GenericStruct :=
mkConfig ["app1:k1"; "app2:k2"; "app1:k3"] ["app3:/sa3.json"; "app4:/etc/sa:4.json"] 60 300.

(** A start of the proxy in which two of the calls throw. *)
Definition startup : list Call :=
[invoke_setupGenericClient "https://push.example.org" (OtherMethod 7) Http;
 invoke_setupiOSClient "certs" "ca.pem";
 invoke_setupFirebaseClients firebase_config;
 invoke_setupFirebaseClients duplicate_config;
 invoke_setFallbackClient (Some fallbackClient);
 invoke_sendPush pn].

(** A legacy key whose application identifier is the name of the generic
    client, and calls that store its client under that key. *)
Definition generic_key_config : GenericStruct := mkConfig ["generic:k"] [] 60 300.

Definition later_calls : list Call :=
[invoke_setupFirebaseClients generic_key_config; invoke_sendPush pn].

(** A destination and a request that no client of [s_ios] serves. *)
Definition fcm : RFC8599PushParams := mkPushParams "fcm" "com.example.other" "def".

Definition pInfo_other : PushInfo := mkPushInfo (fun _ => fcm) "fcm".

Definition pn_other : Request := mkRequest "com.example.other" Message pInfo_other Created.

Import Conference.

Definition g_binding : ConferenceAddressGenerator :=
mkGenerator (mkAddress "chatroom-first" "conf.example.org") "uuid-1" "/var/conf" Binding.

(** A record without contact, and a record whose contact has no GRUU. *)
Definition unbound : Record_ := mkRecord true [] (fun _ => None).

Definition no_gruu : Record_ := mkRecord false [mkContact "focus"] (fun _ => None).

Definition three_collisions : list Callback :=
[onRecordFound (Some taken) token_a; onRecordFound (Some taken) token_z;
 onRecordFound (Some taken) token_a].

Import EventLog EventLogWriter.

(** The text before the first [c], the whole text when [c] does not occur. *)
Fixpoint before_char (c : ascii) (s : string) : string :=
match s with
| EmptyString => EmptyString
| String x s' => if Ascii.eqb x c then EmptyString else String x (before_char c s')
end.

(** The part of a URL after its scheme. *)
Definition hostport (u : url_t) : string :=
match after_char ":" (url_text u) with
| Some rest => rest
| None => url_text u
end.

(** sofia-sip and the C library for the examples: URLs of the form
    scheme:user@host or scheme:host, and a clock stopped on 5 March 2024. *)
Definition sofia : Externals := {|
  url_user u :=
    match after_char "@" (hostport u) with
    | Some _ => Some (before_char "@" (hostport u))
    | None => None
    end;
  url_host u :=
    match after_char "@" (hostport u) with
    | Some host => Some host
    | None => Some (hostport u)
    end;
  url_e u :=
    url_text u ++ match url_params u with Some params => ";" ++ params | None => "" end;
  sip_user_agent_e ua := g_string ua;
  ctime_r t := "Tue Mar  5 10:00:00 2024" ++ endl;
  localtime_r t := mkTm 124 2 5
|}.

(** A file system for the examples: the directories that exist, the paths that
    [mkdir] and [open] refuse, and the next descriptor. *)
Record Disk : Type := mkDisk {
  directories : list string;
  refused : list string;
  next_descriptor : nat
}.

Definition holds (path : string) (paths : list string) : bool :=
existsb (String.eqb path) paths.

Definition disk : FileSystem := {|
  fs := Disk;
  fs_access path d := holds path (directories d);
  fs_mkdir path d :=
    if holds path (refused d) then (d, false)
    else (mkDisk (path :: directories d) (refused d) (next_descriptor d), true);
  fs_open path d :=
    if holds path (refused d) then (d, None)
    else (mkDisk (directories d) (refused d) (S (next_descriptor d)),
          Some (next_descriptor d));
  fs_write fd data d := (d, true);
  fs_close fd d := d;
  fs_strerror d := "Permission denied"
|}.

Definition disk0 : @fs disk := mkDisk ["/var/log/flexisip"] [] 3.

(** The directory of the users cannot be made. *)
Definition disk_no_users : @fs disk :=
mkDisk ["/var/log/flexisip"] ["/var/log/flexisip/users"] 3.

Definition wr : FilesystemEventLogWriter := mkWriter "/var/log/flexisip" true.

Definition alice : sip_addr_t := mkAddr (Some "Alice") (mkUrl "sip:alice@example.org" None).

Definition bob : sip_addr_t := mkAddr None (mkUrl "sip:bob@example.net" None).

Definition call_404 : CallLog :=
mkCallLog (mkEventLog (Some alice) (Some bob) 1709632800 None true 404 "Not Found") false.

(** What [write] does of the call log on the disk that holds only the root:
    the disk after it and the events. *)
Definition call_404_disk : @fs disk :=
Eval vm_compute in
  match write (X := sofia) (FS := disk) 0 wr (IsCallLog call_404) disk0 with
  | Some (w', _, _) => w'
  | None => disk0
  end.

Definition call_404_events : list Event :=
Eval vm_compute in
  match write (X := sofia) (FS := disk) 0 wr (IsCallLog call_404) disk0 with
  | Some (_, ev, _) => ev
  | None => []
  end.

Definition register_500 : RegistrationLog :=
mkRegistrationLog
  (mkEventLog (Some alice) (Some alice) 1709632800 None true 500 "Internal Server Error")
  Register "" None.

Definition register_200 : RegistrationLog :=
mkRegistrationLog
  (mkEventLog (Some alice) (Some alice) 1709632800 (Some (mkUserAgent "Linphone/5.2")) true
     200 "Ok")
  Register "" (Some (mkSipContact (mkUrl "sip:alice@192.0.2.7" (Some "transport=tls")))).

Definition message_503 : MessageLog :=
mkMessageLog (mkEventLog (Some alice) (Some bob) 1709632800 None true 503 "Unavailable")
  Delivery 255 None.

Definition auth_403 : AuthLog :=
mkAuthLog (mkEventLog (Some alice) (Some alice) 1709632800 None true 403 "Forbidden")
  (Some (mkUrl "sip:198.51.100.7:40000" (Some "transport=TLS"))) false "REGISTER".

(** An authentication that succeeded, of a user that exists. *)
Definition auth_200 : AuthLog :=
mkAuthLog (mkEventLog (Some alice) (Some alice) 1709632800 None true 200 "Ok")
  None true "REGISTER".

Definition auth_0 : AuthLog :=
mkAuthLog (mkEventLog (Some alice) (Some alice) 1709632800 None true 0 "")
  None true "REGISTER".

Definition march_5 : tm := mkTm 124 2 5.

Definition october_12 : tm := mkTm 124 9 12.

End MoreScenarios.

(** * Properties *)

(** ** Facts about strings and maps *)

Module StrFacts.

Lemma compare_refl (s : string) : String.compare s s = Eq.
Proof.
pose proof (String.compare_antisym s s) as H.
destruct (String.compare s s); simpl in H; congruence.
Qed.

Lemma list_ascii_app (a b : string) :
  list_ascii_of_string (a ++ b) = (list_ascii_of_string a ++ list_ascii_of_string b)%list.
Proof. induction a as [|c a IH]; simpl; [reflexivity | now rewrite IH]. Qed.

Lemma string_of_list_app (l1 l2 : list ascii) :
  string_of_list_ascii (l1 ++ l2)%list = string_of_list_ascii l1 ++ string_of_list_ascii l2.
Proof. induction l1 as [|c l1 IH]; simpl; [reflexivity | now rewrite IH]. Qed.

Lemma length_list_ascii (s : string) :
  List.length (list_ascii_of_string s) = String.length s.
Proof. induction s as [|c s IH]; simpl; [reflexivity | now rewrite IH]. Qed.

Lemma length_append (a b : string) :
  String.length (a ++ b) = String.length a + String.length b.
Proof. induction a as [|c a IH]; simpl; [reflexivity | now rewrite IH]. Qed.

Lemma list_ascii_inj (a b : string) :
  list_ascii_of_string a = list_ascii_of_string b -> a = b.
Proof.
intros H. rewrite <- (string_of_list_ascii_of_string a), <- (string_of_list_ascii_of_string b).
now rewrite H.
Qed.

Lemma append_inj_r (a b c : string) : a ++ c = b ++ c -> a = b.
Proof.
intros H. apply list_ascii_inj.
apply (f_equal list_ascii_of_string) in H. rewrite !list_ascii_app in H.
now apply app_inv_tail in H.
Qed.

Lemma append_inj_l (a b c : string) : a ++ b = a ++ c -> b = c.
Proof. induction a as [|x a IH]; simpl; intros H; [assumption | injection H; auto]. Qed.

(** Taking off the last [String.length c] characters of [a ++ c] gives [a],
    and these characters are [c]. *)
Lemma substr_prefix (a c : string) :
  Str.substr 0 (String.length (a ++ c) - String.length c) (a ++ c) = a.
Proof.
unfold Str.substr. rewrite length_append, Nat.add_sub. simpl skipn.
rewrite list_ascii_app, <- length_list_ascii.
rewrite firstn_app, Nat.sub_diag, firstn_all. simpl. rewrite app_nil_r.
apply string_of_list_ascii_of_string.
Qed.

Lemma substr_suffix (a c : string) :
  Str.substr (String.length (a ++ c) - String.length c) (String.length c) (a ++ c) = c.
Proof.
unfold Str.substr. rewrite length_append, Nat.add_sub.
rewrite list_ascii_app, <- (length_list_ascii a).
rewrite skipn_app, Nat.sub_diag, skipn_all. simpl.
rewrite <- length_list_ascii, firstn_all.
apply string_of_list_ascii_of_string.
Qed.

(** A string longer than [c] whose last characters are [c] is [a ++ c]. *)
Lemma suffix_split (s c : string) :
  String.length c <= String.length s ->
  Str.substr (String.length s - String.length c) (String.length c) s = c ->
  s = Str.substr 0 (String.length s - String.length c) s ++ c.
Proof.
intros Hlen H. unfold Str.substr in *. simpl skipn.
rewrite <- H at 2. rewrite <- string_of_list_app.
assert (Hall : firstn (String.length c)
                 (skipn (String.length s - String.length c) (list_ascii_of_string s))
               = skipn (String.length s - String.length c) (list_ascii_of_string s)).
{ apply firstn_all2. rewrite length_skipn, length_list_ascii. lia. }
rewrite Hall, firstn_skipn. symmetry. apply string_of_list_ascii_of_string.
Qed.

End StrFacts.

Module StdMapFacts.

Import StdMap.

Section Facts.

Context {V : Type}.

Implicit Types (m : StdMap.t V) (k : string) (v : V).

(** Reading the map after [m[k] = v]. *)
Lemma find_assign k k' v m :
  find k' (assign k v m) = if String.eqb k' k then Some v else find k' m.
Proof.
induction m as [|[k0 v0] m IH]; simpl; [reflexivity |].
destruct (String.compare k k0) eqn:E; simpl.
- apply String.compare_eq_iff in E. subst k0. now destruct (String.eqb k' k).
- reflexivity.
- rewrite IH.
  destruct (String.eqb_spec k' k0) as [-> | _]; [| reflexivity].
  destruct (String.eqb_spec k0 k) as [-> | _]; [| reflexivity].
  rewrite StrFacts.compare_refl in E. discriminate.
Qed.

Lemma find_assign_eq k v m : find k (assign k v m) = Some v.
Proof. now rewrite find_assign, String.eqb_refl. Qed.

Lemma find_assign_ne k k' v m : k' <> k -> find k' (assign k v m) = find k' m.
Proof. intros H. rewrite find_assign. now destruct (String.eqb_spec k' k). Qed.

Lemma contains_assign k k' v m :
  contains k' (assign k v m) = String.eqb k' k || contains k' m.
Proof. unfold contains. rewrite find_assign. now destruct (String.eqb k' k). Qed.

Lemma contains_find k m : contains k m = true <-> exists v, find k m = Some v.
Proof.
unfold contains. destruct (find k m) as [v|]; split; intros H; try discriminate; eauto.
now destruct H.
Qed.

(** [m[k] = v] keeps the keys in increasing order. *)
Lemma assign_sorted k v m : sorted m -> sorted (assign k v m).
Proof.
induction m as [|[k0 v0] m IH]; simpl; [auto |].
intros [Hhd Htl]. destruct (String.compare k k0) eqn:E; simpl.
- apply String.compare_eq_iff in E. subst k0. auto.
- auto.
- split; [| auto].
  assert (Hlt : String.compare k0 k = Lt)
    by (rewrite String.compare_antisym, E; reflexivity).
  destruct m as [|[k1 v1] m]; simpl; [assumption |].
  destruct (String.compare k k1); assumption.
Qed.

End Facts.

End StdMapFacts.

(** ** The push-notification service *)

Module PushFacts.

Import StateExc Push.

Section Routing.

Context {CI : ClientInterface}.

Variable print_Request : Request -> string.

Lemma registered_get_or_null (m : Registry) (name : string) (c : Client) :
  registered m name c -> get_or_null (StdMap.find name m) = Some c.
Proof. unfold registered. now intros ->. Qed.

Lemma unregistered_not_registered (m : Registry) (name : string) :
  unregistered m name <-> forall c, ~ registered m name c.
Proof.
unfold unregistered, registered. split.
- intros H c Hc. rewrite Hc in H. discriminate.
- intros H. destruct (StdMap.find name m) as [[c|]|]; simpl; try reflexivity.
  now destruct (H c).
Qed.

(** C1. [makeRequest] resolves the client in this order: the non-null client
    registered as "generic", which builds the request with the registry as
    third argument; else the non-null client registered under the provider tag
    of the destination of the push type; else the non-null client registered
    as "fallback"; else it throws the "unsupported PN provider" error. *)
Theorem makeRequest_resolution_order (s : Service) (pType : PushType) (pInfo : PushInfo) :
  let m := mClients s in
  let tag := getParam (getDestination pInfo pType) in
  (forall g, registered m "generic" g ->
     makeRequest s pType pInfo = Client_makeRequest g pType pInfo (Some m))
  /\ (unregistered m "generic" ->
      forall c, registered m tag c ->
        makeRequest s pType pInfo = Client_makeRequest c pType pInfo None)
  /\ (unregistered m "generic" -> unregistered m tag ->
      forall c, registered m "fallback" c ->
        makeRequest s pType pInfo = Client_makeRequest c pType pInfo None)
  /\ (unregistered m "generic" -> unregistered m tag -> unregistered m "fallback" ->
      makeRequest s pType pInfo
      = inl (runtime_error ("unsupported PN provider [" ++ getPNProvider pInfo ++ "]"))).
Proof.
intros m tag. subst m tag. unfold makeRequest, sGenericClientName, sFallbackClientKey.
repeat split.
- intros g Hg. now rewrite (registered_get_or_null _ _ _ Hg).
- intros Hgen c Hc. unfold unregistered in Hgen. rewrite Hgen.
  now rewrite (registered_get_or_null _ _ _ Hc).
- intros Hgen Htag c Hc. unfold unregistered in Hgen, Htag. rewrite Hgen, Htag.
  now rewrite (registered_get_or_null _ _ _ Hc).
- intros Hgen Htag Hfb. unfold unregistered in *. now rewrite Hgen, Htag, Hfb.
Qed.

(** The state and the result of [client->sendPush(pn)] for the client held
    under [key]: that entry alone changes. *)
Lemma call_sendPush_spec (key : string) (c : Client) (pn : Request) (s : Service) :
  let s' := fst (call_sendPush key c pn s) in
  snd (call_sendPush key c pn s) = snd (Client_sendPush c pn)
  /\ registered (mClients s') key (fst (Client_sendPush c pn))
  /\ (forall k, k <> key -> StdMap.find k (mClients s') = StdMap.find k (mClients s))
  /\ mMaxQueueSize s' = mMaxQueueSize s.
Proof.
unfold call_sendPush, registered. destruct (Client_sendPush c pn) as [c' r]. simpl.
repeat split.
- apply StdMapFacts.find_assign_eq.
- intros k Hk. now apply StdMapFacts.find_assign_ne.
Qed.

(** C6. [sendPush] hands the request to the non-null client registered under
    the application identifier of the request, else to the non-null client
    registered as "fallback"; with neither it throws the "no client available"
    error and the service is unchanged. With a client, all it does is the one
    call of the client's [sendPush], whose outcome it returns: that client's
    entry holds the client after the call and no other entry changes. *)
Theorem sendPush_routing (pn : Request) (s : Service) :
  let m := mClients s in
  let appId := getAppIdentifier pn in
  let delivered_to key c :=
    snd (sendPush print_Request pn s) = snd (Client_sendPush c pn)
    /\ registered (mClients (fst (sendPush print_Request pn s))) key (fst (Client_sendPush c pn))
    /\ (forall k, k <> key ->
          StdMap.find k (mClients (fst (sendPush print_Request pn s))) = StdMap.find k m) in
  (forall c, registered m appId c -> delivered_to appId c)
  /\ (unregistered m appId -> forall c, registered m "fallback" c -> delivered_to "fallback" c)
  /\ (unregistered m appId -> unregistered m "fallback" ->
      sendPush print_Request pn s
      = (s, inl (runtime_error
                   ("No push notification client available for push notification request : "
                    ++ print_Request pn)))).
Proof.
intros m appId delivered_to. subst m appId delivered_to.
unfold sendPush, sFallbackClientKey. split; [| split].
- intros c Hc. rewrite (registered_get_or_null _ _ _ Hc).
  pose proof (call_sendPush_spec (getAppIdentifier pn) c pn s) as (Hres & Hreg & Hframe & _).
  auto.
- intros Hnone c Hc. unfold unregistered in Hnone.
  rewrite Hnone, (registered_get_or_null _ _ _ Hc).
  pose proof (call_sendPush_spec "fallback" c pn s) as (Hres & Hreg & Hframe & _).
  auto.
- intros Hnone Hnofb. unfold unregistered in *. now rewrite Hnone, Hnofb.
Qed.

End Routing.

(** *** Idleness *)

Section Idle.

Context {CI : ClientInterface}.

(** On a registry without a null pointer [isIdle] returns, and it returns the
    conjunction of the clients' [isIdle]. *)
Lemma isIdle_null_free (s : Service) :
  null_free (mClients s) ->
  exists b, isIdle s = Some b
    /\ (b = true <-> forall name c, In (name, Some c) (mClients s) -> Client_isIdle c = true).
Proof.
unfold isIdle, null_free. induction (mClients s) as [|[k [c|]] m IH]; simpl; intros Hnf.
- exists true. split; [reflexivity |]. split; [intros _ ? ? [] | reflexivity].
- inversion Hnf as [|? ? _ Hm]; subst. destruct (IH Hm) as (b & Hb & Hiff).
  destruct (Client_isIdle c) eqn:Hc.
  + exists b. split; [assumption |]. rewrite Hiff. split.
    * intros H name c' [Heq | Hin]; [injection Heq as <- <-; assumption | eauto].
    * intros H name c' Hin. apply (H name). now right.
  + exists false. split; [reflexivity |]. split; [discriminate |].
    intros H. rewrite <- Hc. apply (H k). now left.
- inversion Hnf as [|? ? Hk _]; subst. now destruct Hk.
Qed.

(** [setFallbackClient] accepts a null pointer and stores it. *)
Lemma setFallbackClient_null (s : Service) :
  StdMap.find "fallback" (mClients (fst (setFallbackClient None s))) = Some None.
Proof. unfold setFallbackClient, modify. simpl. apply StdMapFacts.find_assign_eq. Qed.

(** C8, at the service whose fallback slot was set to a null pointer: every
    registered client is idle (there is none), and [isIdle] does not return
    [true]: it dereferences the null pointer. *)
Theorem isIdle_null_fallback (maxQueueSize : nat) :
  let s := fst (setFallbackClient None (newService maxQueueSize)) in
  (forall name c, registered (mClients s) name c -> Client_isIdle c = true)
  /\ isIdle s = None.
Proof.
simpl. split; [| reflexivity].
intros name c. unfold registered. simpl.
destruct (String.eqb name sFallbackClientKey); discriminate.
Qed.

End Idle.

(** With the clients of the specification, a service without a null pointer is
    idle iff no client has a queued or in-flight request. *)
Lemma isIdle_SpecClient (maxQueueSize : nat) (s : Service) :
  null_free (mClients s) ->
  isIdle (CI := SpecClient maxQueueSize) s = Some true
  <-> forall name c, In (name, Some c) (mClients s) -> queue c = [] /\ inProgress c = [].
Proof.
intros Hnf. destruct (isIdle_null_free (CI := SpecClient maxQueueSize) s Hnf) as (b & Hb & Hiff).
rewrite Hb. split.
- intros Heq. injection Heq as ->. intros name c Hin.
  assert (Hc := proj1 Hiff eq_refl name c Hin). simpl in Hc.
  destruct (queue c), (inProgress c); try discriminate. now split.
- intros H. f_equal. apply Hiff. intros name c Hin. destruct (H name c Hin) as [Hq Hp].
  simpl. now rewrite Hq, Hp.
Qed.

(** With the clients of the specification, a request that [sendPush] routes to
    a client with room in its queue is appended to that queue in the state
    Queued, and [sendPush] returns. *)
Lemma sendPush_SpecClient_enqueues (maxQueueSize : nat) (print_Request : Request -> string)
  (pn : Request) (s : Service) (c : Client) :
  registered (mClients s) (getAppIdentifier pn) c ->
  List.length (queue c) < maxQueueSize ->
  sendPush (CI := SpecClient maxQueueSize) print_Request pn s
  = (set_mClients (StdMap.assign (getAppIdentifier pn) (Some (enqueue pn c))) s, inr tt).
Proof.
intros Hc Hlen. unfold sendPush. rewrite (registered_get_or_null _ _ _ Hc).
unfold call_sendPush. simpl.
destruct (Nat.ltb_spec (List.length (queue c)) maxQueueSize); [reflexivity | lia].
Qed.

(** *** Firebase clients *)

Section Firebase.

Variable FIREBASE_GET_ACCESS_TOKEN_SCRIPT_PATH : string.

Local Abbreviation addServiceAccount :=
  (addServiceAccount FIREBASE_GET_ACCESS_TOKEN_SCRIPT_PATH).
Local Abbreviation setupFirebaseClients :=
  (setupFirebaseClients FIREBASE_GET_ACCESS_TOKEN_SCRIPT_PATH).

(** The first loop never throws; it registers a legacy client under every
    application identifier of the list and keeps every key of the registry. *)
Lemma legacy_loop (keys : list string) (s : Service) :
  exists s1,
    for_each keys addApiKey s = (s1, inr tt)
    /\ (forall k, In k (appIds keys) ->
          exists apiKey, registered (mClients s1) k (newClient (FirebaseClient apiKey)))
    /\ (forall k, StdMap.contains k (mClients s) = true ->
          StdMap.contains k (mClients s1) = true).
Proof.
revert s. induction keys as [|keyval keys IH]; intros s; simpl.
- exists s. repeat split; [intros k [] | auto].
- unfold bind. unfold addApiKey at 1, addFirebaseClient, modify.
  set (s0 := set_mClients _ s).
  destruct (IH s0) as (s1 & Hrun & Hreg & Hkeep). exists s1. rewrite Hrun.
  split; [reflexivity |]. split.
  + intros k [<- | Hin]; [| now apply Hreg].
    destruct (in_dec string_dec (fst (split_keyval keyval)) (appIds keys)) as [Hin | Hnin].
    * now apply Hreg.
    * clear Hreg Hkeep. revert s0 s1 Hrun.
      generalize (fst (split_keyval keyval)) (snd (split_keyval keyval)) Hnin.
      intros a apiKey Ha s0' s1' Hrun'.
      exists apiKey. subst s0'.
      assert (Hpres : forall l s2 s3 c, ~ In a (appIds l) ->
                for_each l addApiKey s2 = (s3, inr tt) ->
                registered (mClients s2) a c -> registered (mClients s3) a c).
      { clear. induction l as [|kv l IHl]; simpl; intros s2 s3 c Hn Hr Hc.
        - injection Hr as <-. assumption.
        - unfold bind in Hr. unfold addApiKey at 1, addFirebaseClient, modify in Hr.
          apply (IHl _ _ c) in Hr; [assumption | tauto |].
          unfold registered in *. simpl. rewrite StdMapFacts.find_assign_ne; [assumption |].
          intros Heq. apply Hn. now left. }
      apply (Hpres keys _ _ _ Ha Hrun'). unfold registered. simpl.
      apply StdMapFacts.find_assign_eq.
  + intros k Hk. apply Hkeep. unfold s0. simpl.
    rewrite StdMapFacts.contains_assign, Hk. apply orb_true_r.
Qed.

(** The second loop throws the duplicate error as soon as an application
    identifier of its list is a key of the registry; the entries the registry
    had are left as they were. *)
Lemma v1_loop_duplicate (d t : Z) (accounts : list string) (s : Service) :
  (exists a, In a (appIds accounts) /\ StdMap.contains a (mClients s) = true) ->
  exists id s2,
    In id (appIds accounts)
    /\ for_each accounts (addServiceAccount d t) s
       = (s2, inl (runtime_error (duplicate_message id)))
    /\ (forall k p, StdMap.find k (mClients s) = Some p -> StdMap.find k (mClients s2) = Some p).
Proof.
revert s. induction accounts as [|keyval accounts IH]; intros s (a & Hin & Ha).
- destruct Hin.
- simpl. unfold bind. unfold Push.addServiceAccount at 1. unfold bind, get.
  destruct (StdMap.contains (fst (split_keyval keyval)) (mClients s)) eqn:Hc.
  + exists (fst (split_keyval keyval)), s. unfold throw.
    split; [now left | split; [reflexivity | auto]].
  + unfold addFirebaseV1Client, modify.
    set (s1 := set_mClients _ s).
    assert (Hne : a <> fst (split_keyval keyval)) by (intros ->; congruence).
    destruct Hin as [Heq | Hin]; [now destruct Hne |].
    destruct (IH s1) as (id & s2 & Hid & Hrun & Hkeep).
    { exists a. split; [assumption |]. unfold s1. simpl.
      rewrite StdMapFacts.contains_assign, Ha. apply orb_true_r. }
    exists id, s2. split; [now right |]. split; [assumption |].
    intros k p Hk. apply Hkeep. unfold s1. simpl.
    rewrite StdMapFacts.find_assign_ne; [assumption |].
    intros ->. unfold StdMap.contains in Hc. now rewrite Hk in Hc.
Qed.

Lemma setupFirebaseClients_unfold (pushConfig : GenericStruct) (s : Service) :
  setupFirebaseClients pushConfig s
  = bind (for_each (firebase_projects_api_keys pushConfig) addApiKey)
      (fun _ => for_each (firebase_service_accounts pushConfig)
                  (addServiceAccount (firebase_default_refresh_interval pushConfig * 1000)
                     (firebase_token_expiration_anticipation_time pushConfig * 1000))) s.
Proof. reflexivity. Qed.

(** C2, as the code has it. When an application identifier is in both lists
    [setupFirebaseClients] throws the duplicate error, and the registry is not
    emptied: every application identifier of [firebase-projects-api-keys] is
    left registered with its legacy client. *)
Theorem setupFirebaseClients_duplicate_keeps_legacy
  (pushConfig : GenericStruct) (s : Service) (appId : string) :
  In appId (appIds (firebase_projects_api_keys pushConfig)) ->
  In appId (appIds (firebase_service_accounts pushConfig)) ->
  exists id s',
    setupFirebaseClients pushConfig s = (s', inl (runtime_error (duplicate_message id)))
    /\ In id (appIds (firebase_service_accounts pushConfig))
    /\ (forall k, In k (appIds (firebase_projects_api_keys pushConfig)) ->
          exists apiKey, registered (mClients s') k (newClient (FirebaseClient apiKey))).
Proof.
intros Hkeys Hacc. rewrite setupFirebaseClients_unfold. unfold bind.
destruct (legacy_loop (firebase_projects_api_keys pushConfig) s) as (s1 & Hrun & Hreg & _).
rewrite Hrun.
destruct (v1_loop_duplicate (firebase_default_refresh_interval pushConfig * 1000)
            (firebase_token_expiration_anticipation_time pushConfig * 1000)
            (firebase_service_accounts pushConfig) s1) as (id & s2 & Hid & Hrun2 & Hkeep).
{ exists appId. split; [assumption |]. apply StdMapFacts.contains_find.
  destruct (Hreg appId Hkeys) as (apiKey & Hk). eauto. }
exists id, s2. rewrite Hrun2. repeat split; [assumption |].
intros k Hk. destruct (Hreg k Hk) as (apiKey & Hreg1). exists apiKey. now apply Hkeep.
Qed.

(** C10. The duplicate check looks the application identifier up in the whole
    registry: when an application identifier of [firebase-service-accounts] is
    a key of the registry before the call, whatever is registered under it (an
    iOS client, the generic client, the fallback slot, a legacy client), or
    is given a legacy client by the first loop, [setupFirebaseClients] throws
    the duplicate error. *)
Theorem setupFirebaseClients_checks_whole_registry
  (pushConfig : GenericStruct) (s : Service) (appId : string) :
  In appId (appIds (firebase_service_accounts pushConfig)) ->
  StdMap.contains appId (mClients s) = true
  \/ In appId (appIds (firebase_projects_api_keys pushConfig)) ->
  exists id,
    In id (appIds (firebase_service_accounts pushConfig))
    /\ snd (setupFirebaseClients pushConfig s) = inl (runtime_error (duplicate_message id)).
Proof.
intros Hacc Hreg. rewrite setupFirebaseClients_unfold. unfold bind.
destruct (legacy_loop (firebase_projects_api_keys pushConfig) s) as (s1 & Hrun & Hnew & Hkeep).
rewrite Hrun.
destruct (v1_loop_duplicate (firebase_default_refresh_interval pushConfig * 1000)
            (firebase_token_expiration_anticipation_time pushConfig * 1000)
            (firebase_service_accounts pushConfig) s1) as (id & s2 & Hid & Hrun2 & _).
{ exists appId. split; [assumption |]. destruct Hreg as [Hreg | Hkey]; [now apply Hkeep |].
  apply StdMapFacts.contains_find. destruct (Hnew appId Hkey) as (apiKey & Hk). eauto. }
exists id. rewrite Hrun2. now split.
Qed.

End Firebase.

(** *** iOS clients *)

(** An entry is kept by the loop iff it is [name ++ ".pem"] for a [name] that
    is not empty. *)
Lemma skipped_false_iff (cert : string) :
  skipped cert = false <-> exists name, name <> "" /\ cert = name ++ ".pem".
Proof.
unfold skipped, Str.compare_at_eq. split.
- intros H. repeat (apply orb_false_elim in H; destruct H as [H ?]).
  match goal with Hn : negb _ = false |- _ => apply negb_false_iff, String.eqb_eq in Hn;
    rename Hn into Hsuf end.
  match goal with Hl : Nat.leb _ _ = false |- _ => apply Nat.leb_gt in Hl; rename Hl into Hlen end.
  exists (Str.substr 0 (String.length cert - String.length suffix) cert). split.
  + intros Hempty. apply StrFacts.suffix_split in Hsuf; [| lia].
    rewrite Hempty in Hsuf. rewrite Hsuf in Hlen. simpl in Hlen. lia.
  + apply StrFacts.suffix_split in Hsuf; [exact Hsuf | lia].
- intros (name & Hname & ->).
  assert (Hlen : String.length (name ++ ".pem") = String.length name + 4)
    by now rewrite StrFacts.length_append.
  assert (Hpos : 0 < String.length name) by (destruct name; simpl; [congruence | lia]).
  change (String.length suffix) with (String.length ".pem").
  rewrite (StrFacts.substr_suffix name ".pem"). simpl String.eqb at 3. simpl negb.
  destruct (String.eqb_spec (name ++ ".pem") ".") as [E | _];
    [rewrite E in Hlen; simpl in Hlen; lia |].
  destruct (String.eqb_spec (name ++ ".pem") "..") as [E | _];
    [rewrite E in Hlen; simpl in Hlen; lia |].
  rewrite Hlen. simpl. destruct (Nat.leb_spec (String.length name + 4) 4); [lia | reflexivity].
Qed.

Lemma has_certificate_cons_skipped (cert : string) (ents : list string) (name : string) :
  skipped cert = true -> has_certificate (cert :: ents) name = has_certificate ents name.
Proof.
intros Hs. unfold has_certificate. simpl.
destruct (String.eqb_spec name "") as [-> | Hname]; [reflexivity |]. simpl.
destruct (String.eqb_spec (name ++ ".pem") cert) as [<- | _]; [| reflexivity].
assert (Hf : skipped (name ++ ".pem") = false) by (apply skipped_false_iff; eauto).
congruence.
Qed.

Lemma has_certificate_cons_kept (n0 : string) (ents : list string) (name : string) :
  n0 <> "" ->
  has_certificate ((n0 ++ ".pem") :: ents) name = String.eqb name n0 || has_certificate ents name.
Proof.
intros Hn0. unfold has_certificate. simpl.
destruct (String.eqb_spec name n0) as [-> | Hne].
- rewrite String.eqb_refl. simpl. now destruct (String.eqb_spec n0 "").
- destruct (String.eqb_spec (name ++ ".pem") (n0 ++ ".pem")) as [E | _]; [| reflexivity].
  apply StrFacts.append_inj_r in E. contradiction.
Qed.

Section iOS.

Variable opendir : string -> option DirStream.
Variable strerror_errno : string.
Variable tlsCreationError : string -> string -> option string.

Local Abbreviation scan_certificates := (scan_certificates tlsCreationError).
Local Abbreviation setupiOSClient := (setupiOSClient opendir strerror_errno tlsCreationError).

(** The loop, one entry at a time: the service and the log it yields. *)
Lemma scan_certificates_cons (certdir cafile cert : string) (ents : list string) (s : Service) :
  scan_certificates certdir cafile (cert :: ents) s
  = if skipped cert then scan_certificates certdir cafile ents s
    else
      let certpath := certdir ++ "/" ++ cert in
      let certName := Str.substr 0 (String.length cert - 4) cert in
      match tlsCreationError cafile certpath with
      | None =>
          let r := scan_certificates certdir cafile ents
                     (set_mClients (StdMap.assign certName
                        (Some (newClient (AppleClient cafile certpath certName)))) s) in
          (fst r, SLOGD ("Adding ios push notification client [" ++ certName ++ "]") :: snd r)
      | Some err =>
          let r := scan_certificates certdir cafile ents s in
          (fst r, SLOGW ("Couldn't make iOS PN client from [" ++ certName ++ "]: " ++ err)
                  :: snd r)
      end.
Proof.
cbn [Push.scan_certificates]. destruct (skipped cert); [reflexivity |]. cbv zeta.
destruct (tlsCreationError cafile (certdir ++ "/" ++ cert));
  match goal with
  | |- (let (_, _) := ?r in _) = _ => destruct r
  end; reflexivity.
Qed.

(** The registry after the loop, key by key. *)
Lemma scan_certificates_find (certdir cafile : string) (ents : list string) (s : Service)
  (name : string) :
  StdMap.find name (mClients (fst (scan_certificates certdir cafile ents s)))
  = if has_certificate ents name
    then match tlsCreationError cafile (certdir ++ "/" ++ name ++ ".pem") with
         | None => Some (Some (newClient
                     (AppleClient cafile (certdir ++ "/" ++ name ++ ".pem") name)))
         | Some _ => StdMap.find name (mClients s)
         end
    else StdMap.find name (mClients s).
Proof.
revert s. induction ents as [|cert ents IH]; intros s.
- unfold has_certificate. simpl. now rewrite andb_false_r.
- rewrite scan_certificates_cons. destruct (skipped cert) eqn:Hs.
  + rewrite IH. now rewrite has_certificate_cons_skipped.
  + apply skipped_false_iff in Hs. destruct Hs as (n0 & Hn0 & ->).
    change 4 with (String.length ".pem"). rewrite StrFacts.substr_prefix.
    rewrite has_certificate_cons_kept by assumption. cbv zeta.
    destruct (tlsCreationError cafile (certdir ++ "/" ++ n0 ++ ".pem")) as [err|] eqn:Htls;
      cbn [fst]; rewrite IH.
    * destruct (String.eqb_spec name n0) as [-> | Hne]; cbn [orb]; [| reflexivity].
      rewrite Htls. now destruct (has_certificate ents n0).
    * cbn [mClients set_mClients]. rewrite StdMapFacts.find_assign.
      destruct (String.eqb_spec name n0) as [-> | Hne]; cbn [orb]; [| reflexivity].
      rewrite Htls. now destruct (has_certificate ents n0).
Qed.

(** Every certificate whose TLS connection cannot be made is reported. *)
Lemma scan_certificates_log (certdir cafile : string) (ents : list string) (s : Service)
  (name err : string) :
  has_certificate ents name = true ->
  tlsCreationError cafile (certdir ++ "/" ++ name ++ ".pem") = Some err ->
  In (SLOGW ("Couldn't make iOS PN client from [" ++ name ++ "]: " ++ err))
     (snd (scan_certificates certdir cafile ents s)).
Proof.
revert s. induction ents as [|cert ents IH]; intros s Hcert Htls.
- unfold has_certificate in Hcert. simpl in Hcert. now rewrite andb_false_r in Hcert.
- rewrite scan_certificates_cons. destruct (skipped cert) eqn:Hs.
  + apply IH; [| assumption]. now rewrite has_certificate_cons_skipped in Hcert.
  + apply skipped_false_iff in Hs. destruct Hs as (n0 & Hn0 & ->).
    change 4 with (String.length ".pem"). rewrite StrFacts.substr_prefix.
    rewrite has_certificate_cons_kept in Hcert by assumption. cbv zeta.
    destruct (String.eqb_spec name n0) as [-> | Hne].
    * rewrite Htls. cbn [snd]. now left.
    * cbn [orb] in Hcert.
      destruct (tlsCreationError cafile (certdir ++ "/" ++ n0 ++ ".pem"));
        cbn [snd]; right; now apply IH.
Qed.

(** C7, as the code has it. When the directory opens, [setupiOSClient]
    registers one [AppleClient] for every entry [name ++ ".pem"] with a [name]
    that is not empty (an entry called ".pem" is passed over) and whose TLS
    connection can be made, under the key [name]; a certificate whose TLS
    connection cannot be made is reported and changes nothing; and no other
    key of the registry changes. *)
Theorem setupiOSClient_registry (certdir cafile : string) (s : Service) (dirp : DirStream) :
  opendir certdir = Some dirp ->
  let s' := fst (setupiOSClient certdir cafile s) in
  let log := snd (setupiOSClient certdir cafile s) in
  let certpath name := certdir ++ "/" ++ name ++ ".pem" in
  (forall name, name <> "" -> In (name ++ ".pem") (entries dirp) ->
     tlsCreationError cafile (certpath name) = None ->
     registered (mClients s') name (newClient (AppleClient cafile (certpath name) name)))
  /\ (forall name err, name <> "" -> In (name ++ ".pem") (entries dirp) ->
        tlsCreationError cafile (certpath name) = Some err ->
        StdMap.find name (mClients s') = StdMap.find name (mClients s)
        /\ In (SLOGW ("Couldn't make iOS PN client from [" ++ name ++ "]: " ++ err)) log)
  /\ (forall name, (name = "" \/ ~ In (name ++ ".pem") (entries dirp)) ->
        StdMap.find name (mClients s') = StdMap.find name (mClients s)).
Proof.
intros Hopen s' log certpath. subst s' log certpath. unfold Push.setupiOSClient. rewrite Hopen.
assert (Hcert : forall name, name <> "" -> In (name ++ ".pem") (entries dirp) ->
                  has_certificate (entries dirp) name = true).
{ intros name Hname Hin. unfold has_certificate.
  destruct (String.eqb_spec name ""); [contradiction |]. simpl.
  apply existsb_exists. exists (name ++ ".pem"). split; [assumption | apply String.eqb_refl]. }
pose proof (scan_certificates_find certdir cafile (entries dirp) s) as Hfind.
pose proof (scan_certificates_log certdir cafile (entries dirp) s) as Hlog.
destruct (Push.scan_certificates tlsCreationError certdir cafile (entries dirp) s) as [s' log].
cbn [fst snd] in *. split; [| split].
- intros name Hname Hin Htls. unfold registered.
  now rewrite Hfind, (Hcert name Hname Hin), Htls.
- intros name err Hname Hin Htls. split.
  + now rewrite Hfind, (Hcert name Hname Hin), Htls.
  + right. apply in_or_app. left. apply Hlog; [now apply Hcert | assumption].
- intros name Hno. rewrite Hfind.
  destruct (has_certificate (entries dirp) name) eqn:Hc; [| reflexivity].
  unfold has_certificate in Hc. apply andb_prop in Hc. destruct Hc as [Hne Hex].
  apply existsb_exists in Hex. destruct Hex as (x & Hin & Hx). apply String.eqb_eq in Hx. subst x.
  destruct Hno as [-> | Hnin]; [discriminate | contradiction].
Qed.

(** The registry stays in key order through the loop. *)
Lemma scan_certificates_sorted (certdir cafile : string) (ents : list string) (s : Service) :
  StdMap.sorted (mClients s) ->
  StdMap.sorted (mClients (fst (scan_certificates certdir cafile ents s))).
Proof.
revert s. induction ents as [|cert ents IH]; intros s Hs; [assumption |].
rewrite scan_certificates_cons. destruct (skipped cert); [now apply IH |]. cbv zeta.
destruct (tlsCreationError cafile (certdir ++ "/" ++ cert)); cbn [fst]; apply IH;
  [assumption |].
cbn [mClients set_mClients]. now apply StdMapFacts.assign_sorted.
Qed.

End iOS.

(** *** The order of the registry *)

(** A loop whose body keeps the registry in key order keeps it so. *)
Lemma for_each_sorted {A} (body : A -> M Service unit) (l : list A) (s : Service) :
  (forall x s0, StdMap.sorted (mClients s0) -> StdMap.sorted (mClients (fst (body x s0)))) ->
  StdMap.sorted (mClients s) ->
  StdMap.sorted (mClients (fst (for_each l body s))).
Proof.
intros Hbody. revert s. induction l as [|x l IH]; intros s Hs; simpl; [assumption |].
unfold bind. specialize (Hbody x s Hs).
destruct (body x s) as [s1 [e|[]]]; cbn [fst] in *; [assumption | now apply IH].
Qed.

(** The setup of the Firebase clients keeps the registry in key order, which
    is the order [isIdle] visits it in. *)
Lemma setupFirebaseClients_sorted (scriptPath : string) (pushConfig : GenericStruct)
  (s : Service) :
  StdMap.sorted (mClients s) ->
  StdMap.sorted (mClients (fst (setupFirebaseClients scriptPath pushConfig s))).
Proof.
intros Hs. unfold setupFirebaseClients, bind.
assert (H1 : StdMap.sorted
               (mClients (fst (for_each (firebase_projects_api_keys pushConfig) addApiKey s)))).
{ apply for_each_sorted; [| assumption]. intros keyval s0 Hs0.
  unfold addApiKey, addFirebaseClient, modify. cbn [fst mClients set_mClients].
  now apply StdMapFacts.assign_sorted. }
destruct (for_each (firebase_projects_api_keys pushConfig) addApiKey s) as [s1 [e|[]]];
  cbn [fst] in *; [assumption |].
apply for_each_sorted; [| assumption]. intros keyval s0 Hs0.
unfold addServiceAccount, bind, get.
destruct (StdMap.contains (fst (split_keyval keyval)) (mClients s0)); [assumption |].
unfold addFirebaseV1Client, modify. cbn [fst mClients set_mClients].
now apply StdMapFacts.assign_sorted.
Qed.

Lemma setFallbackClient_sorted (fallbackClient : option Client) (s : Service) :
  StdMap.sorted (mClients s) ->
  StdMap.sorted (mClients (fst (setFallbackClient fallbackClient s))).
Proof.
intros Hs. unfold setFallbackClient, modify. cbn [fst mClients set_mClients].
now apply StdMapFacts.assign_sorted.
Qed.

End PushFacts.

(** ** The conference address generator *)

Module ConferenceFacts.

Import Conference.

Lemma hex_of_length (digits : nat) (x : N) : String.length (hex_of digits x) = digits.
Proof.
revert x. induction digits as [|d IH]; intros x; simpl; [reflexivity |].
rewrite StrFacts.length_append, IH. simpl. lia.
Qed.

(** The C string read from an array is shorter than the array, and the array
    has a C string as soon as it holds a NUL. *)
Lemma c_str_length (buf : list ascii) (tok : string) :
  c_str buf = Some tok -> String.length tok < List.length buf.
Proof.
revert tok. induction buf as [|c buf IH]; intros tok; simpl; [discriminate |].
destruct (Ascii.eqb c zero).
- intros [= <-]. simpl. lia.
- destruct (c_str buf) as [t|]; simpl; [| discriminate].
  intros [= <-]. simpl. specialize (IH t eq_refl). lia.
Qed.

Lemma c_str_terminated (buf : list ascii) :
  In zero buf -> exists tok, c_str buf = Some tok.
Proof.
induction buf as [|c buf IH]; simpl; [intros [] |].
destruct (Ascii.eqb_spec c zero) as [-> | Hne]; [eauto |].
intros [Heq | Hin]; [contradiction |].
destruct (IH Hin) as (t & ->). simpl. eauto.
Qed.

Section Generator.

Variable CHATROOM_PREFIX : string.
Variable asStringUriOnly : Address -> string.
Variable transport : string.
Variable latest : list ExtendedContact -> option ExtendedContact.
Variable createAddress : string -> option Address.

Local Abbreviation changeAddress := (changeAddress CHATROOM_PREFIX).
Local Abbreviation handle :=
  (handle CHATROOM_PREFIX asStringUriOnly transport latest createAddress).
Local Abbreviation deliver :=
  (deliver CHATROOM_PREFIX asStringUriOnly transport latest createAddress).
Local Abbreviation answers :=
  (answers CHATROOM_PREFIX asStringUriOnly transport latest createAddress).

(** C3, as the code has it. [changeAddress] sets the user part to the
    chat-room prefix followed by the token that [belle_sip_random_token] left
    in the array of 17 characters: a NUL-terminated string of at most 16
    characters. Nothing else of the generator changes. *)
Theorem changeAddress_user_part (token : list ascii) (g : ConferenceAddressGenerator) :
  List.length token = sizeof_token ->
  In zero token ->
  exists tok g',
    c_str token = Some tok
    /\ changeAddress token g = Some g'
    /\ getUsername (mConferenceAddr g') = CHATROOM_PREFIX ++ tok
    /\ String.length tok <= 16
    /\ getDomain (mConferenceAddr g') = getDomain (mConferenceAddr g)
    /\ mState g' = mState g /\ mUuid g' = mUuid g /\ mPath g' = mPath g.
Proof.
intros Hlen Hnul. destruct (c_str_terminated token Hnul) as (tok & Htok).
exists tok. eexists. split; [exact Htok |]. unfold Conference.changeAddress. rewrite Htok.
split; [reflexivity |]. simpl. repeat split.
apply c_str_length in Htok. rewrite Hlen in Htok. unfold sizeof_token in Htok. lia.
Qed.

(** *** The callbacks, one at a time *)

(** In the state Fetching, a record that is neither null nor empty makes the
    generator take a new address and fetch again: it stays in the state
    Fetching, binds nothing and publishes nothing. *)
Lemma handle_collision (cb : Callback) (g g' : ConferenceAddressGenerator) (acts : list Action) :
  mState g = Fetching -> found_nonempty cb = true -> handle cb g = Some (g', acts) ->
  mState g' = Fetching
  /\ acts = [LOGW "Conference address conflict detected, trying another random name.";
             RegistrarDb_fetch (asStringUriOnly (mConferenceAddr g'))]
  /\ exists r token tok,
       cb = onRecordFound r token /\ c_str token = Some tok
       /\ getUsername (mConferenceAddr g') = CHATROOM_PREFIX ++ tok.
Proof.
intros Hst Hne. destruct cb as [[rec|] token|]; simpl in Hne; try discriminate.
simpl. unfold handle_onRecordFound, Conference.changeAddress. rewrite Hst, Hne.
destruct (c_str token) as [tok|] eqn:Htok; [| discriminate].
intros [= <- <-]. simpl. repeat split; [assumption |]. exists (Some rec), token, tok. auto.
Qed.

(** The address after a collision is the address before it with the user part
    that [changeAddress] makes of the token of this callback; nothing else of
    the generator changes. *)
Lemma handle_collision_address (cb : Callback) (g g' : ConferenceAddressGenerator)
  (acts : list Action) :
  mState g = Fetching -> found_nonempty cb = true -> handle cb g = Some (g', acts) ->
  exists r token tok,
    cb = onRecordFound r token /\ c_str token = Some tok
    /\ changeAddress token g = Some g'
    /\ g' = set_mConferenceAddr (setUsername (CHATROOM_PREFIX ++ tok) (mConferenceAddr g)) g.
Proof.
intros Hst Hne. destruct cb as [[rec|] token|]; simpl in Hne; try discriminate.
simpl. unfold handle_onRecordFound, Conference.changeAddress. rewrite Hst, Hne.
destruct (c_str token) as [tok|] eqn:Htok; [| discriminate].
intros [= <- <-]. exists (Some rec), token, tok. rewrite Htok. auto.
Qed.

(** The callback of a collision is handled as soon as the array of the token
    is terminated. *)
Lemma handle_collision_defined (rec : Record_) (token : list ascii)
  (g : ConferenceAddressGenerator) :
  mState g = Fetching -> isEmpty rec = false -> In zero token ->
  exists g' acts, handle (onRecordFound (Some rec) token) g = Some (g', acts).
Proof.
intros Hst Hne Hnul. simpl. unfold handle_onRecordFound, Conference.changeAddress.
rewrite Hst, Hne. destruct (c_str_terminated token Hnul) as (tok & ->). simpl. eauto.
Qed.

(** The state Binding is entered from the state Fetching only by
    [onRecordFound] with a null or an empty record. *)
Lemma handle_enters_Binding (cb : Callback) (g g' : ConferenceAddressGenerator)
  (acts : list Action) :
  mState g = Fetching -> handle cb g = Some (g', acts) -> mState g' = Binding ->
  is_onRecordFound cb = true /\ found_nonempty cb = false
  /\ acts = [bindChatRoom (asStringUriOnly (mConferenceAddr g)) transport (mUuid g)].
Proof.
intros Hst. destruct cb as [r token|]; simpl.
- unfold handle_onRecordFound. rewrite Hst.
  destruct (match r with Some rec => negb (isEmpty rec) | None => false end) eqn:Hne.
  + unfold Conference.changeAddress. destruct (c_str token); [| discriminate].
    intros [= <- <-]. simpl. congruence.
  + intros [= <- <-] _. repeat split.
- unfold handle_onError. intros [= <- <-]. congruence.
Qed.

Lemma handle_stays_Binding (cb : Callback) (g g' : ConferenceAddressGenerator)
  (acts : list Action) :
  mState g = Binding -> handle cb g = Some (g', acts) -> mState g' = Binding.
Proof.
intros Hst. destruct cb as [r token|]; simpl.
- unfold handle_onRecordFound. rewrite Hst.
  destruct r as [rec|]; [| discriminate].
  destruct (getExtendedContacts rec); [now intros [= <- <-] |].
  destruct (latest _) as [ec|]; [| discriminate].
  destruct (getPubGruu rec ec); now intros [= <- <-].
- unfold handle_onError. now intros [= <- <-].
Qed.

(** A GRUU is published only in the state Binding. *)
Lemma handle_publishes_in_Binding (cb : Callback) (g g' : ConferenceAddressGenerator)
  (acts : list Action) (a : Address) :
  handle cb g = Some (g', acts) -> In (setConferenceAddress (Some a)) acts ->
  mState g = Binding.
Proof.
destruct (mState g) eqn:Hst; [| reflexivity]. destruct cb as [r token|]; simpl.
- unfold handle_onRecordFound. rewrite Hst.
  destruct (match r with Some rec => negb (isEmpty rec) | None => false end).
  + unfold Conference.changeAddress. destruct (c_str token); [| discriminate].
    intros [= <- <-]. simpl. intuition discriminate.
  + intros [= <- <-]. simpl. intuition discriminate.
- unfold handle_onError. intros [= <- <-]. simpl. intuition discriminate.
Qed.

(** Each callback issues at most one registrar request. *)
Lemma handle_requests (cb : Callback) (g g' : ConferenceAddressGenerator) (acts : list Action) :
  handle cb g = Some (g', acts) -> requests acts <= 1.
Proof.
destruct cb as [r token|]; simpl.
- unfold handle_onRecordFound. destruct (mState g).
  + destruct (match r with Some rec => negb (isEmpty rec) | None => false end).
    * unfold Conference.changeAddress. destruct (c_str token); [| discriminate].
      intros [= <- <-]. simpl. lia.
    * intros [= <- <-]. simpl. lia.
  + destruct r as [rec|]; [| discriminate].
    destruct (getExtendedContacts rec); [intros [= <- <-]; simpl; lia |].
    destruct (latest _) as [ec|]; [| discriminate].
    destruct (getPubGruu rec ec); intros [= <- <-]; simpl; lia.
- unfold handle_onError. intros [= <- <-]. simpl. lia.
Qed.

(** *** Sequences of callbacks *)

(** Every step of a run is the handling of its callback. *)
Lemma deliver_step (cbs : list Callback) (g : ConferenceAddressGenerator)
  (pre : list Step) (st : Step) (post : list Step) :
  deliver cbs g = (pre ++ st :: post)%list ->
  handle (callback st) (before st) = Some (after st, actions st).
Proof.
revert g pre. induction cbs as [|cb cbs IH]; intros g pre; simpl.
- intros H. now destruct pre.
- destruct (handle cb g) as [[g' acts]|] eqn:Hh; [| intros H; now destruct pre].
  destruct pre as [|p pre]; simpl; intros [= Hp Hrest].
  + now subst st.
  + now apply (IH g' pre).
Qed.

Lemma deliver_in_Binding (cbs : list Callback) (g : ConferenceAddressGenerator) :
  mState g = Binding -> Forall (fun x => mState (before x) = Binding) (deliver cbs g).
Proof.
revert g. induction cbs as [|cb cbs IH]; intros g Hst; simpl; [constructor |].
destruct (handle cb g) as [[g' acts]|] eqn:Hh; [| constructor].
constructor; [assumption |]. apply IH. eapply handle_stays_Binding; eauto.
Qed.

(** A step taken in the state Binding, in a run that starts in the state
    Fetching, comes after a fetch that found nothing. *)
Lemma deliver_reaches_Binding (cbs : list Callback) (g : ConferenceAddressGenerator)
  (pre : list Step) (st : Step) (post : list Step) :
  mState g = Fetching ->
  deliver cbs g = (pre ++ st :: post)%list ->
  mState (before st) = Binding ->
  last_fetch_found_nothing pre.
Proof.
revert g pre. induction cbs as [|cb cbs IH]; intros g pre Hst; simpl.
- intros H. now destruct pre.
- destruct (handle cb g) as [[g' acts]|] eqn:Hh; [| intros H; now destruct pre].
  destruct pre as [|p pre]; simpl; intros [= Hp Hrest] Hb.
  + subst st. simpl in Hb. congruence.
  + destruct (mState g') eqn:Hst'.
    * destruct (IH g' pre Hst' Hrest Hb) as (pre1 & f & pre2 & -> & Hf).
      exists (p :: pre1), f, pre2. now split.
    * destruct (handle_enters_Binding cb g g' acts Hst Hh Hst') as (Hrec & Hnone & _).
      exists [], p, pre. subst p. simpl. repeat split; try assumption.
      pose proof (deliver_in_Binding cbs g' Hst') as Hall. rewrite Hrest in Hall.
      now apply Forall_app in Hall.
Qed.

(** Once an error was handled no request of the generator is outstanding: when
    callbacks only answer requests, none follows. *)
Lemma deliver_onError_last (cbs : list Callback) (g : ConferenceAddressGenerator) (n : nat)
  (pre : list Step) (st : Step) (post : list Step) :
  n <= 1 -> answers n cbs g = true ->
  deliver cbs g = (pre ++ st :: post)%list -> callback st = onError ->
  post = [].
Proof.
revert g n pre. induction cbs as [|cb cbs IH]; intros g n pre Hn; simpl.
- intros _ H. now destruct pre.
- destruct n as [|n]; [discriminate |].
  destruct (handle cb g) as [[g' acts]|] eqn:Hh; [| intros _ H; now destruct pre].
  assert (n = 0) as -> by lia. simpl.
  destruct pre as [|p pre]; simpl; intros Hans [= Hp Hrest] Hcb.
  + subst st. simpl in Hcb. subst cb. simpl in Hh. injection Hh as <- <-.
    simpl in Hans. destruct cbs; [| discriminate]. simpl in Hrest. congruence.
  + apply (IH g' (requests acts) pre); try assumption.
    eapply handle_requests; eauto.
Qed.

(** C4. In a run of callbacks that starts in the state Fetching: a record that
    is neither null nor empty, found while Fetching, makes the generator take
    a new random address and fetch it, without binding: the step is the call
    of [changeAddress] on the token drawn at this callback, so that the user
    part becomes the prefix followed by that token, the domain, the uuid and
    the path staying as they were, and the fetch is of the new address. The
    generator goes from Fetching to Binding only on a null or empty record;
    and a step that publishes a GRUU is taken in the state Binding, the last
    fetch before it having found nothing. *)
Theorem never_publishes_after_collision (cbs : list Callback) (g : ConferenceAddressGenerator)
  (pre : list Step) (st : Step) (post : list Step) :
  mState g = Fetching ->
  deliver cbs g = (pre ++ st :: post)%list ->
  (mState (before st) = Fetching -> found_nonempty (callback st) = true ->
     mState (after st) = Fetching
     /\ actions st = [LOGW "Conference address conflict detected, trying another random name.";
                      RegistrarDb_fetch (asStringUriOnly (mConferenceAddr (after st)))]
     /\ exists r token tok,
          callback st = onRecordFound r token
          /\ c_str token = Some tok
          /\ changeAddress token (before st) = Some (after st)
          /\ after st = set_mConferenceAddr
                          (setUsername (CHATROOM_PREFIX ++ tok) (mConferenceAddr (before st)))
                          (before st)
          /\ getUsername (mConferenceAddr (after st)) = CHATROOM_PREFIX ++ tok
          /\ getDomain (mConferenceAddr (after st)) = getDomain (mConferenceAddr (before st))
          /\ mUuid (after st) = mUuid (before st) /\ mPath (after st) = mPath (before st))
  /\ (mState (before st) = Fetching -> mState (after st) = Binding ->
        is_onRecordFound (callback st) = true /\ found_nonempty (callback st) = false)
  /\ (publishes_gruu st -> mState (before st) = Binding /\ last_fetch_found_nothing pre).
Proof.
intros Hst Hrun. pose proof (deliver_step _ _ _ _ _ Hrun) as Hstep. split; [| split].
- intros Hfetching Hfound.
  destruct (handle_collision _ _ _ _ Hfetching Hfound Hstep) as (Hafter & Hacts & _).
  destruct (handle_collision_address _ _ _ _ Hfetching Hfound Hstep)
    as (r & token & tok & Hcb & Htok & Hchange & Hg').
  split; [assumption |]. split; [assumption |]. exists r, token, tok.
  split; [assumption |]. split; [assumption |]. split; [assumption |].
  split; [assumption |]. rewrite Hg'. repeat split.
- intros Hfetching Hbinding.
  destruct (handle_enters_Binding _ _ _ _ Hfetching Hstep Hbinding) as (Hrec & Hnone & _).
  auto.
- intros (a & Ha).
  assert (Hbinding : mState (before st) = Binding)
    by (eapply handle_publishes_in_Binding; eauto).
  split; [assumption |]. eapply deliver_reaches_Binding; eauto.
Qed.

(** C5, as the code has it. Whatever the state of the generator, Fetching or
    Binding, [onError] sets the conference address of the chat room to null
    and does nothing else: no fetch, no bind, no change of state. The
    generator keeps no trace of the error; when callbacks only answer the
    requests of the generator, no callback follows the error: nothing else is
    published. *)
Theorem onError_nullifies (cbs : list Callback) (g : ConferenceAddressGenerator)
  (pre : list Step) (st : Step) (post : list Step) :
  deliver cbs g = (pre ++ st :: post)%list ->
  callback st = onError ->
  actions st = [setConferenceAddress None]
  /\ after st = before st
  /\ (answers 1 cbs g = true -> post = []).
Proof.
intros Hrun Hcb. pose proof (deliver_step _ _ _ _ _ Hrun) as Hstep.
rewrite Hcb in Hstep. simpl in Hstep. injection Hstep as Hafter Hacts.
repeat split; try congruence.
intros Hans. now apply (deliver_onError_last cbs g 1 pre st post).
Qed.

End Generator.

End ConferenceFacts.

(** ** The origin of an authentication log *)

Module EventLogFacts.

Import EventLog.

Lemma url_scheme_of_sip (rest : string) : url_scheme_of ("sip:" ++ rest) = "sip".
Proof. reflexivity. Qed.

(** The value [setOrigin] leaves in [mOrigin], by the transport named after
    the second slash of the protocol: the scheme passed to [url_format] is
    "sip" whether or not that transport is UDP. *)
Lemma setOrigin_value (via : sip_via_t) (protocol0 protocol1 : string) :
  after_char "/"%char (v_protocol via) = Some protocol0 ->
  after_char "/"%char protocol0 = Some protocol1 ->
  setOrigin via
  = Some {| url_text :=
              "sip:" ++ match v_received via with Some r => r | None => v_host via end
              ++ match (match v_rport via with Some p => Some p | None => v_port via end) with
                 | Some p => ":" ++ p
                 | None => ""
                 end;
            url_params :=
              if Z.eqb (strcasecmp protocol1 "UDP") 0 then None
              else Some ("transport=" ++ protocol1) |}.
Proof.
intros H0 H1. unfold setOrigin. rewrite H0, H1.
assert (Hnil : forall x : string, x ++ "" = x)
  by (induction x as [|c x IH]; simpl; [reflexivity | now rewrite IH]).
destruct (Z.eqb (strcasecmp protocol1 "UDP") 0);
  destruct (v_rport via), (v_port via); simpl; now rewrite ?Hnil.
Qed.

(** C9. The two comparisons of [setOrigin] test the same string, so the branch
    that sets the scheme to "sips" is never taken: every origin that
    [setOrigin] produces has the scheme "sip", and it produces one whenever the
    protocol of the Via has its two slashes. *)
Theorem setOrigin_scheme_is_sip (via : sip_via_t) :
  (forall mOrigin, setOrigin via = Some mOrigin ->
     url_scheme mOrigin = "sip" /\ url_scheme mOrigin <> "sips")
  /\ (forall protocol0 protocol1,
        after_char "/"%char (v_protocol via) = Some protocol0 ->
        after_char "/"%char protocol0 = Some protocol1 ->
        exists mOrigin, setOrigin via = Some mOrigin).
Proof.
split.
- intros mOrigin H.
  assert (Hs : url_scheme mOrigin = "sip").
  { unfold setOrigin in H.
    destruct (after_char "/"%char (v_protocol via)) as [protocol0|] eqn:H0; [| discriminate].
    destruct (after_char "/"%char protocol0) as [protocol1|] eqn:H1; [| discriminate].
    destruct (Z.eqb (strcasecmp protocol1 "UDP") 0);
      destruct (v_rport via), (v_port via); injection H as <-; reflexivity. }
  rewrite Hs. split; [reflexivity | discriminate].
- intros protocol0 protocol1 H0 H1. rewrite (setOrigin_value via protocol0 protocol1 H0 H1). eauto.
Qed.

End EventLogFacts.

(** ** The properties on the concrete scenarios *)

Module Witnesses.

Import Push Scenarios.

#[local] Existing Instance clients.

(** The four cases of the resolution of [makeRequest]: a generic client, then
    the client of the provider tag, then the fallback client, then none. *)
Lemma makeRequest_resolution_order_witness :
  (exists g, makeRequest (CI := clients) s_generic Message pInfo
             = Client_makeRequest g Message pInfo (Some (mClients s_generic)))
  /\ (exists c, makeRequest (CI := clients) s_ios_fallback Message pInfo
                = Client_makeRequest c Message pInfo None
                /\ impl c = AppleClient "ca.pem" "certs/org.example.app.pem" "org.example.app")
  /\ makeRequest (CI := clients) s_fallback Message pInfo
     = Client_makeRequest fallbackClient Message pInfo None
  /\ makeRequest (CI := clients) s_empty Message pInfo
     = inl (runtime_error "unsupported PN provider [apns]").
Proof.
split; [| split; [| split]].
- eexists.
  apply (proj1 (PushFacts.makeRequest_resolution_order (CI := clients) s_generic Message pInfo)).
  reflexivity.
- eexists. split.
  + apply (proj1 (proj2 (PushFacts.makeRequest_resolution_order (CI := clients)
                           s_ios_fallback Message pInfo))); reflexivity.
  + reflexivity.
- apply (proj1 (proj2 (proj2 (PushFacts.makeRequest_resolution_order (CI := clients)
                                s_fallback Message pInfo)))); reflexivity.
- apply (proj2 (proj2 (proj2 (PushFacts.makeRequest_resolution_order (CI := clients)
                                s_empty Message pInfo)))); reflexivity.
Defined.

(** The three cases of the routing of [sendPush]. *)
Lemma sendPush_routing_witness :
  (exists c, registered (mClients (fst (sendPush (CI := clients) print_Request pn s_ios_fallback)))
               "org.example.app" c
             /\ queue c = [mkRequest "org.example.app" Message pInfo Queued])
  /\ registered (mClients (fst (sendPush (CI := clients) print_Request pn s_fallback)))
       "fallback" (enqueue pn fallbackClient)
  /\ sendPush (CI := clients) print_Request pn s_empty
     = (s_empty,
        inl (runtime_error
               "No push notification client available for push notification request : 0x55d0c0de")).
Proof.
split; [| split].
- eexists. split.
  + apply (proj1 (PushFacts.sendPush_routing (CI := clients) print_Request pn s_ios_fallback)).
    reflexivity.
  + reflexivity.
- apply (proj1 (proj2 (PushFacts.sendPush_routing (CI := clients) print_Request pn s_fallback))
           eq_refl fallbackClient eq_refl).
- apply (proj2 (proj2 (PushFacts.sendPush_routing (CI := clients) print_Request pn s_empty)));
    reflexivity.
Defined.

(** Scenario 6 of the specification: the call throws, and "app1" is left
    registered with its legacy client. *)
Lemma setupFirebaseClients_duplicate_witness :
  exists id s',
    setupFirebaseClients "get-token.py" duplicate_config s_empty
    = (s', inl (runtime_error (duplicate_message id)))
    /\ In id (appIds (firebase_service_accounts duplicate_config))
    /\ (forall k, In k (appIds (firebase_projects_api_keys duplicate_config)) ->
          exists apiKey, registered (mClients s') k (newClient (FirebaseClient apiKey))).
Proof.
apply (PushFacts.setupFirebaseClients_duplicate_keeps_legacy "get-token.py"
         duplicate_config s_empty "app1"); simpl; auto.
Defined.

(** Scenario 6 of the specification does not leave the registry empty. *)
Lemma duplicate_registry_not_empty :
  ~ duplicate_leaves_registry_empty "get-token.py" duplicate_config s_empty.
Proof.
intros H. destruct H as [_ Hempty].
- exists "app1". simpl. auto.
- specialize (Hempty "app1"). vm_compute in Hempty. discriminate.
Qed.

(** A service account named like the generic client. *)
Lemma setupFirebaseClients_whole_registry_witness :
  exists id,
    In id (appIds (firebase_service_accounts generic_account_config))
    /\ snd (setupFirebaseClients "get-token.py" generic_account_config s_generic)
       = inl (runtime_error (duplicate_message id)).
Proof.
apply (PushFacts.setupFirebaseClients_checks_whole_registry "get-token.py"
         generic_account_config s_generic "generic").
- simpl. auto.
- left. reflexivity.
Defined.

(** The directory of the scenario: one certificate registered, one reported,
    the entry ".pem" and the others passed over. *)
Lemma setupiOSClient_registry_witness :
  registered (mClients s_ios) "org.example.app"
    (newClient (AppleClient "ca.pem" "certs/org.example.app.pem" "org.example.app"))
  /\ (StdMap.find "broken" (mClients s_ios) = None
      /\ In (SLOGW "Couldn't make iOS PN client from [broken]: bad certificate")
            (snd (setupiOSClient opendir "ENOENT" tlsCreationError "certs" "ca.pem" s_empty)))
  /\ StdMap.find "" (mClients s_ios) = None
  /\ StdMap.find "README" (mClients s_ios) = None.
Proof.
pose proof (PushFacts.setupiOSClient_registry opendir "ENOENT" tlsCreationError
              "certs" "ca.pem" s_empty _ eq_refl) as (Hok & Hbad & Hother).
split; [| split; [| split]].
- apply (Hok "org.example.app"); [discriminate | simpl; auto | reflexivity].
- apply (Hbad "broken" "bad certificate"); [discriminate | simpl; auto | reflexivity].
- apply (Hother ""). now left.
- apply (Hother "README"). right. simpl. intuition discriminate.
Defined.

(** An entry called ".pem" ends in ".pem" and gets no client. *)
Lemma dot_pem_entry_not_registered :
  ~ every_pem_entry_registered opendir_dot_pem "ENOENT" tlsCreationError "certs" "ca.pem" s_empty.
Proof.
intros H.
specialize (H (mkDirStream [".pem"] None) ".pem" "" eq_refl (or_introl eq_refl) eq_refl eq_refl).
vm_compute in H. discriminate.
Qed.

Import Conference.

(** Sixteen characters in the array give a token of sixteen characters. *)
Lemma changeAddress_user_part_witness :
  exists tok g',
    c_str token_a = Some tok
    /\ changeAddress CHATROOM_PREFIX token_a g0 = Some g'
    /\ getUsername (mConferenceAddr g') = CHATROOM_PREFIX ++ tok
    /\ String.length tok <= 16
    /\ getDomain (mConferenceAddr g') = getDomain (mConferenceAddr g0)
    /\ mState g' = mState g0 /\ mUuid g' = mUuid g0 /\ mPath g' = mPath g0.
Proof.
apply (ConferenceFacts.changeAddress_user_part CHATROOM_PREFIX token_a g0).
- reflexivity.
- unfold token_a. apply in_or_app. right. now left.
Defined.

(** No array of 17 characters holds the 32 digits of a 128-bit value, and an
    array may hold characters that are no hexadecimal digits. *)
Lemma token_not_128_bit_hex : ~ token_is_128_bit_hex CHATROOM_PREFIX g0.
Proof.
intros [_ Hall]. destruct (Hall (2 ^ 128 - 1)%N eq_refl) as (token & g' & Hlen & Hch & Hu).
unfold changeAddress in Hch. destruct (c_str token) as [tok|] eqn:Htok; [| discriminate].
injection Hch as <-.
change (CHATROOM_PREFIX ++ tok = CHATROOM_PREFIX ++ hex128 (2 ^ 128 - 1)) in Hu.
apply StrFacts.append_inj_l in Hu.
apply ConferenceFacts.c_str_length in Htok. rewrite Hlen in Htok.
apply (f_equal String.length) in Hu. unfold hex128 in Hu.
rewrite ConferenceFacts.hex_of_length in Hu. unfold sizeof_token in Htok. lia.
Qed.

(** An array may hold characters that are no hexadecimal digits: the user
    part is then the rendering of no 128-bit value. *)
Lemma token_not_hexadecimal :
  exists g',
    changeAddress CHATROOM_PREFIX token_z g0 = Some g'
    /\ getUsername (mConferenceAddr g') = "chatroom-zzzzzzzzzzzzzzzz"
    /\ forall x, getUsername (mConferenceAddr g') <> CHATROOM_PREFIX ++ hex128 x.
Proof.
eexists. split; [reflexivity |]. split; [reflexivity |].
intros x Hu. change ("chatroom-" ++ "zzzzzzzzzzzzzzzz" = "chatroom-" ++ hex128 x) in Hu.
apply StrFacts.append_inj_l, (f_equal String.length) in Hu.
unfold hex128 in Hu. rewrite ConferenceFacts.hex_of_length in Hu. discriminate.
Qed.

(** Scenario 5 of the specification: the first fetch collides and the
    generator fetches again under a new name; the GRUU published by the third
    callback comes after the second fetch, which found nothing. *)
Lemma never_publishes_after_collision_witness :
  (mState (after (step_at 0 collision_then_bind)) = Fetching
   /\ actions (step_at 0 collision_then_bind)
      = [LOGW "Conference address conflict detected, trying another random name.";
         RegistrarDb_fetch "sip:chatroom-aaaaaaaaaaaaaaaa@conf.example.org"]
   /\ exists r tok,
        callback (step_at 0 collision_then_bind) = onRecordFound r token_a
        /\ c_str token_a = Some tok
        /\ getUsername (mConferenceAddr (after (step_at 0 collision_then_bind)))
           = CHATROOM_PREFIX ++ tok)
  /\ (mState (before (step_at 2 collision_then_bind)) = Binding
      /\ last_fetch_found_nothing
           [step_at 0 collision_then_bind; step_at 1 collision_then_bind]).
Proof.
split.
- pose proof (ConferenceFacts.never_publishes_after_collision
                CHATROOM_PREFIX asStringUriOnly transport latest createAddress
                collision_then_bind g0 []
                (step_at 0 collision_then_bind)
                [step_at 1 collision_then_bind; step_at 2 collision_then_bind]
                eq_refl eq_refl) as (Hcollision & _ & _).
  destruct (Hcollision eq_refl eq_refl)
    as (Hst & Hacts & r & token & tok & Hcb & Htok & _ & _ & Huser & _).
  split; [assumption |]. split; [assumption |].
  injection Hcb as <- <-. exists (Some taken), tok. auto.
- apply (ConferenceFacts.never_publishes_after_collision
           CHATROOM_PREFIX asStringUriOnly transport latest createAddress
           collision_then_bind g0
           [step_at 0 collision_then_bind; step_at 1 collision_then_bind]
           (step_at 2 collision_then_bind) [] eq_refl eq_refl).
  exists (mkAddress "" "sip:conf@example.org;gr=abc"). now left.
Defined.

(** An error that answers the second fetch: the address of the chat room is
    set to null, and this is the last step. *)
Lemma onError_nullifies_witness :
  actions (step_at 1 collision_then_error) = [setConferenceAddress None]
  /\ after (step_at 1 collision_then_error) = before (step_at 1 collision_then_error)
  /\ List.skipn 2 (steps collision_then_error) = [].
Proof.
destruct (ConferenceFacts.onError_nullifies
            CHATROOM_PREFIX asStringUriOnly transport latest createAddress
            collision_then_error g0 [step_at 0 collision_then_error]
            (step_at 1 collision_then_error) (List.skipn 2 (steps collision_then_error))
            eq_refl eq_refl) as (Hacts & Hafter & Hlast).
split; [assumption | split; [assumption |]]. apply Hlast. reflexivity.
Defined.

(** An error followed by callbacks that answer no request: the last one
    publishes a GRUU, the generator having kept no trace of the error. *)
Lemma error_then_bind_publishes :
  ~ nothing_published_after_error CHATROOM_PREFIX asStringUriOnly transport latest
      createAddress error_then_bind g0.
Proof.
intros H.
destruct (H [] (step_at 0 error_then_bind)
            [step_at 1 error_then_bind; step_at 2 error_then_bind] eq_refl eq_refl)
  as [_ Hpost].
inversion Hpost as [|? ? _ Hrest]; subst. inversion Hrest as [|? ? Hlast _]; subst.
apply Hlast. exists (mkAddress "" "sip:conf@example.org;gr=abc"). now left.
Qed.

(** The discipline of the callbacks holds on the two scenarios. *)
Lemma scenarios_answer_requests :
  answers CHATROOM_PREFIX asStringUriOnly transport latest createAddress
    1 collision_then_error g0 = true
  /\ answers CHATROOM_PREFIX asStringUriOnly transport latest createAddress
       1 collision_then_bind g0 = true.
Proof. split; reflexivity. Qed.

Import EventLog.

(** A Via over UDP and a Via over TLS: both origins have the scheme "sip". *)
Lemma setOrigin_scheme_is_sip_witness :
  (exists mOrigin, setOrigin via_udp = Some mOrigin
                   /\ url_scheme mOrigin = "sip" /\ url_scheme mOrigin <> "sips")
  /\ (exists mOrigin, setOrigin via_tls = Some mOrigin
                      /\ url_scheme mOrigin = "sip" /\ url_scheme mOrigin <> "sips"
                      /\ url_params mOrigin = Some "transport=TLS").
Proof.
split.
- destruct (proj2 (EventLogFacts.setOrigin_scheme_is_sip via_udp) _ _ eq_refl eq_refl)
    as (mOrigin & H).
  exists mOrigin. split; [assumption |].
  now apply (proj1 (EventLogFacts.setOrigin_scheme_is_sip via_udp)).
- eexists. split; [reflexivity |].
  split; [| split; [| reflexivity]];
    now apply (proj1 (EventLogFacts.setOrigin_scheme_is_sip via_tls) _ eq_refl).
Defined.

End Witnesses.

(** * Further properties of the code *)

(** ** The push-notification service *)

Module PushExtra.

Import StateExc Push ServiceCalls.

(** *** Splitting a pair *)

Lemma find_in_Some (c : ascii) (l : list ascii) (n : nat) :
  Str.find_in c l = Some n ->
  l = (firstn n l ++ c :: skipn (S n) l)%list /\ ~ In c (firstn n l).
Proof.
revert n. induction l as [|x l IH]; intros n; simpl; [discriminate |].
destruct (Ascii.eqb_spec x c) as [-> | Hne].
- intros [= <-]. simpl. auto.
- destruct (Str.find_in c l) as [m|]; simpl; [| discriminate].
  intros [= <-]. destruct (IH m eq_refl) as [Hl Hnin]. split.
  + change (x :: l = x :: (firstn m l ++ c :: skipn (S m) l))%list. now f_equal.
  + change (~ In c (x :: firstn m l)). intros [Heq | Hin]; [contradiction | now apply Hnin].
Qed.

Lemma find_in_None (c : ascii) (l : list ascii) : Str.find_in c l = None <-> ~ In c l.
Proof.
induction l as [|x l IH]; simpl; [tauto |].
destruct (Ascii.eqb_spec x c) as [-> | Hne].
- split; [discriminate | intros H; destruct H; now left].
- destruct (Str.find_in c l) as [m|]; simpl.
  + split; [discriminate |]. intros H. exfalso. apply H. right.
    destruct (in_dec ascii_dec c l) as [Hin | Hnin]; [assumption |].
    apply IH in Hnin. discriminate.
  + split; [| reflexivity]. intros _ [Heq | Hin]; [contradiction |].
    now apply (proj1 IH).
Qed.

(** X1. The application identifier of a pair is the text before its first
    colon and the value is all the text after it, colons included; a pair
    without a colon is taken whole, as the identifier and as the value. *)
Theorem split_keyval_parts (keyval : string) :
  (In ":"%char (list_ascii_of_string keyval) ->
     fst (split_keyval keyval) ++ ":" ++ snd (split_keyval keyval) = keyval
     /\ ~ In ":"%char (list_ascii_of_string (fst (split_keyval keyval))))
  /\ (~ In ":"%char (list_ascii_of_string keyval) -> split_keyval keyval = (keyval, keyval)).
Proof.
unfold split_keyval, Str.find. split.
- intros Hin. destruct (Str.find_in ":"%char (list_ascii_of_string keyval)) as [n|] eqn:Hf.
  + destruct (find_in_Some _ _ _ Hf) as [Hl Hnin]. cbn [fst snd].
    unfold Str.substr, Str.substr_from. cbn [skipn]. rewrite Nat.add_1_r. split.
    * change (":" ++ ?x) with (String ":"%char x).
      change (String ":"%char (string_of_list_ascii ?l))
        with (string_of_list_ascii (":"%char :: l)).
      rewrite <- StrFacts.string_of_list_app, <- Hl.
      apply string_of_list_ascii_of_string.
    * now rewrite list_ascii_of_string_of_list_ascii.
  + apply find_in_None in Hf. contradiction.
- intros Hnin. apply find_in_None in Hnin. now rewrite Hnin.
Qed.

(** *** Firebase clients *)

Lemma last_value_None (k : string) (keyvals : list string) :
  last_value k keyvals = None <-> ~ In k (appIds keyvals).
Proof.
induction keyvals as [|keyval rest IH]; simpl; [tauto |].
destruct (last_value k rest) as [v|].
- split; [discriminate |]. intros H. exfalso. apply H. right.
  destruct (in_dec string_dec k (appIds rest)) as [Hin | Hnin]; [assumption |].
  apply IH in Hnin. discriminate.
- destruct (String.eqb_spec k (fst (split_keyval keyval))) as [-> | Hne].
  + split; [discriminate | intros H; destruct H; now left].
  + split; [| reflexivity]. intros _ [Heq | Hin]; [now destruct Hne |].
    now apply (proj1 IH).
Qed.

Section Firebase.

Variable FIREBASE_GET_ACCESS_TOKEN_SCRIPT_PATH : string.

Local Abbreviation addServiceAccount :=
  (addServiceAccount FIREBASE_GET_ACCESS_TOKEN_SCRIPT_PATH).
Local Abbreviation setupFirebaseClients :=
  (setupFirebaseClients FIREBASE_GET_ACCESS_TOKEN_SCRIPT_PATH).

(** The first loop returns; the registry it leaves, key by key. *)
Lemma api_keys_loop (keys : list string) (s : Service) :
  exists s1,
    for_each keys addApiKey s = (s1, inr tt)
    /\ mMaxQueueSize s1 = mMaxQueueSize s
    /\ forall k, StdMap.find k (mClients s1)
                 = match last_value k keys with
                   | Some v => Some (Some (newClient (FirebaseClient v)))
                   | None => StdMap.find k (mClients s)
                   end.
Proof.
revert s. induction keys as [|keyval keys IH]; intros s; simpl.
- exists s. auto.
- unfold bind. unfold addApiKey at 1, addFirebaseClient, modify.
  set (s0 := set_mClients _ s).
  destruct (IH s0) as (s1 & Hrun & Hmax & Hfind). exists s1. rewrite Hrun.
  split; [reflexivity |]. split; [assumption |].
  intros k. rewrite Hfind. destruct (last_value k keys); [reflexivity |].
  unfold s0. cbn [mClients set_mClients]. rewrite StdMapFacts.find_assign.
  now destruct (String.eqb k (fst (split_keyval keyval))).
Qed.

(** The second loop, one pair at a time. *)
Lemma service_accounts_loop_cons (d t : Z) (keyval : string) (accounts : list string)
  (s : Service) :
  for_each (keyval :: accounts) (addServiceAccount d t) s
  = if StdMap.contains (fst (split_keyval keyval)) (mClients s)
    then (s, inl (runtime_error (duplicate_message (fst (split_keyval keyval)))))
    else for_each accounts (addServiceAccount d t)
           (set_mClients
              (StdMap.assign (fst (split_keyval keyval))
                 (Some (newClient (FirebaseV1Client FIREBASE_GET_ACCESS_TOKEN_SCRIPT_PATH
                                     (snd (split_keyval keyval)) d t)))) s).
Proof.
cbn [for_each]. unfold bind. unfold Push.addServiceAccount at 1. unfold bind, get.
now destruct (StdMap.contains (fst (split_keyval keyval)) (mClients s)).
Qed.

(** The second loop returns iff the application identifiers of its list are
    distinct and none is a key of the registry. *)
Lemma service_accounts_loop_returns (d t : Z) (accounts : list string) (s : Service) :
  snd (for_each accounts (addServiceAccount d t) s) = inr tt
  <-> NoDup (appIds accounts)
      /\ forall a, In a (appIds accounts) -> StdMap.contains a (mClients s) = false.
Proof.
revert s. induction accounts as [|keyval accounts IH]; intros s.
- simpl. split; [intros _; split; [constructor | intros a []] | reflexivity].
- rewrite service_accounts_loop_cons. cbn [appIds map].
  destruct (StdMap.contains (fst (split_keyval keyval)) (mClients s)) eqn:Hc.
  + cbn [snd]. split; [discriminate |].
    intros [_ Hall]. rewrite (Hall _ (or_introl eq_refl)) in Hc. discriminate.
  + set (s1 := set_mClients _ s). rewrite (IH s1).
    assert (Hs1 : forall a, StdMap.contains a (mClients s1)
                            = String.eqb a (fst (split_keyval keyval))
                              || StdMap.contains a (mClients s))
      by (intros a; apply StdMapFacts.contains_assign).
    split.
    * intros [Hnd Hall]. split.
      -- constructor; [| assumption]. intros Hin. specialize (Hall _ Hin).
         rewrite Hs1, String.eqb_refl in Hall. discriminate.
      -- intros a [<- | Hin]; [assumption |]. specialize (Hall _ Hin).
         rewrite Hs1 in Hall. now apply orb_false_elim in Hall.
    * intros [Hnd Hall]. inversion Hnd as [|? ? Hnin Hnd']; subst. split; [assumption |].
      intros a Hin. rewrite Hs1, (Hall a (or_intror Hin)).
      destruct (String.eqb_spec a (fst (split_keyval keyval))) as [-> | _];
        [contradiction | reflexivity].
Qed.

(** Whether it returns or throws, the second loop leaves the entries the
    registry had as they were. *)
Lemma service_accounts_loop_keeps (d t : Z) (accounts : list string) (s : Service)
  (k : string) (p : option Client) :
  StdMap.find k (mClients s) = Some p ->
  StdMap.find k (mClients (fst (for_each accounts (addServiceAccount d t) s))) = Some p.
Proof.
revert s. induction accounts as [|keyval accounts IH]; intros s Hk; [assumption |].
rewrite service_accounts_loop_cons.
destruct (StdMap.contains (fst (split_keyval keyval)) (mClients s)) eqn:Hc; [assumption |].
apply IH. cbn [mClients set_mClients].
rewrite StdMapFacts.find_assign_ne; [assumption |].
intros ->. unfold StdMap.contains in Hc. now rewrite Hk in Hc.
Qed.

(** When it returns, the second loop has registered the client of every pair,
    with the path of the pair, and changed no other key. *)
Lemma service_accounts_loop_registry (d t : Z) (accounts : list string) (s : Service) :
  snd (for_each accounts (addServiceAccount d t) s) = inr tt ->
  forall k,
    StdMap.find k (mClients (fst (for_each accounts (addServiceAccount d t) s)))
    = match last_value k accounts with
      | Some path =>
          Some (Some (newClient (FirebaseV1Client FIREBASE_GET_ACCESS_TOKEN_SCRIPT_PATH
                                   path d t)))
      | None => StdMap.find k (mClients s)
      end.
Proof.
revert s. induction accounts as [|keyval accounts IH]; intros s; [reflexivity |].
rewrite service_accounts_loop_cons. cbn [last_value].
destruct (StdMap.contains (fst (split_keyval keyval)) (mClients s)) eqn:Hc;
  [discriminate |].
set (s1 := set_mClients _ s).
intros Hret k. rewrite (IH s1 Hret). destruct (last_value k accounts); [reflexivity |].
unfold s1. cbn [mClients set_mClients]. rewrite StdMapFacts.find_assign.
now destruct (String.eqb k (fst (split_keyval keyval))).
Qed.

Lemma setupFirebaseClients_loops (pushConfig : GenericStruct) (s : Service) :
  exists s1,
    for_each (firebase_projects_api_keys pushConfig) addApiKey s = (s1, inr tt)
    /\ setupFirebaseClients pushConfig s
       = for_each (firebase_service_accounts pushConfig)
           (addServiceAccount (firebase_default_refresh_interval pushConfig * 1000)
              (firebase_token_expiration_anticipation_time pushConfig * 1000)) s1.
Proof.
destruct (api_keys_loop (firebase_projects_api_keys pushConfig) s) as (s1 & Hrun & _).
exists s1. split; [assumption |]. unfold Push.setupFirebaseClients, bind. now rewrite Hrun.
Qed.

Lemma setupFirebaseClients_returns (pushConfig : GenericStruct) (s : Service) :
  snd (setupFirebaseClients pushConfig s) = inr tt
  <-> NoDup (appIds (firebase_service_accounts pushConfig))
      /\ forall a, In a (appIds (firebase_service_accounts pushConfig)) ->
           StdMap.contains a (mClients s) = false
           /\ ~ In a (appIds (firebase_projects_api_keys pushConfig)).
Proof.
destruct (setupFirebaseClients_loops pushConfig s) as (s1 & Hrun & ->).
rewrite service_accounts_loop_returns.
destruct (api_keys_loop (firebase_projects_api_keys pushConfig) s) as (s1' & Hrun' & _ & Hfind).
assert (s1' = s1) as -> by congruence.
assert (Hc : forall a, StdMap.contains a (mClients s1) = false
                       <-> StdMap.contains a (mClients s) = false
                           /\ ~ In a (appIds (firebase_projects_api_keys pushConfig))).
{ intros a. unfold StdMap.contains. rewrite Hfind.
  destruct (last_value a (firebase_projects_api_keys pushConfig)) eqn:Hl.
  - split; [discriminate |]. intros [_ Hnin]. apply last_value_None in Hnin. congruence.
  - apply last_value_None in Hl. tauto. }
split; intros [Hnd Hall]; (split; [assumption |]); intros a Hin; apply Hc; auto.
Qed.

(** X2. [setupFirebaseClients] returns without throwing iff the application
    identifiers of [firebase-service-accounts] are pairwise distinct, none is
    a key of the registry before the call and none is an application
    identifier of [firebase-projects-api-keys]. Repeated identifiers within
    [firebase-projects-api-keys] never make it throw. *)
Theorem setupFirebaseClients_returns_iff (pushConfig : GenericStruct) (s : Service) :
  snd (setupFirebaseClients pushConfig s) = inr tt
  <-> NoDup (appIds (firebase_service_accounts pushConfig))
      /\ forall a, In a (appIds (firebase_service_accounts pushConfig)) ->
           StdMap.contains a (mClients s) = false
           /\ ~ In a (appIds (firebase_projects_api_keys pushConfig)).
Proof. apply setupFirebaseClients_returns. Qed.

(** X3. When [setupFirebaseClients] returns, every pair of
    [firebase-service-accounts] has its v1 client under its application
    identifier, made with the path of the pair and the two durations of the
    configuration turned from seconds into milliseconds; every application
    identifier of [firebase-projects-api-keys] has a legacy client; and the
    other keys of the registry are as before. *)
Theorem setupFirebaseClients_registry (pushConfig : GenericStruct) (s : Service) :
  snd (setupFirebaseClients pushConfig s) = inr tt ->
  let s' := fst (setupFirebaseClients pushConfig s) in
  (forall keyval, In keyval (firebase_service_accounts pushConfig) ->
     registered (mClients s') (fst (split_keyval keyval))
       (newClient (FirebaseV1Client FIREBASE_GET_ACCESS_TOKEN_SCRIPT_PATH
                     (snd (split_keyval keyval))
                     (firebase_default_refresh_interval pushConfig * 1000)
                     (firebase_token_expiration_anticipation_time pushConfig * 1000))))
  /\ (forall k, In k (appIds (firebase_projects_api_keys pushConfig)) ->
        exists apiKey, registered (mClients s') k (newClient (FirebaseClient apiKey)))
  /\ (forall k, ~ In k (appIds (firebase_service_accounts pushConfig)) ->
        ~ In k (appIds (firebase_projects_api_keys pushConfig)) ->
        StdMap.find k (mClients s') = StdMap.find k (mClients s)).
Proof.
intros Hret s'. subst s'.
pose proof (proj1 (setupFirebaseClients_returns pushConfig s) Hret) as [Hnd Hfresh].
destruct (setupFirebaseClients_loops pushConfig s) as (s1 & Hrun & Heq).
rewrite Heq in *.
destruct (api_keys_loop (firebase_projects_api_keys pushConfig) s) as (s1' & Hrun' & _ & Hfind).
assert (s1' = s1) as -> by congruence.
pose proof (service_accounts_loop_registry _ _ _ _ Hret) as Hreg.
split; [| split].
- intros keyval Hin. unfold registered. rewrite Hreg.
  assert (Hlast : forall l, NoDup (appIds l) -> In keyval l ->
            last_value (fst (split_keyval keyval)) l = Some (snd (split_keyval keyval))).
  { clear. induction l as [|kv l IHl]; simpl; intros Hnd Hin; [contradiction |].
    destruct Hin as [-> | Hin].
    - inversion Hnd as [|? ? Hnin _]; subst. apply last_value_None in Hnin.
      now rewrite Hnin, String.eqb_refl.
    - inversion Hnd as [|? ? _ Hnd']; subst. now rewrite (IHl Hnd' Hin). }
  now rewrite (Hlast _ Hnd Hin).
- intros k Hk. unfold registered.
  destruct (last_value k (firebase_projects_api_keys pushConfig)) as [v|] eqn:Hl;
    [| apply last_value_None in Hl; contradiction].
  exists v. apply service_accounts_loop_keeps. now rewrite Hfind, Hl.
- intros k Hacc Hkeys. rewrite Hreg.
  apply last_value_None in Hacc. apply last_value_None in Hkeys.
  now rewrite Hacc, Hfind, Hkeys.
Qed.

(** X4. Of the pairs of [firebase-projects-api-keys] that name the same
    application identifier the last one wins: after the call, whether it
    returned or threw, the identifier has the legacy client of the key of its
    last pair. *)
Theorem last_api_key_wins (pushConfig : GenericStruct) (s : Service) (appId apiKey : string) :
  last_value appId (firebase_projects_api_keys pushConfig) = Some apiKey ->
  registered (mClients (fst (setupFirebaseClients pushConfig s))) appId
    (newClient (FirebaseClient apiKey)).
Proof.
intros Hl. destruct (setupFirebaseClients_loops pushConfig s) as (s1 & Hrun & ->).
destruct (api_keys_loop (firebase_projects_api_keys pushConfig) s) as (s1' & Hrun' & _ & Hfind).
assert (s1' = s1) as -> by congruence.
unfold registered. apply service_accounts_loop_keeps. now rewrite Hfind, Hl.
Qed.

End Firebase.

(** *** The registry as a sorted map *)

Lemma compare_lt_trans (a b c : string) :
  String.compare a b = Lt -> String.compare b c = Lt -> String.compare a c = Lt.
Proof.
intros Hab Hbc. apply String_as_OT.cmp_lt.
apply String_as_OT.lt_trans with b; now apply String_as_OT.cmp_lt.
Qed.

Lemma sorted_head_lt {V} (k0 : string) (v0 : V) (m : StdMap.t V) :
  StdMap.sorted ((k0, v0) :: m) -> forall k v, In (k, v) m -> String.compare k0 k = Lt.
Proof.
revert k0 v0. induction m as [|[k1 v1] m IH]; intros k0 v0 Hs k v; [intros [] |].
destruct Hs as [Hlt Hs]. intros [[= <- <-] | Hin]; [assumption |].
apply compare_lt_trans with k1; [assumption |]. now apply (IH k1 v1 Hs k v).
Qed.

(** In a sorted map an entry is what [find] returns for its key. *)
Lemma sorted_In_find {V} (m : StdMap.t V) (k : string) (v : V) :
  StdMap.sorted m -> (In (k, v) m <-> StdMap.find k m = Some v).
Proof.
induction m as [|[k0 v0] m IH]; intros Hs; simpl; [split; [intros [] | discriminate] |].
assert (Hs' : StdMap.sorted m) by (destruct m; [exact I | apply Hs]).
destruct (String.eqb_spec k k0) as [-> | Hne].
- split.
  + intros [[= ->] | Hin]; [reflexivity |].
    pose proof (sorted_head_lt _ _ _ Hs _ _ Hin) as Hlt.
    rewrite StrFacts.compare_refl in Hlt. discriminate.
  + intros [= ->]. now left.
- rewrite <- (IH Hs'). split; [| now right].
  intros [[= -> _] | Hin]; [now destruct Hne | assumption].
Qed.

Lemma null_free_assign (k : string) (c : Client) (m : Registry) :
  null_free m -> null_free (StdMap.assign k (Some c) m).
Proof.
unfold null_free. induction m as [|[k0 v0] m IH]; simpl; intros Hnf.
- constructor; [discriminate | constructor].
- inversion Hnf as [|? ? Hhd Htl]; subst. destruct (String.compare k k0).
  + constructor; [discriminate | assumption].
  + constructor; [discriminate | assumption].
  + constructor; [assumption | now apply IH].
Qed.

Lemma well_formed_assign (k : string) (c : Client) (s : Service) :
  well_formed s -> well_formed (set_mClients (StdMap.assign k (Some c)) s).
Proof.
intros [Hs Hn]. split; cbn [mClients set_mClients];
  [now apply StdMapFacts.assign_sorted | now apply null_free_assign].
Qed.

Lemma for_each_well_formed {A} (body : A -> M Service unit) (l : list A) (s : Service) :
  (forall x s0, well_formed s0 -> well_formed (fst (body x s0))) ->
  well_formed s -> well_formed (fst (for_each l body s)).
Proof.
intros Hbody. revert s. induction l as [|x l IH]; intros s Hs; simpl; [assumption |].
unfold bind. specialize (Hbody x s Hs).
destruct (body x s) as [s1 [e|[]]]; cbn [fst] in *; [assumption | now apply IH].
Qed.

Section Calls.

Context {CI : ClientInterface}.
Variable print_Request : Request -> string.
Variable FIREBASE_GET_ACCESS_TOKEN_SCRIPT_PATH : string.
Variable opendir : string -> option DirStream.
Variable strerror_errno : string.
Variable tlsCreationError : string -> string -> option string.

Local Abbreviation perform :=
  (perform print_Request FIREBASE_GET_ACCESS_TOKEN_SCRIPT_PATH opendir strerror_errno
     tlsCreationError).
Local Abbreviation perform_all :=
  (perform_all print_Request FIREBASE_GET_ACCESS_TOKEN_SCRIPT_PATH opendir strerror_errno
     tlsCreationError).

Lemma scan_certificates_well_formed (certdir cafile : string) (ents : list string)
  (s : Service) :
  well_formed s ->
  well_formed (fst (scan_certificates tlsCreationError certdir cafile ents s)).
Proof.
revert s. induction ents as [|cert ents IH]; intros s Hs; [assumption |].
rewrite PushFacts.scan_certificates_cons. destruct (skipped cert); [now apply IH |]. cbv zeta.
destruct (tlsCreationError cafile (certdir ++ "/" ++ cert)); cbn [fst]; apply IH;
  [assumption | now apply well_formed_assign].
Qed.

Lemma sendPush_state (pn : Request) (s : Service) :
  fst (sendPush print_Request pn s) = s
  \/ exists key c c',
       registered (mClients s) key c
       /\ fst (sendPush print_Request pn s) = set_mClients (StdMap.assign key (Some c')) s.
Proof.
unfold sendPush.
destruct (StdMap.find (getAppIdentifier pn) (mClients s)) as [[c|]|] eqn:Hf; cbn [get_or_null].
- right. unfold call_sendPush. destruct (Client_sendPush c pn) as [c' r].
  exists (getAppIdentifier pn), c, c'. now split.
- destruct (StdMap.find sFallbackClientKey (mClients s)) as [[c|]|] eqn:Hfb; cbn [get_or_null];
    [| now left | now left].
  right. unfold call_sendPush. destruct (Client_sendPush c pn) as [c' r].
  exists sFallbackClientKey, c, c'. now split.
- destruct (StdMap.find sFallbackClientKey (mClients s)) as [[c|]|] eqn:Hfb; cbn [get_or_null];
    [| now left | now left].
  right. unfold call_sendPush. destruct (Client_sendPush c pn) as [c' r].
  exists sFallbackClientKey, c, c'. now split.
Qed.

Lemma perform_well_formed (c : Call) (s : Service) :
  passes_no_null c -> well_formed s -> well_formed (perform s c).
Proof.
intros Hc Hs. destruct c as [url method protocol | certdir cafile | pushConfig | fb | pn];
  cbn [ServiceCalls.perform].
- unfold setupGenericClient. destruct method; [| | assumption];
    destruct protocol; now apply well_formed_assign.
- unfold setupiOSClient. destruct (opendir certdir) as [dirp|]; [| assumption].
  pose proof (scan_certificates_well_formed certdir cafile (entries dirp) s Hs) as H.
  now destruct (scan_certificates tlsCreationError certdir cafile (entries dirp) s).
- unfold setupFirebaseClients, bind.
  assert (H1 : well_formed
                 (fst (for_each (firebase_projects_api_keys pushConfig) addApiKey s))).
  { apply for_each_well_formed; [| assumption]. intros keyval s0 Hs0.
    now apply well_formed_assign. }
  destruct (for_each (firebase_projects_api_keys pushConfig) addApiKey s) as [s1 [e|[]]];
    cbn [fst] in *; [assumption |].
  apply for_each_well_formed; [| assumption]. intros keyval s0 Hs0.
  unfold addServiceAccount, bind, get.
  destruct (StdMap.contains (fst (split_keyval keyval)) (mClients s0)); [assumption |].
  now apply well_formed_assign.
- destruct fb as [c|]; [| destruct Hc]. now apply well_formed_assign.
- destruct (sendPush_state pn s) as [-> | (key & c & c' & _ & ->)]; [assumption |].
  now apply well_formed_assign.
Qed.

Lemma perform_all_well_formed (calls : list Call) (s : Service) :
  Forall passes_no_null calls -> well_formed s -> well_formed (perform_all calls s).
Proof.
unfold ServiceCalls.perform_all. revert s.
induction calls as [|c calls IH]; intros s Hall Hs; simpl; [assumption |].
inversion Hall as [|? ? Hc Hrest]; subst. apply IH; [assumption |].
now apply perform_well_formed.
Qed.

(** X5. In every state that a new service reaches by calls of its member
    functions, none of which hands a null pointer to [setFallbackClient], no
    entry of the registry is null, [isIdle] returns, and it returns [true] iff
    every registered client is idle. *)
Theorem isIdle_after_calls (maxQueueSize : nat) (calls : list Call) :
  Forall passes_no_null calls ->
  let s := perform_all calls (newService maxQueueSize) in
  null_free (mClients s)
  /\ exists b, isIdle s = Some b
       /\ (b = true <-> forall name c, registered (mClients s) name c -> Client_isIdle c = true).
Proof.
intros Hall s.
assert (Hwf : well_formed s).
{ apply perform_all_well_formed; [assumption |]. split; [exact I | constructor]. }
destruct Hwf as [Hsorted Hnf]. split; [assumption |].
destruct (PushFacts.isIdle_null_free s Hnf) as (b & Hb & Hiff).
exists b. split; [assumption |]. rewrite Hiff. unfold registered.
split; intros H name c Hc; apply (H name); now apply (sorted_In_find _ _ _ Hsorted).
Qed.

(** A key other than "fallback" that has a client keeps having one, whatever
    the call: the setup functions and [sendPush] store clients, never null
    pointers, and [setFallbackClient] writes only under "fallback". *)
Lemma perform_keeps_client (c : Call) (s : Service) (k : string) :
  k <> "fallback" ->
  (exists client, registered (mClients s) k client) ->
  exists client, registered (mClients (perform s c)) k client.
Proof.
unfold registered. intros Hk (client & Hreg).
destruct c as [url method protocol | certdir cafile | pushConfig | fb | pn];
  cbn [ServiceCalls.perform].
- unfold setupGenericClient. destruct method; [| | eauto];
    destruct protocol; unfold modify; cbn [fst mClients set_mClients];
    rewrite StdMapFacts.find_assign, Hreg; destruct (String.eqb k sGenericClientName); eauto.
- unfold setupiOSClient. destruct (opendir certdir) as [dirp|]; [| eauto].
  pose proof (PushFacts.scan_certificates_find tlsCreationError certdir cafile
                (entries dirp) s k) as Hfind.
  destruct (scan_certificates tlsCreationError certdir cafile (entries dirp) s) as [s' log].
  cbn [fst] in *. rewrite Hfind.
  destruct (has_certificate (entries dirp) k); [| eauto].
  destruct (tlsCreationError cafile (certdir ++ "/" ++ k ++ ".pem")); eauto.
- destruct (setupFirebaseClients_loops FIREBASE_GET_ACCESS_TOKEN_SCRIPT_PATH pushConfig s)
    as (s1 & Hrun & ->).
  destruct (api_keys_loop (firebase_projects_api_keys pushConfig) s)
    as (s1' & Hrun' & _ & Hfind).
  assert (s1' = s1) as -> by congruence.
  assert (H1 : exists client1, StdMap.find k (mClients s1) = Some (Some client1)).
  { rewrite Hfind. destruct (last_value k (firebase_projects_api_keys pushConfig)); eauto. }
  destruct H1 as (client1 & H1). exists client1. now apply service_accounts_loop_keeps.
- unfold setFallbackClient, modify. cbn [fst mClients set_mClients].
  rewrite StdMapFacts.find_assign_ne; eauto.
- destruct (sendPush_state pn s) as [-> | (key & c & c' & _ & ->)]; [eauto |].
  cbn [mClients set_mClients]. rewrite StdMapFacts.find_assign, Hreg.
  destruct (String.eqb k key); eauto.
Qed.

Lemma perform_all_keeps_client (calls : list Call) (s : Service) (k : string) :
  k <> "fallback" ->
  (exists client, registered (mClients s) k client) ->
  exists client, registered (mClients (perform_all calls s)) k client.
Proof.
intros Hk. unfold ServiceCalls.perform_all. revert s.
induction calls as [|c calls IH]; intros s Hreg; simpl; [assumption |].
apply IH. now apply perform_keeps_client.
Qed.

(** X6. [setupGenericClient] with a method other than GET and POST throws
    [invalid_argument] and leaves the service as it was. With GET or POST it
    puts a new client under "generic" (an HTTP client that gets the queue size
    of the service, or an HTTP/2 client), changes no other key, and right
    after the call [makeRequest] has every request built by that client, with
    the registry as argument, whatever the push type and the provider. From
    then on, whatever calls of the member functions follow, the key "generic"
    has a client, and [makeRequest] has every request built by the client
    that is under "generic" at that time: the one of this call as long as no
    later setup stores another under that key. *)
Theorem setupGenericClient_preempts (url : string) (method : Method) (protocol : Protocol)
  (s : Service) :
  match method with
  | OtherMethod value =>
      exists msg, setupGenericClient url method protocol s = (s, inl (invalid_argument msg))
  | _ =>
      let s' := fst (setupGenericClient url method protocol s) in
      let client :=
        newClient match protocol with
                  | Http => GenericHttpClient url method "generic" (mMaxQueueSize s)
                  | Http2 => GenericHttp2Client url method
                  end in
      snd (setupGenericClient url method protocol s) = inr tt
      /\ registered (mClients s') "generic" client
      /\ (forall k, k <> "generic" -> StdMap.find k (mClients s') = StdMap.find k (mClients s))
      /\ (forall pType pInfo,
            makeRequest s' pType pInfo
            = Client_makeRequest client pType pInfo (Some (mClients s')))
      /\ forall calls,
           let s'' := perform_all calls s' in
           exists current,
             registered (mClients s'') "generic" current
             /\ forall pType pInfo,
                  makeRequest s'' pType pInfo
                  = Client_makeRequest current pType pInfo (Some (mClients s''))
  end.
Proof.
assert (Hlater : forall s', (exists client, registered (mClients s') "generic" client) ->
          forall calls,
            let s'' := perform_all calls s' in
            exists current,
              registered (mClients s'') "generic" current
              /\ forall pType pInfo,
                   makeRequest s'' pType pInfo
                   = Client_makeRequest current pType pInfo (Some (mClients s''))).
{ intros s' Hreg calls s''.
  destruct (perform_all_keeps_client calls s' "generic" ltac:(discriminate) Hreg)
    as (current & Hcur).
  subst s''. exists current. split; [assumption |]. intros pType pInfo.
  unfold registered in Hcur. unfold makeRequest, sGenericClientName. now rewrite Hcur. }
destruct method as [| | value]; [| | eexists; reflexivity];
  destruct protocol; cbv zeta;
  (split; [reflexivity |]);
  (split; [unfold setupGenericClient, modify, registered; cbn [fst mClients set_mClients];
           apply StdMapFacts.find_assign_eq |]);
  (split; [unfold setupGenericClient, modify; cbn [fst mClients set_mClients];
           intros k Hk; now apply StdMapFacts.find_assign_ne |]);
  (split; [unfold setupGenericClient, modify; cbn [fst mClients set_mClients];
           intros pType pInfo; unfold makeRequest; cbn [mClients set_mClients];
           now rewrite StdMapFacts.find_assign_eq |]);
  intros calls; apply Hlater; eexists;
  unfold setupGenericClient, modify, registered; cbn [fst mClients set_mClients];
  apply StdMapFacts.find_assign_eq.
Qed.

(** X7. [setFallbackClient] with a null pointer withdraws the fallback: a
    request whose application identifier has no client makes [sendPush]
    throw, and a destination whose provider has no client makes [makeRequest]
    throw (when there is no generic client), whatever the fallback slot held
    before. With a client, both go to that client, its back-pointer set. *)
Theorem setFallbackClient_effect (fallbackClient : option Client) (s : Service)
  (pn : Request) (pType : PushType) (pInfo : PushInfo) :
  getAppIdentifier pn <> "fallback" ->
  unregistered (mClients s) (getAppIdentifier pn) ->
  getParam (getDestination pInfo pType) <> "fallback" ->
  unregistered (mClients s) (getParam (getDestination pInfo pType)) ->
  unregistered (mClients s) "generic" ->
  let s' := fst (setFallbackClient fallbackClient s) in
  match fallbackClient with
  | None =>
      (exists msg, sendPush print_Request pn s' = (s', inl (runtime_error msg)))
      /\ exists msg, makeRequest s' pType pInfo = inl (runtime_error msg)
  | Some c =>
      let linked := {| impl := impl c; mService := true; queue := queue c;
                       inProgress := inProgress c |} in
      snd (sendPush print_Request pn s') = snd (Client_sendPush linked pn)
      /\ registered (mClients (fst (sendPush print_Request pn s'))) "fallback"
           (fst (Client_sendPush linked pn))
      /\ makeRequest s' pType pInfo = Client_makeRequest linked pType pInfo None
  end.
Proof.
intros Hpn Hnone Htag Hnotag Hnogen s'. subst s'.
unfold setFallbackClient, modify, unregistered in *. cbn [fst].
set (m' := set_mClients _ s).
assert (Hother : forall k, k <> "fallback" ->
                   StdMap.find k (mClients m') = StdMap.find k (mClients s))
  by (intros k Hk; now apply StdMapFacts.find_assign_ne).
assert (Hfb : StdMap.find "fallback" (mClients m')
              = Some match fallbackClient with
                     | Some c => Some {| impl := impl c; mService := true; queue := queue c;
                                         inProgress := inProgress c |}
                     | None => None
                     end)
  by apply StdMapFacts.find_assign_eq.
unfold sendPush, makeRequest, sGenericClientName, sFallbackClientKey.
rewrite (Hother _ Hpn), Hnone, (Hother _ Htag), Hnotag, (Hother "generic"), Hnogen, Hfb
  by discriminate.
destruct fallbackClient as [c|]; cbn [get_or_null].
- cbv zeta. pose proof (PushFacts.call_sendPush_spec "fallback"
                          {| impl := impl c; mService := true; queue := queue c;
                             inProgress := inProgress c |} pn m') as (Hres & Hreg & _).
  auto.
- split; eexists; reflexivity.
Qed.

Lemma sendPush_state_keys (pn : Request) (s : Service) (k : string) :
  StdMap.contains k (mClients (fst (sendPush print_Request pn s)))
  = StdMap.contains k (mClients s)
  /\ mMaxQueueSize (fst (sendPush print_Request pn s)) = mMaxQueueSize s.
Proof.
destruct (sendPush_state pn s) as [-> | (key & c & c' & Hreg & ->)]; [auto |].
split; [| reflexivity]. cbn [mClients set_mClients]. rewrite StdMapFacts.contains_assign.
destruct (String.eqb_spec k key) as [-> | _]; [| reflexivity].
unfold StdMap.contains. unfold registered in Hreg. now rewrite Hreg.
Qed.

(** X8. [sendPush] neither registers nor unregisters: the keys of the
    registry are the same after it as before, whether it returns or throws,
    and it leaves the queue size of the service as it was. *)
Theorem sendPush_keeps_keys (pn : Request) (s : Service) (k : string) :
  StdMap.contains k (mClients (fst (sendPush print_Request pn s)))
  = StdMap.contains k (mClients s)
  /\ mMaxQueueSize (fst (sendPush print_Request pn s)) = mMaxQueueSize s.
Proof. apply sendPush_state_keys. Qed.

Lemma perform_keeps_key (c : Call) (s : Service) (k : string) :
  StdMap.contains k (mClients s) = true -> StdMap.contains k (mClients (perform s c)) = true.
Proof.
intros Hk. destruct c as [url method protocol | certdir cafile | pushConfig | fb | pn];
  cbn [ServiceCalls.perform].
- unfold setupGenericClient. destruct method; [| | assumption];
    destruct protocol; unfold modify; cbn [fst mClients set_mClients];
    rewrite StdMapFacts.contains_assign, Hk; apply orb_true_r.
- unfold setupiOSClient. destruct (opendir certdir) as [dirp|]; [| assumption].
  pose proof (PushFacts.scan_certificates_find tlsCreationError certdir cafile
                (entries dirp) s k) as Hfind.
  destruct (scan_certificates tlsCreationError certdir cafile (entries dirp) s) as [s' log].
  cbn [fst] in *. unfold StdMap.contains in *. rewrite Hfind.
  destruct (has_certificate (entries dirp) k); [| assumption].
  now destruct (tlsCreationError cafile (certdir ++ "/" ++ k ++ ".pem")).
- destruct (setupFirebaseClients_loops FIREBASE_GET_ACCESS_TOKEN_SCRIPT_PATH pushConfig s)
    as (s1 & Hrun & ->).
  destruct (api_keys_loop (firebase_projects_api_keys pushConfig) s)
    as (s1' & Hrun' & _ & Hfind).
  assert (s1' = s1) as -> by congruence.
  apply StdMapFacts.contains_find.
  assert (H1 : exists p, StdMap.find k (mClients s1) = Some p).
  { rewrite Hfind. destruct (last_value k (firebase_projects_api_keys pushConfig)); [eauto |].
    now apply StdMapFacts.contains_find. }
  destruct H1 as (p & Hp). exists p. now apply service_accounts_loop_keeps.
- unfold setFallbackClient, modify. cbn [fst mClients set_mClients].
  rewrite StdMapFacts.contains_assign, Hk. apply orb_true_r.
- now rewrite (proj1 (sendPush_state_keys pn s k)).
Qed.

(** X9. The service never unregisters: a key that the registry holds is
    still a key after any sequence of calls of the member functions, whether
    they return or throw. *)
Theorem calls_never_unregister (calls : list Call) (s : Service) (k : string) :
  StdMap.contains k (mClients s) = true ->
  StdMap.contains k (mClients (perform_all calls s)) = true.
Proof.
unfold ServiceCalls.perform_all. revert s.
induction calls as [|c calls IH]; intros s Hk; simpl; [assumption |].
apply IH. now apply perform_keeps_key.
Qed.

End Calls.

End PushExtra.

(** ** The conference address generator *)

Module ConferenceExtra.

Import Conference ConferenceWords.

Section Generator.

Variable CHATROOM_PREFIX : string.
Variable asStringUriOnly : Address -> string.
Variable transport : string.
Variable latest : list ExtendedContact -> option ExtendedContact.
Variable createAddress : string -> option Address.

Local Abbreviation handle :=
  (handle CHATROOM_PREFIX asStringUriOnly transport latest createAddress).
Local Abbreviation deliver :=
  (deliver CHATROOM_PREFIX asStringUriOnly transport latest createAddress).
Local Abbreviation answers :=
  (answers CHATROOM_PREFIX asStringUriOnly transport latest createAddress).
Local Abbreviation deliver_step :=
  (ConferenceFacts.deliver_step CHATROOM_PREFIX asStringUriOnly transport latest createAddress).

(** What a callback does in the state Binding. *)
Lemma handle_in_Binding (cb : Callback) (g g' : ConferenceAddressGenerator)
  (acts : list Action) :
  mState g = Binding -> handle cb g = Some (g', acts) ->
  g' = g /\ requests acts = 0
  /\ (forall uri tr uuid, ~ In (bindChatRoom uri tr uuid) acts)
  /\ match cb with
     | onError => acts = [setConferenceAddress None]
     | onRecordFound None _ => False
     | onRecordFound (Some rec) _ =>
         match getExtendedContacts rec with
         | [] => acts = [LOGF "Conference address bind failed."]
         | _ :: _ =>
             exists ec, latest (getExtendedContacts rec) = Some ec
               /\ acts = match getPubGruu rec ec with
                         | None => [LOGF "Conference does not have gruu address."]
                         | Some pub_gruu => [setConferenceAddress (createAddress pub_gruu)]
                         end
         end
     end.
Proof.
intros Hst. destruct cb as [r token|]; simpl.
- unfold handle_onRecordFound. rewrite Hst. destruct r as [rec|]; [| discriminate].
  destruct (getExtendedContacts rec) as [|c cs].
  + intros [= <- <-]. simpl. intuition discriminate.
  + destruct (latest (c :: cs)) as [ec|]; [| discriminate].
    destruct (getPubGruu rec ec) eqn:Hgruu; intros [= <- <-]; simpl;
      (split; [reflexivity |]); (split; [reflexivity |]);
      (split; [intuition discriminate |]); exists ec; now rewrite Hgruu.
- unfold handle_onError. intros [= <- <-]. simpl. intuition discriminate.
Qed.

(** X10. A bind that fails is only logged: in the state Binding, when the
    record has no contact, or its latest contact has no public GRUU,
    [onRecordFound] leaves the conference address of the chat room untouched
    (it is not set to null), issues no request and changes nothing of the
    generator. With a public GRUU it publishes the address that
    [createAddress] makes of it. *)
Theorem failed_bind_is_only_logged (rec : Record_) (token : list ascii)
  (g g' : ConferenceAddressGenerator) (acts : list Action) :
  mState g = Binding ->
  handle (onRecordFound (Some rec) token) g = Some (g', acts) ->
  g' = g /\ requests acts = 0
  /\ (getExtendedContacts rec = [] ->
        acts = [LOGF "Conference address bind failed."])
  /\ (forall ec, latest (getExtendedContacts rec) = Some ec ->
        getExtendedContacts rec <> [] ->
        acts = match getPubGruu rec ec with
               | None => [LOGF "Conference does not have gruu address."]
               | Some pub_gruu => [setConferenceAddress (createAddress pub_gruu)]
               end)
  /\ ((getExtendedContacts rec = []
       \/ exists ec, latest (getExtendedContacts rec) = Some ec /\ getPubGruu rec ec = None) ->
      forall a, ~ In (setConferenceAddress a) acts).
Proof.
intros Hst Hh. destruct (handle_in_Binding _ _ _ _ Hst Hh) as (Hg & Hreq & _ & Hacts).
split; [assumption |]. split; [assumption |].
destruct (getExtendedContacts rec) as [|c cs] eqn:Hcs.
- subst acts. split; [reflexivity |]. split; [intros ec _ Hne; now destruct Hne |].
  intros _ a. simpl. intuition discriminate.
- destruct Hacts as (ec & Hlatest & Hacts). split; [discriminate |]. split.
  + intros ec' Hec' _. assert (ec' = ec) as -> by congruence. assumption.
  + intros [Hnil | (ec' & Hec' & Hnone)] a; [discriminate |].
    assert (ec' = ec) as -> by congruence. rewrite Hnone in Hacts. subst acts.
    simpl. intuition discriminate.
Qed.

(** A collision in the state Fetching is handled when the token is
    terminated, and leaves the state Fetching with one fetch issued. *)
Lemma handle_collision_step (cb : Callback) (g : ConferenceAddressGenerator) :
  mState g = Fetching -> found_nonempty cb = true -> token_terminated cb ->
  exists g' acts,
    handle cb g = Some (g', acts) /\ mState g' = Fetching /\ requests acts = 1
    /\ (forall uri tr uuid, ~ In (bindChatRoom uri tr uuid) acts)
    /\ (forall a, ~ In (setConferenceAddress a) acts).
Proof.
intros Hst Hne Hterm. destruct cb as [[rec|] token|]; simpl in Hne; try discriminate.
simpl in Hterm. apply negb_true_iff in Hne.
destruct (ConferenceFacts.handle_collision_defined CHATROOM_PREFIX asStringUriOnly transport
            latest createAddress rec token g Hst Hne Hterm) as (g' & acts & Hh).
exists g', acts. split; [assumption |].
assert (Hfound : found_nonempty (onRecordFound (Some rec) token) = true)
  by (simpl; now rewrite Hne).
destruct (ConferenceFacts.handle_collision CHATROOM_PREFIX asStringUriOnly transport
            latest createAddress _ _ _ _ Hst Hfound Hh) as (Hst' & -> & _).
split; [assumption |]. simpl. intuition discriminate.
Qed.

(** X11. The generator never gives up: however many collisions follow one
    another, each is handled, each leaves the state Fetching with one new
    fetch issued, and none binds or touches the conference address. *)
Theorem collisions_keep_fetching (cbs : list Callback) (g : ConferenceAddressGenerator) :
  mState g = Fetching ->
  Forall (fun cb => found_nonempty cb = true /\ token_terminated cb) cbs ->
  List.length (deliver cbs g) = List.length cbs
  /\ Forall (fun st => mState (after st) = Fetching /\ requests (actions st) = 1
                       /\ ~ binds st /\ ~ sets_address st) (deliver cbs g)
  /\ answers 1 cbs g = true.
Proof.
revert g. induction cbs as [|cb cbs IH]; intros g Hst Hall; simpl.
- repeat split. constructor.
- inversion Hall as [|? ? [Hne Hterm] Hrest]; subst.
  destruct (handle_collision_step cb g Hst Hne Hterm)
    as (g' & acts & Hh & Hst' & Hreq & Hnobind & Hnoset).
  rewrite Hh. destruct (IH g' Hst' Hrest) as (Hlen & Hsteps & Hans).
  simpl. rewrite Hlen, Hreq. split; [reflexivity |]. split; [| assumption].
  constructor; [| assumption]. simpl. repeat split; try assumption.
  + intros (uri & tr & uuid & Hin). now apply (Hnobind uri tr uuid).
  + intros (a & Hin). now apply (Hnoset a).
Qed.

(** The steps after a step that leaves the state Binding are taken in that
    state. *)
Lemma deliver_after_Binding (cbs : list Callback) (g : ConferenceAddressGenerator)
  (pre : list Step) (st : Step) (post : list Step) :
  deliver cbs g = (pre ++ st :: post)%list -> mState (after st) = Binding ->
  Forall (fun x => mState (before x) = Binding) post.
Proof.
revert g pre. induction cbs as [|cb cbs IH]; intros g pre; simpl.
- intros H. now destruct pre.
- destruct (handle cb g) as [[g' acts]|] eqn:Hh; [| intros H; now destruct pre].
  destruct pre as [|p pre]; simpl; intros [= Hp Hrest] Hb.
  + subst st. simpl in Hb. rewrite <- Hrest.
    now apply ConferenceFacts.deliver_in_Binding.
  + now apply (IH g' pre).
Qed.

(** The steps before a step taken in the state Fetching were taken in that
    state. *)
Lemma deliver_before_Fetching (cbs : list Callback) (g : ConferenceAddressGenerator)
  (pre : list Step) (st : Step) (post : list Step) :
  deliver cbs g = (pre ++ st :: post)%list -> mState (before st) = Fetching ->
  Forall (fun x => mState (before x) = Fetching /\ mState (after x) = Fetching) pre.
Proof.
revert g pre. induction cbs as [|cb cbs IH]; intros g pre; simpl.
- intros H. now destruct pre.
- destruct (handle cb g) as [[g' acts]|] eqn:Hh; [| intros H; now destruct pre].
  destruct pre as [|p pre]; simpl; intros [= Hp Hrest] Hb; [constructor |].
  assert (Hg' : mState g' = Fetching).
  { destruct (mState g') eqn:Hst'; [reflexivity |].
    pose proof (ConferenceFacts.deliver_in_Binding CHATROOM_PREFIX asStringUriOnly transport
                  latest createAddress cbs g' Hst') as Hall.
    rewrite Hrest in Hall. apply Forall_app in Hall. destruct Hall as [_ Hall].
    inversion Hall; subst. congruence. }
  assert (Hg : mState g = Fetching).
  { destruct (mState g) eqn:Hst; [reflexivity |].
    pose proof (ConferenceFacts.handle_stays_Binding CHATROOM_PREFIX asStringUriOnly
                  transport latest createAddress cb g g' acts Hst Hh). congruence. }
  constructor; [subst p; now split | now apply (IH g' pre)].
Qed.

(** A step that binds goes from the state Fetching to the state Binding. *)
Lemma handle_binds (cb : Callback) (g g' : ConferenceAddressGenerator) (acts : list Action)
  (uri tr uuid : string) :
  handle cb g = Some (g', acts) -> In (bindChatRoom uri tr uuid) acts ->
  mState g = Fetching /\ mState g' = Binding.
Proof.
intros Hh Hin. destruct (mState g) eqn:Hst.
- split; [reflexivity |]. destruct cb as [r token|]; simpl in Hh.
  + unfold handle_onRecordFound in Hh. rewrite Hst in Hh.
    destruct (match r with Some rec => negb (isEmpty rec) | None => false end).
    * unfold Conference.changeAddress in Hh. destruct (c_str token); [| discriminate].
      injection Hh as <- <-. simpl in Hin. intuition discriminate.
    * now injection Hh as <- <-.
  + unfold handle_onError in Hh. injection Hh as <- <-. simpl in Hin. intuition discriminate.
- destruct (handle_in_Binding _ _ _ _ Hst Hh) as (_ & _ & Hnobind & _).
  now destruct (Hnobind uri tr uuid).
Qed.

(** X12. The generator binds once: in any run, no step before a step that
    calls [bindChatRoom] binds, and no step after it issues a request to the
    registrar, fetch or bind. *)
Theorem binds_at_most_once (cbs : list Callback) (g : ConferenceAddressGenerator)
  (pre : list Step) (st : Step) (post : list Step) :
  deliver cbs g = (pre ++ st :: post)%list ->
  binds st ->
  Forall (fun x => ~ binds x) pre
  /\ Forall (fun x => requests (actions x) = 0) post.
Proof.
intros Hrun (uri & tr & uuid & Hin).
pose proof (deliver_step _ _ _ _ _ Hrun) as Hstep.
destruct (handle_binds _ _ _ _ _ _ _ Hstep Hin) as [Hbefore Hafter]. split.
- pose proof (deliver_before_Fetching _ _ _ _ _ Hrun Hbefore) as Hpre.
  apply Forall_forall. intros x Hx (uri' & tr' & uuid' & Hin').
  destruct (proj1 (Forall_forall _ _) Hpre x Hx) as [_ Hxafter].
  apply in_split in Hx. destruct Hx as (p1 & p2 & ->).
  rewrite <- app_assoc in Hrun. simpl in Hrun.
  pose proof (deliver_step _ _ _ _ _ Hrun) as Hxstep.
  destruct (handle_binds _ _ _ _ _ _ _ Hxstep Hin') as [_ Hxb]. congruence.
- pose proof (deliver_after_Binding _ _ _ _ _ Hrun Hafter) as Hpost.
  apply Forall_forall. intros x Hx.
  pose proof (proj1 (Forall_forall _ _) Hpost x Hx) as Hxb.
  apply in_split in Hx. destruct Hx as (p1 & p2 & ->).
  change (pre ++ st :: p1 ++ x :: p2)%list with (pre ++ (st :: p1) ++ x :: p2)%list in Hrun.
  rewrite app_assoc in Hrun.
  pose proof (deliver_step _ _ _ _ _ Hrun) as Hxstep.
  now destruct (handle_in_Binding _ _ _ _ Hxb Hxstep) as (_ & Hreq & _).
Qed.

(** X13. When callbacks only answer the requests of the generator, a step
    that issues no request is the last one: after the publication of a GRUU,
    after a failed bind and after an error no callback is handled. *)
Theorem silent_step_is_last (cbs : list Callback) (g : ConferenceAddressGenerator)
  (pre : list Step) (st : Step) (post : list Step) :
  answers 1 cbs g = true ->
  deliver cbs g = (pre ++ st :: post)%list ->
  requests (actions st) = 0 ->
  post = [].
Proof.
assert (Hgen : forall n, n <= 1 -> answers n cbs g = true ->
                 deliver cbs g = (pre ++ st :: post)%list ->
                 requests (actions st) = 0 -> post = []).
{ revert g pre. induction cbs as [|cb cbs IH]; intros g pre n Hn; simpl.
  - intros _ H. now destruct pre.
  - destruct n as [|n]; [discriminate |].
    destruct (handle cb g) as [[g' acts]|] eqn:Hh; [| intros _ H; now destruct pre].
    assert (n = 0) as -> by lia. simpl.
    destruct pre as [|p pre]; simpl; intros Hans [= Hp Hrest] Hreq.
    + subst st. simpl in Hreq. rewrite Hreq in Hans.
      destruct cbs; [| discriminate]. simpl in Hrest. congruence.
    + apply (IH g' pre (requests acts)); try assumption.
      eapply ConferenceFacts.handle_requests; eauto. }
now apply (Hgen 1).
Qed.

End Generator.

End ConferenceExtra.

(** ** The origin of an authentication log *)

Module EventLogExtra.

Import EventLog CStrings.

Lemma tolower_not_nul (c : ascii) : nat_of_ascii (tolower c) = 0 -> c = zero.
Proof.
destruct c as [[] [] [] [] [] [] [] []]; vm_compute; intros H; congruence.
Qed.

Lemma nat_of_ascii_inj (x y : ascii) : nat_of_ascii x = nat_of_ascii y -> x = y.
Proof.
intros H. rewrite <- (ascii_nat_embedding x), <- (ascii_nat_embedding y). now rewrite H.
Qed.

(** [strcasecmp] is null on two C strings iff they are the same once in
    lower case. *)
Lemma strcasecmp_zero (a b : string) :
  no_nul a -> no_nul b -> (strcasecmp a b = 0%Z <-> lower a = lower b).
Proof.
unfold no_nul. revert b. induction a as [|x a IH]; intros [|y b] Ha Hb; simpl.
- tauto.
- split; [| discriminate]. intros H.
  assert (Hy : nat_of_ascii (tolower y) = 0) by lia.
  apply tolower_not_nul in Hy. subst y. destruct Hb. now left.
- split; [| discriminate]. intros H.
  assert (Hx : nat_of_ascii (tolower x) = 0) by lia.
  apply tolower_not_nul in Hx. subst x. destruct Ha. now left.
- destruct (Ascii.eqb_spec (tolower x) (tolower y)) as [Heq | Hne].
  + rewrite Heq, IH.
    * split; [now intros -> | now intros [= ->]].
    * intros Hin. apply Ha. now right.
    * intros Hin. apply Hb. now right.
  + split; [| intros [= Heq _]; contradiction].
    intros H. exfalso. apply Hne. apply nat_of_ascii_inj. lia.
Qed.

(** X14. The origin of an authentication log is the text
    sip:<address>[:<port>], where the address is the [received] parameter of
    the Via when it has one, its host otherwise, and the port is its [rport]
    parameter when it has one, its port otherwise, if any. The URL has the
    parameter transport=<T>, T being the transport of the Via as written,
    unless T is UDP in any letter case; TLS gives transport=TLS and the
    scheme sip. *)
Theorem setOrigin_origin (via : sip_via_t) (protocol0 protocol1 : string) :
  after_char "/"%char (v_protocol via) = Some protocol0 ->
  after_char "/"%char protocol0 = Some protocol1 ->
  no_nul protocol1 ->
  exists mOrigin,
    setOrigin via = Some mOrigin
    /\ url_text mOrigin
       = "sip:" ++ match v_received via with Some r => r | None => v_host via end
         ++ match (match v_rport via with Some p => Some p | None => v_port via end) with
            | Some p => ":" ++ p
            | None => ""
            end
    /\ url_params mOrigin
       = if String.eqb (lower protocol1) "udp" then None
         else Some ("transport=" ++ protocol1).
Proof.
intros H0 H1 Hnul. rewrite (EventLogFacts.setOrigin_value via protocol0 protocol1 H0 H1).
eexists. split; [reflexivity |]. split; [reflexivity |]. cbn [url_params].
assert (Hudp : no_nul "UDP") by (unfold no_nul; simpl; intuition discriminate).
pose proof (strcasecmp_zero protocol1 "UDP" Hnul Hudp) as Hiff.
destruct (Z.eqb_spec (strcasecmp protocol1 "UDP") 0) as [Hz | Hnz].
- apply Hiff in Hz. rewrite Hz. reflexivity.
- destruct (String.eqb_spec (lower protocol1) "udp") as [Hl | _]; [| reflexivity].
  destruct Hnz. apply Hiff. exact Hl.
Qed.

End EventLogExtra.

(** ** The event-log writer *)

Module EventLogWriterFacts.

Import EventLog EventLogWriter.

Lemma append_assoc (a b c : string) : (a ++ b) ++ c = a ++ b ++ c.
Proof. induction a as [|x a IH]; simpl; [reflexivity | now rewrite IH]. Qed.

Lemma open_after_app (o : list nat) (a b : list Event) :
  open_after o (a ++ b) = open_after (open_after o a) b.
Proof.
revert o. induction a as [|e a IH]; intros o; simpl; [reflexivity |].
destruct e as [| | path [fd|] | | |]; apply IH.
Qed.

Lemma accessed_app (a b : list Event) : accessed (a ++ b) = (accessed a ++ accessed b)%list.
Proof.
induction a as [|e a IH]; simpl; [reflexivity |]. destruct e; simpl; now rewrite ?IH.
Qed.

Lemma opened_paths_app (a b : list Event) :
  opened_paths (a ++ b) = (opened_paths a ++ opened_paths b)%list.
Proof.
induction a as [|e a IH]; simpl; [reflexivity |]. destruct e; simpl; now rewrite ?IH.
Qed.

Lemma written_to_app (fd : nat) (a b : list Event) :
  written_to fd (a ++ b) = (written_to fd a ++ written_to fd b)%list.
Proof.
induction a as [|e a IH]; simpl; [reflexivity |].
destruct e as [| | | fd' data ok | |]; simpl; rewrite ?IH; try reflexivity.
now destruct (Nat.eqb fd' fd).
Qed.

Lemma remove_one_head (fd : nat) (o : list nat) : remove_one fd (fd :: o) = o.
Proof. simpl. now rewrite Nat.eqb_refl. Qed.

Section Writer.

Context {X : Externals} {FS : FileSystem}.

Variable openPath_default_errorcode : Z.

Lemma bind_inv {A B} (c : IO A) (k : A -> IO B) (w w2 : fs) (ev : list Event) (b : B) :
  bind c k w = Some (w2, ev, b) ->
  exists w1 ev1 a ev2,
    c w = Some (w1, ev1, a) /\ k a w1 = Some (w2, ev2, b) /\ ev = (ev1 ++ ev2)%list.
Proof.
unfold bind. destruct (c w) as [[[w1 ev1] a]|]; [| discriminate].
destruct (k a w1) as [[[w2' ev2] b']|] eqn:Hk; [| discriminate].
intros [= <- <- <-]. exists w1, ev1, a, ev2. auto.
Qed.

Lemma bind_Some {A B} (c : IO A) (k : A -> IO B) (w w1 : fs) (ev1 : list Event) (a : A) :
  c w = Some (w1, ev1, a) ->
  bind c k w = match k a w1 with
               | None => None
               | Some (w2, ev2, b) => Some (w2, (ev1 ++ ev2)%list, b)
               end.
Proof. unfold bind. now intros ->. Qed.

(** [createDirectoryIfNotExist] always returns; it tests the path once, makes
    the directory when the test fails, and opens nothing. *)
Lemma createDirectoryIfNotExist_spec (path : string) (w : fs) :
  exists w' ev ok,
    createDirectoryIfNotExist path w = Some (w', ev, ok)
    /\ accessed ev = [path] /\ opened_paths ev = []
    /\ (forall o, open_after o ev = o) /\ (forall fd, written_to fd ev = [])
    /\ ok = (fs_access path w || snd (fs_mkdir path w)).
Proof.
unfold createDirectoryIfNotExist, bind, access, mkdir, log_errno, ret.
destruct (fs_access path w) eqn:Ha.
- eexists _, _, _. split; [reflexivity |]. simpl. auto.
- destruct (fs_mkdir path w) as [w' [|]] eqn:Hm; eexists _, _, _;
    (split; [reflexivity |]); simpl; auto 6.
Qed.

Lemma open_day_file_spec (path : string) (curtime : Z) (w : fs) :
  exists w' ev fd,
    open_day_file path curtime w = Some (w', ev, fd)
    /\ accessed ev = []
    /\ opened_paths ev = [path ++ day_file (localtime_r curtime)]
    /\ (forall o, open_after o ev = match fd with Some n => n :: o | None => o end)
    /\ (forall fd', written_to fd' ev = [])
    /\ (forall n, fd = Some n ->
          In (sys_open (path ++ day_file (localtime_r curtime)) (Some n)) ev).
Proof.
unfold open_day_file, bind, open, log_errno, ret.
destruct (fs_open (path ++ day_file (localtime_r curtime)) w) as [w' [n|]] eqn:Ho;
  eexists _, _, _; (split; [reflexivity |]); simpl; repeat split; try discriminate.
intros n0 [= <-]. now left.
Qed.

(** The directories are tested in order, up to the first that can neither be
    read and written nor made; the file is opened when all could, and only
    then. *)
Lemma make_then_open_spec (dirs : list string) (last : string) (curtime : Z) (w : fs) :
  exists w' ev fd,
    make_then_open dirs last curtime w = Some (w', ev, fd)
    /\ (exists rest, dirs = (accessed ev ++ rest)%list)
    /\ (opened_paths ev = []
        \/ accessed ev = dirs
           /\ opened_paths ev = [last ++ day_file (localtime_r curtime)])
    /\ (forall o, open_after o ev = match fd with Some n => n :: o | None => o end)
    /\ (forall fd', written_to fd' ev = [])
    /\ (forall n, fd = Some n ->
          accessed ev = dirs
          /\ In (sys_open (last ++ day_file (localtime_r curtime)) (Some n)) ev).
Proof.
revert w. induction dirs as [|dir dirs IH]; intros w; cbn [make_then_open].
- destruct (open_day_file_spec last curtime w) as (w' & ev & fd & Heq & Hacc & Hop & Hfd & Hwr & Hin).
  exists w', ev, fd. rewrite Hacc. split; [assumption |]. split; [now exists [] |].
  split; [now right |]. split; [assumption |]. split; [assumption |].
  intros n Hn. split; [reflexivity | now apply Hin].
- destruct (createDirectoryIfNotExist_spec dir w)
    as (w1 & ev1 & ok & Heq1 & Hacc1 & Hop1 & Hfd1 & Hwr1 & _).
  rewrite (bind_Some _ _ _ _ _ _ Heq1). destruct ok; cbn [negb].
  + destruct (IH w1) as (w2 & ev2 & fd & Heq2 & (rest & Hpre) & Hop2 & Hfd2 & Hwr2 & Hin2).
    rewrite Heq2. exists w2, (ev1 ++ ev2)%list, fd. split; [reflexivity |].
    rewrite accessed_app, opened_paths_app, Hacc1, Hop1. cbn [app].
    split; [exists rest; now rewrite Hpre at 1 |].
    split; [destruct Hop2 as [H | [H1 H2]]; [now left | right; now rewrite H1] |].
    split; [intros o; rewrite open_after_app, Hfd1; apply Hfd2 |].
    split; [intros fd'; rewrite written_to_app, Hwr1; apply Hwr2 |].
    intros n Hn. destruct (Hin2 n Hn) as [Ha Hi]. split; [now rewrite Ha |].
    apply in_or_app. now right.
  + exists w1, (ev1 ++ [])%list, None. split; [reflexivity |]. rewrite app_nil_r, Hacc1, Hop1.
    split; [now exists dirs |]. split; [now left |]. split; [assumption |].
    split; [assumption | discriminate].
Qed.

(** *** What the writer asks of the file system *)

Lemma createDirectoryIfNotExist_exact (path : string) (w : fs) :
  createDirectoryIfNotExist path w = Some (ask path w).
Proof.
unfold createDirectoryIfNotExist, ask, bind, access, mkdir, log_errno, ret.
destruct (fs_access path w); [reflexivity |].
destruct (fs_mkdir path w) as [w' [|]]; reflexivity.
Qed.

Lemma open_day_file_exact (path : string) (curtime : Z) (w : fs) :
  open_day_file path curtime w
  = Some (open_in [] (path ++ day_file (localtime_r curtime)) w).
Proof.
unfold open_day_file, open_in, bind, open, log_errno, ret. cbn [ask_all].
destruct (fs_open (path ++ day_file (localtime_r curtime)) w) as [w' [n|]]; reflexivity.
Qed.

Lemma open_in_cons (dir : string) (dirs : list string) (file : string) (w : fs) :
  open_in (dir :: dirs) file w
  = let '(w1, ev1, ok) := ask dir w in
    if ok then let '(w2, ev2, fd) := open_in dirs file w1 in (w2, (ev1 ++ ev2)%list, fd)
    else (w1, ev1, None).
Proof.
unfold open_in. cbn [ask_all]. destruct (ask dir w) as [[w1 ev1] [|]]; [| reflexivity].
destruct (ask_all dirs w1) as [[w2 ev2] [|]]; [| reflexivity].
destruct (fs_open file w2) as [w3 fd]. now rewrite app_assoc.
Qed.

(** The chain of [openPath] is the opening of the file in the directories. *)
Lemma make_then_open_exact (dirs : list string) (last : string) (curtime : Z) (w : fs) :
  make_then_open dirs last curtime w
  = Some (open_in dirs (last ++ day_file (localtime_r curtime)) w).
Proof.
revert w. induction dirs as [|dir dirs IH]; intros w; cbn [make_then_open].
- apply open_day_file_exact.
- pose proof (createDirectoryIfNotExist_exact dir w) as Hc.
  rewrite open_in_cons. destruct (ask dir w) as [[w1 ev1] ok].
  rewrite (bind_Some _ _ _ _ _ _ Hc). destruct ok; cbn [negb].
  + rewrite IH. now destruct (open_in dirs _ w1) as [[w2 ev2] fd].
  + unfold ret. now rewrite app_nil_r.
Qed.

Lemma In_sys_open (path : string) (fd : option nat) (ev : list Event) :
  In (sys_open path fd) ev -> In path (opened_paths ev).
Proof.
induction ev as [|e ev IH]; simpl; [auto |].
intros [-> | Hin]; [now left |]. destruct e; simpl; auto.
Qed.

(** Asking opens and writes nothing, and a [mkdir] that failed is the end of
    the asking. *)
Lemma ask_facts (path : string) (w w1 : fs) (ev : list Event) (ok : bool) :
  ask path w = (w1, ev, ok) ->
  opened_paths ev = [] /\ (forall fd, written_to fd ev = [])
  /\ accessed ev = [path]
  /\ hd_error ev = Some (sys_access path (fs_access path w))
  /\ (forall d, In (sys_mkdir d false) ev -> ok = false).
Proof.
unfold ask. destruct (fs_access path w).
- intros [= <- <- <-]. simpl. repeat split. intros d [H | []]. discriminate.
- destruct (fs_mkdir path w) as [w' [|]]; intros [= <- <- <-]; simpl; repeat split.
  intros d [H | [H | []]]; discriminate.
Qed.

Lemma ask_all_facts (dirs : list string) (w w1 : fs) (ev : list Event) (all : bool) :
  ask_all dirs w = (w1, ev, all) ->
  opened_paths ev = [] /\ (forall fd, written_to fd ev = [])
  /\ (forall d, In (sys_mkdir d false) ev -> all = false)
  /\ (forall dir rest, dirs = dir :: rest ->
        hd_error ev = Some (sys_access dir (fs_access dir w))).
Proof.
revert w w1 ev all. induction dirs as [|dir dirs IH]; intros w w1 ev all; cbn [ask_all].
- intros [= <- <- <-]. simpl. repeat split; [intros d [] | discriminate].
- destruct (ask dir w) as [[w2 ev2] ok] eqn:Hask.
  destruct (ask_facts _ _ _ _ _ Hask) as (Hop & Hwr & _ & Hhd & Hfail).
  assert (Hhead : forall tail, hd_error (ev2 ++ tail)
                               = Some (sys_access dir (fs_access dir w))).
  { intros tail. destruct ev2; [discriminate | exact Hhd]. }
  destruct ok.
  + destruct (ask_all dirs w2) as [[w3 ev3] all3] eqn:Hrest. intros [= <- <- <-].
    destruct (IH _ _ _ _ Hrest) as (Hop3 & Hwr3 & Hfail3 & _).
    rewrite opened_paths_app, Hop, Hop3. split; [reflexivity |].
    split; [intros fd; now rewrite written_to_app, Hwr, Hwr3 |].
    split.
    * intros d Hin. apply in_app_or in Hin. destruct Hin as [Hin | Hin]; [| now apply Hfail3 in Hin].
      apply Hfail in Hin. discriminate.
    * intros dir0 rest [= <- <-]. apply Hhead.
  + intros [= <- <- <-]. split; [assumption |]. split; [assumption |].
    split; [reflexivity |]. intros dir0 rest [= <- <-]. rewrite <- (app_nil_r ev2). apply Hhead.
Qed.

(** What opening a file in directories shows: the first directory is really
    tested; a [mkdir] that failed leaves no descriptor and no file opened;
    nothing is written; and a descriptor that an [open] event shows is the
    one returned. *)
Lemma open_in_facts (dirs : list string) (file : string) (w w1 : fs) (ev : list Event)
  (fd : option nat) :
  open_in dirs file w = (w1, ev, fd) ->
  (forall dir rest, dirs = dir :: rest ->
     hd_error ev = Some (sys_access dir (fs_access dir w)))
  /\ (forall d, In (sys_mkdir d false) ev -> fd = None /\ opened_paths ev = [])
  /\ (forall fd', written_to fd' ev = [])
  /\ (forall path n, In (sys_open path (Some n)) ev -> path = file /\ fd = Some n)
  /\ (opened_paths ev = [] \/ opened_paths ev = [file]).
Proof.
unfold open_in. destruct (ask_all dirs w) as [[w2 ev2] all] eqn:Hall.
destruct (ask_all_facts _ _ _ _ _ Hall) as (Hop & Hwr & Hfail & Hhd).
destruct all.
- destruct (fs_open file w2) as [w3 fd3]. intros [= <- <- <-].
  split.
  { intros dir rest Hd. specialize (Hhd dir rest Hd). destruct ev2; [discriminate | exact Hhd]. }
  split.
  { intros d Hin. apply in_app_or in Hin. destruct Hin as [Hin | Hin].
    - apply Hfail in Hin. discriminate.
    - destruct Hin as [H | Hin]; [discriminate |]. destruct fd3; [destruct Hin |].
      destruct Hin as [H | []]. discriminate. }
  split.
  { intros fd'. rewrite written_to_app, Hwr. now destruct fd3. }
  split.
  { intros path n Hin. apply in_app_or in Hin. destruct Hin as [Hin | Hin].
    - apply In_sys_open in Hin. rewrite Hop in Hin. destruct Hin.
    - destruct Hin as [[= <- <-] | Hin]; [now split |]. destruct fd3; [destruct Hin |].
      destruct Hin as [H | []]. discriminate. }
  right. rewrite opened_paths_app, Hop. now destruct fd3.
- intros [= <- <- <-]. split; [assumption |]. split; [now split |].
  split; [assumption |]. split; [| now left].
  intros path n Hin. apply In_sys_open in Hin. rewrite Hop in Hin. destruct Hin.
Qed.

(** *** [openPath] *)

Lemma openPath_user_chain (wr : FilesystemEventLogWriter) (u : url_t) (kind : string)
  (curtime : Z) (domain : string) (w : fs) :
  url_host u = Some domain ->
  let username := match url_user u with Some n => n | None => "anonymous" end in
  let d1 := mRootPath wr ++ "/users" in
  let d2 := d1 ++ "/" ++ domain in
  let d3 := d2 ++ "/" ++ username in
  let d4 := d3 ++ "/" ++ kind in
  openPath wr (Some u) kind curtime 0 w = make_then_open [d1; d2; d3; d4] d4 curtime w.
Proof.
intros Hhost. unfold openPath. cbn [Z.eqb make_then_open].
destruct (url_host u) as [d|]; [| discriminate]. injection Hhost as ->. reflexivity.
Qed.

Lemma openPath_error_chain (wr : FilesystemEventLogWriter) (uri : option url_t)
  (kind : string) (curtime errorcode : Z) (w : fs) :
  errorcode <> 0%Z ->
  let d1 := mRootPath wr ++ "/" ++ "errors/" in
  let d2 := d1 ++ kind in
  let d3 := d2 ++ "/" ++ Push.string_of_Z errorcode in
  openPath wr uri kind curtime errorcode w = make_then_open [d1; d2; d3] d3 curtime w.
Proof.
intros Hcode. unfold openPath.
destruct (Z.eqb_spec errorcode 0) as [-> | _]; [now destruct Hcode | reflexivity].
Qed.

(** With the error code 0 and a null URL, [openPath] reads the members of the
    null pointer. *)
Lemma openPath_null_uri (wr : FilesystemEventLogWriter) (kind : string) (curtime : Z)
  (w : fs) :
  openPath wr None kind curtime 0 w = None.
Proof. reflexivity. Qed.

(** The descriptors of [openPath]: the one it returns is left open, and
    nothing is written. *)
Lemma openPath_fds (wr : FilesystemEventLogWriter) (uri : option url_t) (kind : string)
  (curtime errorcode : Z) (w w' : fs) (ev : list Event) (fd : option nat) :
  openPath wr uri kind curtime errorcode w = Some (w', ev, fd) ->
  (forall o, open_after o ev = match fd with Some n => n :: o | None => o end)
  /\ (forall fd', written_to fd' ev = []).
Proof.
destruct (Z.eq_dec errorcode 0) as [-> | Hcode].
- destruct uri as [u|]; [| discriminate].
  destruct (url_host u) as [domain|] eqn:Hhost.
  + rewrite (openPath_user_chain wr u kind curtime domain w Hhost). cbv zeta.
    match goal with
    | |- make_then_open ?dirs ?last _ _ = _ -> _ =>
        destruct (make_then_open_spec dirs last curtime w)
          as (w1 & ev1 & fd1 & -> & _ & _ & Hfd & Hwr & _)
    end.
    intros [= <- <- <-]. now split.
  + unfold openPath. cbn [Z.eqb]. rewrite Hhost.
    destruct (createDirectoryIfNotExist_spec (mRootPath wr ++ "/users") w)
      as (w1 & ev1 & ok & Heq1 & _ & _ & Hfd1 & Hwr1 & _).
    rewrite (bind_Some _ _ _ _ _ _ Heq1). destruct ok; cbn [negb]; [discriminate |].
    unfold ret. intros [= <- <- <-]. rewrite app_nil_r. now split.
- rewrite (openPath_error_chain wr uri kind curtime errorcode w Hcode). cbv zeta.
  match goal with
  | |- make_then_open ?dirs ?last _ _ = _ -> _ =>
      destruct (make_then_open_spec dirs last curtime w)
        as (w1 & ev1 & fd1 & -> & _ & _ & Hfd & Hwr & _)
  end.
  intros [= <- <- <-]. now split.
Qed.

Lemma openPath_user_exact (wr : FilesystemEventLogWriter) (u : url_t) (kind : string)
  (curtime : Z) (domain : string) (w : fs) :
  url_host u = Some domain ->
  let username := match url_user u with Some n => n | None => "anonymous" end in
  let root := mRootPath wr in
  openPath wr (Some u) kind curtime 0 w
  = Some (open_in [root ++ "/users"; root ++ "/users/" ++ domain;
                   root ++ "/users/" ++ domain ++ "/" ++ username;
                   user_directory root domain username kind]
            (user_directory root domain username kind ++ day_file (localtime_r curtime)) w).
Proof.
intros Hhost username root.
rewrite (openPath_user_chain wr u kind curtime domain w Hhost). cbv zeta.
fold username. fold root.
assert (Hd2 : (root ++ "/users") ++ "/" ++ domain = root ++ "/users/" ++ domain)
  by now rewrite append_assoc.
assert (Hd3 : ((root ++ "/users") ++ "/" ++ domain) ++ "/" ++ username
              = root ++ "/users/" ++ domain ++ "/" ++ username)
  by now rewrite Hd2, !append_assoc.
assert (Hd4 : (((root ++ "/users") ++ "/" ++ domain) ++ "/" ++ username) ++ "/" ++ kind
              = user_directory root domain username kind)
  by (unfold user_directory; now rewrite Hd3, !append_assoc).
rewrite Hd4, Hd3, Hd2. apply make_then_open_exact.
Qed.

(** X15. The log of a user. With the error code 0, [openPath] does exactly
    this: it asks for the directories <root>/users, <root>/users/<host>,
    <root>/users/<host>/<user> and <root>/users/<host>/<user>/<kind>, in this
    order and never for the root itself, "anonymous" standing for the user of
    a URL that has none. Asking is a call of [access], then of [mkdir] when
    [access] failed; the first directory for which both fail is the last one
    asked for, and then no file is opened and the result is -1. The file of
    the day is opened, in the last directory, when and only when the four
    directories could be used, and the result is what [open] returns. *)
Theorem openPath_user_file (wr : FilesystemEventLogWriter) (u : url_t) (kind : string)
  (curtime : Z) (domain : string) (w : fs) :
  url_host u = Some domain ->
  let username := match url_user u with Some n => n | None => "anonymous" end in
  let root := mRootPath wr in
  let dirs := [root ++ "/users"; root ++ "/users/" ++ domain;
               root ++ "/users/" ++ domain ++ "/" ++ username;
               user_directory root domain username kind] in
  let file := user_directory root domain username kind ++ day_file (localtime_r curtime) in
  exists w' ev fd,
    openPath wr (Some u) kind curtime 0 w = Some (w', ev, fd)
    /\ (w', ev, fd) = open_in dirs file w
    /\ hd_error ev = Some (sys_access (root ++ "/users") (fs_access (root ++ "/users") w))
    /\ (forall d, In (sys_mkdir d false) ev -> fd = None /\ opened_paths ev = [])
    /\ (exists rest, dirs = (accessed ev ++ rest)%list)
    /\ (opened_paths ev = [] \/ accessed ev = dirs /\ opened_paths ev = [file])
    /\ (forall n, fd = Some n -> accessed ev = dirs /\ In (sys_open file (Some n)) ev).
Proof.
intros Hhost username root dirs file.
pose proof (openPath_user_exact wr u kind curtime domain w Hhost) as Hexact.
cbv zeta in Hexact. fold username root in Hexact. fold dirs file in Hexact.
pose proof (make_then_open_exact dirs (user_directory root domain username kind) curtime w)
  as Hchain. fold file in Hchain.
destruct (make_then_open_spec dirs (user_directory root domain username kind) curtime w)
  as (w' & ev & fd & Heq & Hpre & Hop & _ & _ & Hin).
fold file in Hop, Hin.
assert (Hopen : open_in dirs file w = (w', ev, fd)) by congruence.
destruct (open_in_facts _ _ _ _ _ _ Hopen) as (Hhd & Hfail & _).
exists w', ev, fd. rewrite Hexact, Hopen.
split; [reflexivity |]. split; [reflexivity |].
split; [exact (Hhd _ _ eq_refl) |]. auto.
Qed.

Lemma openPath_error_paths (wr : FilesystemEventLogWriter) (uri : option url_t)
  (kind : string) (curtime errorcode : Z) (w : fs) :
  errorcode <> 0%Z ->
  let root := mRootPath wr in
  let dirs := [root ++ "/errors/"; root ++ "/errors/" ++ kind;
               error_directory root kind errorcode] in
  let file := error_directory root kind errorcode ++ day_file (localtime_r curtime) in
  exists w' ev fd,
    openPath wr uri kind curtime errorcode w = Some (w', ev, fd)
    /\ (exists rest, dirs = (accessed ev ++ rest)%list)
    /\ (opened_paths ev = [] \/ accessed ev = dirs /\ opened_paths ev = [file])
    /\ (forall n, fd = Some n -> accessed ev = dirs /\ In (sys_open file (Some n)) ev).
Proof.
intros Hcode root dirs file.
rewrite (openPath_error_chain wr uri kind curtime errorcode w Hcode). cbv zeta. fold root.
assert (Hd2 : (root ++ "/" ++ "errors/") ++ kind = root ++ "/errors/" ++ kind)
  by now rewrite append_assoc.
assert (Hd3 : ((root ++ "/" ++ "errors/") ++ kind) ++ "/" ++ Push.string_of_Z errorcode
              = error_directory root kind errorcode)
  by (unfold error_directory; now rewrite Hd2, !append_assoc).
rewrite Hd3, Hd2.
destruct (make_then_open_spec
            [root ++ "/" ++ "errors/"; root ++ "/errors/" ++ kind;
             error_directory root kind errorcode]
            (error_directory root kind errorcode) curtime w)
  as (w' & ev & fd & Heq & Hpre & Hop & _ & _ & Hin).
exists w', ev, fd. auto.
Qed.

Lemma openPath_error_exact (wr : FilesystemEventLogWriter) (uri : option url_t)
  (kind : string) (curtime errorcode : Z) (w : fs) :
  errorcode <> 0%Z ->
  openPath wr uri kind curtime errorcode w
  = Some (open_in (error_directories (mRootPath wr) kind errorcode)
            (error_file (mRootPath wr) kind errorcode (localtime_r curtime)) w).
Proof.
intros Hcode. set (root := mRootPath wr).
rewrite (openPath_error_chain wr uri kind curtime errorcode w Hcode). cbv zeta. fold root.
assert (Hd2 : (root ++ "/" ++ "errors/") ++ kind = root ++ "/errors/" ++ kind)
  by now rewrite append_assoc.
assert (Hd3 : ((root ++ "/" ++ "errors/") ++ kind) ++ "/" ++ Push.string_of_Z errorcode
              = error_directory root kind errorcode)
  by (unfold error_directory; now rewrite Hd2, !append_assoc).
rewrite Hd3, Hd2. apply make_then_open_exact.
Qed.

(** X16. The log of the errors. With an error code other than 0 [openPath]
    does not read the URL (it may be null) and does exactly this: it asks for
    the directories <root>/errors/, <root>/errors/<kind> and
    <root>/errors/<kind>/<code>, in this order, each by a call of [access]
    and, when it failed, of [mkdir]; the first directory for which both fail
    is the last one asked for, and then no file is opened and the result is
    -1. The file of the day is opened in the last directory when and only
    when the three could be used, and the result is what [open] returns. *)
Theorem openPath_error_file (wr : FilesystemEventLogWriter) (uri : option url_t)
  (kind : string) (curtime errorcode : Z) (w : fs) :
  errorcode <> 0%Z ->
  let root := mRootPath wr in
  let dirs := [root ++ "/errors/"; root ++ "/errors/" ++ kind;
               error_directory root kind errorcode] in
  let file := error_directory root kind errorcode ++ day_file (localtime_r curtime) in
  exists w' ev fd,
    openPath wr uri kind curtime errorcode w = Some (w', ev, fd)
    /\ (w', ev, fd) = open_in dirs file w
    /\ hd_error ev = Some (sys_access (root ++ "/errors/") (fs_access (root ++ "/errors/") w))
    /\ (forall d, In (sys_mkdir d false) ev -> fd = None /\ opened_paths ev = [])
    /\ (exists rest, dirs = (accessed ev ++ rest)%list)
    /\ (opened_paths ev = [] \/ accessed ev = dirs /\ opened_paths ev = [file])
    /\ (forall n, fd = Some n -> accessed ev = dirs /\ In (sys_open file (Some n)) ev).
Proof.
intros Hcode root dirs file.
pose proof (openPath_error_exact wr uri kind curtime errorcode w Hcode) as Hexact.
destruct (openPath_error_paths wr uri kind curtime errorcode w Hcode)
  as (w' & ev & fd & Heq & Hpre & Hop & Hin).
fold root in Hpre, Hop, Hin. fold dirs in Hpre, Hop, Hin. fold file in Hop, Hin.
assert (Hopen : open_in dirs file w = (w', ev, fd)).
{ rewrite Heq in Hexact. injection Hexact as Hexact. symmetry. exact Hexact. }
destruct (open_in_facts _ _ _ _ _ _ Hopen) as (Hhd & Hfail & _).
exists w', ev, fd. rewrite Hopen. split; [assumption |]. split; [reflexivity |].
split; [exact (Hhd _ _ eq_refl) |]. auto.
Qed.

(** *** The writers *)

Ltac io_inv H :=
  apply bind_inv in H;
  let w1 := fresh "w" in
  let ev1 := fresh "ev" in
  let a := fresh "r" in
  let ev2 := fresh "ev" in
  let H1 := fresh "Hfst" in
  let Heq := fresh "Hev" in
  destruct H as (w1 & ev1 & a & ev2 & H1 & H & Heq); cbv beta in H.

Lemma write_or_log_spec (fd : nat) (data failure : string) (w : fs) :
  exists w' ev,
    write_or_log fd data failure w = Some (w', ev, tt)
    /\ accessed ev = [] /\ opened_paths ev = []
    /\ (forall o, open_after o ev = o)
    /\ written_to fd ev = [data]
    /\ (forall fd', fd' <> fd -> written_to fd' ev = []).
Proof.
unfold write_or_log, bind, write_, log_errno, ret.
destruct (fs_write fd data w) as [w' [|]]; eexists _, _; (split; [reflexivity |]); simpl;
  rewrite Nat.eqb_refl; repeat split;
  intros fd' Hne; now destruct (Nat.eqb_spec fd fd') as [-> | _].
Qed.

Lemma write_or_log_fds (fd : nat) (data failure : string) (w w' : fs) (ev : list Event)
  (u : unit) :
  write_or_log fd data failure w = Some (w', ev, u) -> forall o, open_after o ev = o.
Proof.
destruct (write_or_log_spec fd data failure w) as (w1 & ev1 & -> & _ & _ & Hfd & _).
now intros [= <- <- <-].
Qed.

Lemma write_if_open_fds (fd : option nat) (data failure : string) (w w' : fs)
  (ev : list Event) (u : unit) :
  write_if_open fd data failure w = Some (w', ev, u) -> forall o, open_after o ev = o.
Proof.
destruct fd as [n|]; simpl; [apply write_or_log_fds |].
unfold log_errno. now intros [= <- <- <-].
Qed.

Lemma close_if_open_fds (fd : option nat) (w w' : fs) (ev : list Event) (u : unit) :
  close_if_open fd w = Some (w', ev, u) ->
  forall o, open_after o ev = match fd with Some n => remove_one n o | None => o end.
Proof.
destruct fd as [n|]; simpl; unfold close, ret; now intros [= <- <- <-].
Qed.

(** A step taken or not. *)
Lemma optional_fds (b : bool) (c : IO unit) (w w' : fs) (ev : list Event) (u : unit) :
  (forall w w' ev u, c w = Some (w', ev, u) -> forall o, open_after o ev = o) ->
  (if b then c else ret tt) w = Some (w', ev, u) ->
  forall o, open_after o ev = o.
Proof.
intros Hc. destruct b; [apply Hc |]. unfold ret. now intros [= <- <-].
Qed.

(** Writing to a descriptor and closing it. *)
Lemma write_and_close_fds (fd : nat) (data failure : string) (w w' : fs) (ev : list Event) :
  bind (write_or_log fd data failure) (fun _ => close fd) w = Some (w', ev, tt) ->
  forall o, open_after (fd :: o) ev = o.
Proof.
intros H o. io_inv H. subst ev. rewrite open_after_app, (write_or_log_fds _ _ _ _ _ _ _ Hfst).
unfold close in H. injection H as <- <-. apply remove_one_head.
Qed.

Lemma writeErrorLog_fds (wr : FilesystemEventLogWriter) (log : EventLogData)
  (kind logstr : string) (w w' : fs) (ev : list Event) :
  writeErrorLog wr log kind logstr w = Some (w', ev, tt) -> forall o, open_after o ev = o.
Proof.
unfold writeErrorLog. intros H o. io_inv H. subst ev.
destruct (openPath_fds _ _ _ _ _ _ _ _ _ Hfst) as [Hfd _]. rewrite open_after_app, Hfd.
destruct r as [fd|].
- exact (write_and_close_fds _ _ _ _ _ _ H o).
- unfold ret in H. now injection H as <- <-.
Qed.

(** The error log that may end a writer. *)
Lemma error_log_fds (wr : FilesystemEventLogWriter) (log : EventLogData)
  (kind logstr : string) (w w' : fs) (ev : list Event) :
  (if Z.geb (mStatusCode log) 300 then writeErrorLog wr log kind logstr else ret tt) w
  = Some (w', ev, tt) ->
  forall o, open_after o ev = o.
Proof.
destruct (Z.geb (mStatusCode log) 300); [apply writeErrorLog_fds |].
unfold ret. now intros [= <- <-].
Qed.

Lemma writeRegistrationLog_fds (wr : FilesystemEventLogWriter) (rlog : RegistrationLog)
  (w w' : fs) (ev : list Event) :
  writeRegistrationLog openPath_default_errorcode wr rlog w = Some (w', ev, tt) ->
  forall o, open_after o ev = o.
Proof.
unfold writeRegistrationLog. destruct (mFrom (reg_log rlog)) as [from|]; [| discriminate].
intros H o. io_inv H. subst ev.
destruct (openPath_fds _ _ _ _ _ _ _ _ _ Hfst) as [Hfd _]. rewrite open_after_app, Hfd.
destruct r as [fd|]; [| unfold ret in H; now injection H as <- <-].
destruct (registration_line rlog) as [msg|]; [| discriminate].
io_inv H. io_inv H. subst. rewrite !open_after_app.
rewrite (write_or_log_fds _ _ _ _ _ _ _ Hfst0).
unfold close in Hfst1. injection Hfst1 as <- <-. cbn [open_after]. rewrite remove_one_head.
exact (error_log_fds _ _ _ _ _ _ _ H o).
Qed.

Lemma writeCallLog_fds (wr : FilesystemEventLogWriter) (clog : CallLog)
  (w w' : fs) (ev : list Event) :
  writeCallLog openPath_default_errorcode wr clog w = Some (w', ev, tt) ->
  forall o, open_after o ev = o.
Proof.
unfold writeCallLog.
destruct (mFrom (call_log clog)) as [from|]; [| discriminate].
destruct (mTo (call_log clog)) as [to|]; [| discriminate].
intros H o. io_inv H. io_inv H.
destruct (call_line clog) as [msg|]; [| discriminate].
io_inv H. io_inv H. io_inv H. io_inv H. subst. rewrite !open_after_app.
destruct (openPath_fds _ _ _ _ _ _ _ _ _ Hfst) as [Hfd1 _].
destruct (openPath_fds _ _ _ _ _ _ _ _ _ Hfst0) as [Hfd2 _].
rewrite Hfd1, Hfd2, (write_if_open_fds _ _ _ _ _ _ _ Hfst1).
rewrite (optional_fds _ _ _ _ _ _ (write_if_open_fds _ _ _) Hfst2), (close_if_open_fds _ _ _ _ _ Hfst3), (close_if_open_fds _ _ _ _ _ Hfst4).
rewrite (error_log_fds _ _ _ _ _ _ _ H).
destruct r as [fd1|], r0 as [fd2|]; simpl; rewrite ?Nat.eqb_refl; try reflexivity.
destruct (Nat.eqb_spec fd2 fd1) as [-> | _]; simpl; now rewrite Nat.eqb_refl.
Qed.

Lemma writeMessageLog_fds (wr : FilesystemEventLogWriter) (mlog : MessageLog)
  (w w' : fs) (ev : list Event) :
  writeMessageLog openPath_default_errorcode wr mlog w = Some (w', ev, tt) ->
  forall o, open_after o ev = o.
Proof.
unfold writeMessageLog.
destruct (match mReportType mlog with
          | Reception => mFrom (msg_log mlog)
          | Delivery => mTo (msg_log mlog)
          end) as [addr|]; [| discriminate].
intros H o. io_inv H. subst ev.
destruct (openPath_fds _ _ _ _ _ _ _ _ _ Hfst) as [Hfd _]. rewrite open_after_app, Hfd.
destruct r as [fd|]; [| unfold ret in H; now injection H as <- <-].
destruct (message_line mlog) as [msg|]; [| discriminate].
io_inv H. io_inv H. subst. rewrite !open_after_app.
rewrite (optional_fds _ _ _ _ _ _ (write_or_log_fds _ _ _) Hfst0). unfold close in Hfst1. injection Hfst1 as <- <-. cbn [open_after].
rewrite remove_one_head.
exact (error_log_fds _ _ _ _ _ _ _ H o).
Qed.

Lemma writeAuthLog_fds (wr : FilesystemEventLogWriter) (alog : AuthLog)
  (w w' : fs) (ev : list Event) :
  writeAuthLog openPath_default_errorcode wr alog w = Some (w', ev, tt) ->
  forall o, open_after o ev = o.
Proof.
unfold writeAuthLog.
destruct (auth_line alog) as [msg|]; [| discriminate].
destruct (mFrom (auth_log alog)) as [from|]; [| discriminate].
intros H o. io_inv H. subst ev. rewrite open_after_app.
rewrite (writeErrorLog_fds _ _ _ _ _ _ _ H).
destruct (mUserExists alog); [| unfold ret in Hfst; now injection Hfst as <- <-].
io_inv Hfst. subst.
destruct (openPath_fds _ _ _ _ _ _ _ _ _ Hfst0) as [Hfd _]. rewrite open_after_app, Hfd.
destruct r0 as [fd|]; [| unfold ret in Hfst; now injection Hfst as <- <-].
destruct r. exact (write_and_close_fds _ _ _ _ _ _ Hfst o).
Qed.

(** X17. The writer leaks no descriptor: whatever the file system answers,
    when [write] returns every descriptor that it opened has been closed, for
    the four kinds of logs and for the error logs they bring. *)
Theorem write_closes_descriptors (wr : FilesystemEventLogWriter) (evlog : AnyEventLog)
  (w w' : fs) (ev : list Event) :
  write openPath_default_errorcode wr evlog w = Some (w', ev, tt) ->
  forall opened, open_after opened ev = opened.
Proof.
destruct evlog as [rlog | clog | mlog | alog | log]; cbn [write].
- apply writeRegistrationLog_fds.
- apply writeCallLog_fds.
- apply writeMessageLog_fds.
- apply writeAuthLog_fds.
- unfold ret. now intros [= <- <-].
Qed.

(** With a status code other than 0 [writeErrorLog] returns; it works in
    the directory of the errors of the kind and the code. *)
Lemma writeErrorLog_spec (wr : FilesystemEventLogWriter) (log : EventLogData)
  (kind logstr : string) (w : fs) :
  mStatusCode log <> 0%Z ->
  let root := mRootPath wr in
  let dirs := [root ++ "/errors/"; root ++ "/errors/" ++ kind;
               error_directory root kind (mStatusCode log)] in
  let file := error_directory root kind (mStatusCode log)
              ++ day_file (localtime_r (mDate log)) in
  exists w' ev,
    writeErrorLog wr log kind logstr w = Some (w', ev, tt)
    /\ (exists rest, dirs = (accessed ev ++ rest)%list)
    /\ (opened_paths ev = [] \/ opened_paths ev = [file]).
Proof.
intros Hcode root dirs file. unfold writeErrorLog.
destruct (openPath_error_paths wr None kind (mDate log) (mStatusCode log) w Hcode)
  as (w1 & ev1 & fd & Heq & Hpre & Hop & _).
fold root in Hpre, Hop. fold dirs in Hpre, Hop. fold file in Hop.
rewrite (bind_Some _ _ _ _ _ _ Heq). destruct fd as [fd|].
- destruct (write_or_log_spec fd logstr "Fail to write error log" w1)
    as (w2 & ev2 & Heq2 & Hacc2 & Hop2 & _).
  rewrite (bind_Some _ _ _ _ _ _ Heq2). unfold close.
  eexists _, _. split; [reflexivity |].
  rewrite !accessed_app, !opened_paths_app, Hacc2, Hop2. cbn [accessed opened_paths app].
  rewrite !app_nil_r. split; [assumption |]. destruct Hop as [H | [_ H]]; auto.
- unfold ret. eexists _, _. split; [reflexivity |]. rewrite app_nil_r.
  split; [assumption |]. destruct Hop as [H | [_ H]]; auto.
Qed.

Lemma write_or_log_exact (fd : nat) (data failure : string) (w : fs) :
  write_or_log fd data failure w
  = Some (fst (writing fd data failure w), snd (writing fd data failure w), tt).
Proof.
unfold write_or_log, writing, bind, write_, log_errno, ret.
destruct (fs_write fd data w) as [w' [|]]; reflexivity.
Qed.

Lemma writing_facts (fd : nat) (line failure : string) (w : fs) :
  written_to fd (snd (writing fd line failure w)) = [line]
  /\ (forall fd', fd' <> fd -> written_to fd' (snd (writing fd line failure w)) = [])
  /\ opened_paths (snd (writing fd line failure w)) = []
  /\ accessed (snd (writing fd line failure w)) = []
  /\ (forall e, In e (snd (writing fd line failure w)) ->
        (exists ok, e = sys_write fd line ok) \/ exists text, e = LOGE text).
Proof.
unfold writing. destruct (fs_write fd line w) as [w' ok]. cbn [snd written_to].
rewrite Nat.eqb_refl. split; [now destruct ok |].
split; [intros fd' Hne; destruct (Nat.eqb_spec fd fd') as [-> | _];
        [now destruct Hne | now destruct ok] |].
split; [now destruct ok |]. split; [now destruct ok |].
intros e [<- | Hin]; [left; eauto |]. destruct ok; [destruct Hin |].
destruct Hin as [<- | []]. right. eauto.
Qed.

Lemma write_and_close_exact (fd : nat) (line failure : string) (w : fs) :
  bind (write_or_log fd line failure) (fun _ => close fd) w
  = Some (fst (writing_and_closing (Some fd) line failure w),
          snd (writing_and_closing (Some fd) line failure w), tt).
Proof.
rewrite (bind_Some _ _ _ _ _ _ (write_or_log_exact fd line failure w)).
unfold writing_and_closing, close. now destruct (writing fd line failure w) as [w1 ev1].
Qed.

(** [writeErrorLog], for a status code other than 0, is the writing of the
    line to the log of the errors. *)
Lemma writeErrorLog_exact (wr : FilesystemEventLogWriter) (log : EventLogData)
  (kind line : string) (w : fs) :
  mStatusCode log <> 0%Z ->
  writeErrorLog wr log kind line w
  = Some (fst (logging_error (mRootPath wr) kind (mStatusCode log) (localtime_r (mDate log))
                 line w),
          snd (logging_error (mRootPath wr) kind (mStatusCode log) (localtime_r (mDate log))
                 line w), tt).
Proof.
intros Hcode. unfold writeErrorLog, logging_error.
pose proof (openPath_error_exact wr None kind (mDate log) (mStatusCode log) w Hcode) as Hop.
destruct (open_in _ _ w) as [[w1 ev1] fd].
rewrite (bind_Some _ _ _ _ _ _ Hop). destruct fd as [n|].
- rewrite write_and_close_exact.
  now destruct (writing_and_closing (Some n) line "Fail to write error log" w1) as [w2 ev2].
- reflexivity.
Qed.

(** What the writing of a line to the log of the errors shows: the first
    directory is really tested; when the file is opened the line is written
    to its descriptor, once, and the descriptor is closed; and after a
    [mkdir] that failed no file is opened and nothing is written. *)
Lemma logging_error_facts (root kind : string) (code : Z) (day : tm) (line : string)
  (w w' : fs) (ev : list Event) :
  logging_error root kind code day line w = (w', ev) ->
  hd_error ev = Some (sys_access (root ++ "/errors/") (fs_access (root ++ "/errors/") w))
  /\ (forall n, In (sys_open (error_file root kind code day) (Some n)) ev ->
        written_to n ev = [line] /\ In (sys_close n) ev)
  /\ (forall d, In (sys_mkdir d false) ev ->
        opened_paths ev = [] /\ forall n, written_to n ev = []).
Proof.
unfold logging_error.
destruct (open_in (error_directories root kind code) (error_file root kind code day) w)
  as [[w1 ev1] fd] eqn:Hop.
destruct (open_in_facts _ _ _ _ _ _ Hop) as (Hhd & Hfail & Hwr & Hfd & _).
specialize (Hhd _ _ eq_refl).
destruct fd as [m|]; cbn [writing_and_closing].
- destruct (writing_facts m line "Fail to write error log" w1)
    as (Hw1 & Hw2 & Hwop & _ & Hwev).
  destruct (writing m line "Fail to write error log" w1) as [w2 ev2]. cbn [snd] in *.
  intros [= <- <-].
  assert (Htail : forall e, In e (ev2 ++ [sys_close m])%list ->
            (exists ok, e = sys_write m line ok) \/ (exists text, e = LOGE text)
            \/ e = sys_close m).
  { intros e Hin. apply in_app_or in Hin. destruct Hin as [Hin | [<- | []]]; [| auto].
    destruct (Hwev e Hin); auto. }
  split; [destruct ev1; [discriminate | exact Hhd] |]. split.
  + intros n Hin. apply in_app_or in Hin. destruct Hin as [Hin | Hin].
    * destruct (Hfd _ _ Hin) as [_ [= <-]]. split.
      -- rewrite !written_to_app, Hwr, Hw1. reflexivity.
      -- apply in_or_app. right. apply in_or_app. right. now left.
    * destruct (Htail _ Hin) as [(ok & H) | [(text & H) | H]]; discriminate.
  + intros d Hin. apply in_app_or in Hin. destruct Hin as [Hin | Hin].
    * destruct (Hfail d Hin) as [H _]. discriminate.
    * destruct (Htail _ Hin) as [(ok & H) | [(text & H) | H]]; discriminate.
- intros [= <- <-]. rewrite app_nil_r.
  split; [assumption |]. split.
  + intros n Hin. destruct (Hfd _ _ Hin) as [_ H]. discriminate.
  + intros d Hin. destruct (Hfail d Hin) as [_ H]. now split.
Qed.

(** X18. A call to a user that may not exist. For a call log of status 404,
    when [openPath] gives a descriptor for the caller and one for the callee,
    the file of the callee has been opened (and made, with its directories)
    but nothing is written to it before it is closed: the line is written to
    the file of the caller, by one call of [write]; then both descriptors are
    closed; then the line is written to the log of the errors of the calls of
    code 404: its directories are asked for, the first one always, and when
    its file of the day is opened the line is written there, once, and the
    file is closed. *)
Theorem callee_file_untouched_on_404 (wr : FilesystemEventLogWriter) (clog : CallLog)
  (from to : sip_addr_t) (msg : string) (w w1 w2 : fs) (ev1 ev2 : list Event)
  (fd1 fd2 : nat) :
  mStatusCode (call_log clog) = 404%Z ->
  mFrom (call_log clog) = Some from ->
  mTo (call_log clog) = Some to ->
  call_line clog = Some msg ->
  openPath wr (Some (a_url from)) "calls" (mDate (call_log clog))
    openPath_default_errorcode w = Some (w1, ev1, Some fd1) ->
  openPath wr (Some (a_url to)) "calls" (mDate (call_log clog))
    openPath_default_errorcode w1 = Some (w2, ev2, Some fd2) ->
  let root := mRootPath wr in
  let day := localtime_r (mDate (call_log clog)) in
  let written := writing fd1 msg "Fail to write registration log" w2 in
  let closed := fs_close fd2 (fs_close fd1 (fst written)) in
  exists w' evw everr,
    writeCallLog openPath_default_errorcode wr clog w
    = Some (w', (ev1 ++ ev2 ++ evw ++ sys_close fd1 :: sys_close fd2 :: everr)%list, tt)
    /\ evw = snd written
    /\ written_to fd1 evw = [msg]
    /\ (fd2 <> fd1 -> written_to fd2 evw = [])
    /\ opened_paths evw = []
    /\ (w', everr) = logging_error root "calls" 404 day msg closed
    /\ hd_error everr
       = Some (sys_access (root ++ "/errors/") (fs_access (root ++ "/errors/") closed))
    /\ (forall n, In (sys_open (error_file root "calls" 404 day) (Some n)) everr ->
          written_to n everr = [msg] /\ In (sys_close n) everr)
    /\ exists rest,
         [root ++ "/errors/"; root ++ "/errors/calls"; error_directory root "calls" 404]
         = (accessed everr ++ rest)%list.
Proof.
intros Hstatus Hfrom Hto Hline Hopen1 Hopen2 root day written closed.
unfold writeCallLog. rewrite Hfrom, Hto.
rewrite (bind_Some _ _ _ _ _ _ Hopen1), (bind_Some _ _ _ _ _ _ Hopen2), Hline.
cbn [write_if_open close_if_open]. rewrite Hstatus.
cbn [Z.eqb Pos.eqb negb Z.geb Z.compare Pos.compare Pos.compare_cont].
rewrite (bind_Some _ _ _ _ _ _ (write_or_log_exact fd1 msg "Fail to write registration log" w2)).
fold written.
destruct (writing_facts fd1 msg "Fail to write registration log" w2)
  as (Hw1 & Hw2 & Hwop & _).
fold written in Hw1, Hw2, Hwop.
assert (Hcode : mStatusCode (call_log clog) <> 0%Z) by (rewrite Hstatus; discriminate).
pose proof (writeErrorLog_exact wr (call_log clog) "calls" msg closed Hcode) as Hexact.
destruct (writeErrorLog_spec wr (call_log clog) "calls" msg closed Hcode)
  as (w' & everr & Heqe & Hpre & _).
rewrite Hstatus in Hexact, Hpre. fold root day in Hexact. fold root in Hpre.
assert (Hlog : logging_error root "calls" 404 day msg closed = (w', everr)).
{ rewrite Heqe in Hexact. injection Hexact as Hw' Hev.
  destruct (logging_error root "calls" 404 day msg closed) as [w0 ev0]. cbn [fst snd] in *.
  congruence. }
destruct (logging_error_facts _ _ _ _ _ _ _ _ Hlog) as (Hhd & Hwritten & _).
unfold bind at 1. unfold ret at 1. unfold bind at 1. unfold close at 1.
unfold bind at 1. unfold close at 1. fold closed. rewrite Heqe.
exists w', (snd written), everr. split; [reflexivity |]. split; [reflexivity |].
split; [assumption |]. split; [intros Hne; now apply Hw2 |]. split; [assumption |].
split; [now rewrite Hlog |]. split; [assumption |]. split; [assumption |]. exact Hpre.
Qed.

(** X19. The error log depends on the log of the user. When [openPath] gives
    no descriptor for the file of the user, [writeRegistrationLog] and
    [writeMessageLog] return at once: nothing more is done, and no error log
    is written, whatever the status code, 300 and above included. *)
Theorem no_error_log_without_user_file (wr : FilesystemEventLogWriter) :
  (forall (rlog : RegistrationLog) (from : sip_addr_t) (w w1 : fs) (ev1 : list Event),
     mFrom (reg_log rlog) = Some from ->
     openPath wr (Some (a_url from)) "registers" (mDate (reg_log rlog))
       openPath_default_errorcode w = Some (w1, ev1, None) ->
     writeRegistrationLog openPath_default_errorcode wr rlog w = Some (w1, ev1, tt))
  /\ (forall (mlog : MessageLog) (addr : sip_addr_t) (w w1 : fs) (ev1 : list Event),
        match mReportType mlog with
        | Reception => mFrom (msg_log mlog)
        | Delivery => mTo (msg_log mlog)
        end = Some addr ->
        openPath wr (Some (a_url addr)) "messages" (mDate (msg_log mlog))
          openPath_default_errorcode w = Some (w1, ev1, None) ->
        writeMessageLog openPath_default_errorcode wr mlog w = Some (w1, ev1, tt)).
Proof.
split.
- intros rlog from w w1 ev1 Hfrom Hopen. unfold writeRegistrationLog. rewrite Hfrom.
  rewrite (bind_Some _ _ _ _ _ _ Hopen). unfold ret. now rewrite app_nil_r.
- intros mlog addr w w1 ev1 Haddr Hopen. unfold writeMessageLog. rewrite Haddr.
  rewrite (bind_Some _ _ _ _ _ _ Hopen). unfold ret. now rewrite app_nil_r.
Qed.

(** X20. The error log of an authentication is written whatever the status
    code. With the code 0 [writeAuthLog] is undefined: [writeErrorLog] has
    [openPath] read a null URL. With any other code, a code of success
    included, the last thing [writeAuthLog] does is the writing of the line to
    the log of the errors of the kind "auth" and of the code: its directories
    are asked for, the first one always, and when its file of the day is
    opened the line is written there, once, and the file is closed. For a
    user that does not exist this is all that [writeAuthLog] does, and no
    directory of the users is asked for; for a user that exists it comes
    after the line was written to the file of the user, if that file could be
    opened. *)
Theorem writeAuthLog_error_log (wr : FilesystemEventLogWriter) (alog : AuthLog) (w : fs) :
  (mStatusCode (auth_log alog) = 0%Z ->
     writeAuthLog openPath_default_errorcode wr alog w = None)
  /\ (mStatusCode (auth_log alog) <> 0%Z ->
      forall msg, auth_line alog = Some msg ->
      let root := mRootPath wr in
      let code := mStatusCode (auth_log alog) in
      let day := localtime_r (mDate (auth_log alog)) in
      (mUserExists alog = false ->
       exists w' ev,
         writeAuthLog openPath_default_errorcode wr alog w = Some (w', ev, tt)
         /\ (w', ev) = logging_error root "auth" code day msg w
         /\ hd_error ev
            = Some (sys_access (root ++ "/errors/") (fs_access (root ++ "/errors/") w))
         /\ (forall n, In (sys_open (error_file root "auth" code day) (Some n)) ev ->
               written_to n ev = [msg] /\ In (sys_close n) ev)
         /\ (exists rest,
               [root ++ "/errors/"; root ++ "/errors/auth"; error_directory root "auth" code]
               = (accessed ev ++ rest)%list)
         /\ (opened_paths ev = []
             \/ opened_paths ev = [error_directory root "auth" code ++ day_file day]))
      /\ (mUserExists alog = true ->
          forall from w1 ev1 fd,
            mFrom (auth_log alog) = Some from ->
            openPath wr (Some (a_url from)) "auth" (mDate (auth_log alog))
              openPath_default_errorcode w = Some (w1, ev1, fd) ->
            let user := writing_and_closing fd msg "Fail to write auth log" w1 in
            exists w' everr,
              writeAuthLog openPath_default_errorcode wr alog w
              = Some (w', (ev1 ++ snd user ++ everr)%list, tt)
              /\ (w', everr) = logging_error root "auth" code day msg (fst user)
              /\ hd_error everr
                 = Some (sys_access (root ++ "/errors/")
                           (fs_access (root ++ "/errors/") (fst user)))
              /\ (forall n, In (sys_open (error_file root "auth" code day) (Some n)) everr ->
                    written_to n everr = [msg] /\ In (sys_close n) everr))).
Proof.
split.
- intros Hcode. unfold writeAuthLog.
  destruct (auth_line alog) as [msg|]; [| reflexivity].
  destruct (mFrom (auth_log alog)) as [from|]; [| reflexivity].
  unfold bind at 1.
  match goal with
  | |- match ?c w with _ => _ end = None => destruct (c w) as [[[w1 ev1] []]|]
  end; [| reflexivity].
  unfold writeErrorLog. rewrite Hcode.
  unfold bind. now rewrite openPath_null_uri.
- intros Hcode msg Hline root code day.
  assert (Hlogs : forall w0,
            exists w' everr,
              writeErrorLog wr (auth_log alog) "auth" msg w0 = Some (w', everr, tt)
              /\ logging_error root "auth" code day msg w0 = (w', everr)
              /\ (exists rest,
                    [root ++ "/errors/"; root ++ "/errors/auth";
                     error_directory root "auth" code] = (accessed everr ++ rest)%list)
              /\ (opened_paths everr = []
                  \/ opened_paths everr = [error_directory root "auth" code ++ day_file day])).
  { intros w0.
    pose proof (writeErrorLog_exact wr (auth_log alog) "auth" msg w0 Hcode) as Hexact.
    destruct (writeErrorLog_spec wr (auth_log alog) "auth" msg w0 Hcode)
      as (w' & everr & Heq & Hpre & Hop).
    exists w', everr. split; [assumption |]. split; [| now split].
    rewrite Heq in Hexact. injection Hexact as Hw' Hev. fold root code day in Hw', Hev.
    destruct (logging_error root "auth" code day msg w0) as [w3 ev3]. cbn [fst snd] in *.
    congruence. }
  split.
  + intros Huser. unfold writeAuthLog. rewrite Hline, Huser.
    assert (Hfrom : exists from, mFrom (auth_log alog) = Some from).
    { unfold auth_line in Hline.
      destruct (PrettyTime (mDate (auth_log alog))); [| discriminate].
      destruct (mFrom (auth_log alog)) as [from|]; [eauto | discriminate]. }
    destruct Hfrom as (from & ->).
    destruct (Hlogs w) as (w' & ev & Heq & Hlog & Hpre & Hop).
    destruct (logging_error_facts _ _ _ _ _ _ _ _ Hlog) as (Hhd & Hwritten & _).
    exists w', ev. split; [unfold bind at 1; unfold ret at 1; now rewrite Heq |].
    split; [now rewrite Hlog |]. auto.
  + intros Huser from w1 ev1 fd Hfrom Hopen user. unfold writeAuthLog.
    rewrite Hline, Huser, Hfrom.
    destruct (Hlogs (fst user)) as (w' & everr & Heq & Hlog & _).
    destruct (logging_error_facts _ _ _ _ _ _ _ _ Hlog) as (Hhd & Hwritten & _).
    exists w', everr. split; [| split; [now rewrite Hlog | now split]].
    unfold bind at 1. rewrite (bind_Some _ _ _ _ _ _ Hopen).
    destruct fd as [n|].
    * rewrite write_and_close_exact. fold user. rewrite Heq. now rewrite app_assoc.
    * unfold ret. cbn [writing_and_closing] in user. subst user. cbn [fst snd] in *.
      rewrite Heq. now rewrite app_assoc.
Qed.

(** *** The lines and the names *)

Lemma ends_with_app (suffix s t : string) : ends_with suffix t -> ends_with suffix (s ++ t).
Proof. intros (body & ->). exists (s ++ body). now rewrite append_assoc. Qed.

Lemma ends_with_self (suffix : string) : ends_with suffix suffix.
Proof. now exists "". Qed.

Lemma append_nil_r (s : string) : s ++ "" = s.
Proof. induction s as [|c s IH]; simpl; [reflexivity | now rewrite IH]. Qed.

Lemma ends_with_cons (suffix t : string) (c : ascii) :
  ends_with suffix t -> ends_with suffix (String c t).
Proof. intros (body & ->). now exists (String c body). Qed.

Lemma print_addr_ends (a : sip_addr_t) : ends_with ">" (print_addr a).
Proof. unfold print_addr. repeat apply ends_with_app. apply ends_with_self. Qed.

Ltac ends_with_tac :=
  repeat first [ apply ends_with_self | apply print_addr_ends
               | apply ends_with_app | apply ends_with_cons ].

(** X21. The lines of the call, message and authentication logs end with a
    newline. The line of a registration log ends with a newline only when the
    log has a user agent: without one it ends with the bracket of the sender
    or of the contact. *)
Theorem log_lines_end :
  (forall clog l, call_line clog = Some l -> ends_with endl l)
  /\ (forall mlog l, message_line mlog = Some l -> ends_with endl l)
  /\ (forall alog l, auth_line alog = Some l -> ends_with endl l)
  /\ (forall rlog l, registration_line rlog = Some l ->
        match mUA (reg_log rlog) with
        | Some _ => ends_with endl l
        | None => ends_with ">" l \/ ends_with ") " l
        end).
Proof.
split; [| split; [| split]].
- intros clog l. unfold call_line.
  destruct (PrettyTime (mDate (call_log clog))), (mFrom (call_log clog)),
    (mTo (call_log clog)); try discriminate.
  intros [= <-]. destruct (mCancelled clog); ends_with_tac.
- intros mlog l. unfold message_line.
  destruct (PrettyTime (mDate (msg_log mlog))), (mFrom (msg_log mlog)),
    (mTo (msg_log mlog)); try discriminate.
  intros [= <-]. destruct (mUri mlog); ends_with_tac.
- intros alog l. unfold auth_line.
  destruct (PrettyTime (mDate (auth_log alog))), (mFrom (auth_log alog)),
    (mTo (auth_log alog)); try discriminate.
  intros [= <-]. destruct (mOrigin alog), (mUA (auth_log alog)); ends_with_tac.
- intros rlog l. unfold registration_line.
  destruct (PrettyTime (mDate (reg_log rlog))), (mFrom (reg_log rlog)) as [from|];
    try discriminate.
  intros [= <-]. destruct (mUA (reg_log rlog)) as [ua|].
  + destruct (mContacts rlog); ends_with_tac.
  + destruct (mContacts rlog) as [contacts|].
    * right. rewrite append_nil_r. ends_with_tac.
    * left. cbn [append]. rewrite append_nil_r. ends_with_tac.
Qed.

Lemma ascii_compare_refl (c : ascii) : Ascii.compare c c = Eq.
Proof.
pose proof (Ascii.compare_antisym c c) as H.
destruct (Ascii.compare c c); simpl in H; congruence.
Qed.

Lemma compare_app (p a b : string) : String.compare (p ++ a) (p ++ b) = String.compare a b.
Proof.
induction p as [|c p IH]; simpl; [reflexivity |]. now rewrite ascii_compare_refl.
Qed.

Lemma all_pairs_checked :
  forallb (fun m1 => forallb (fun d1 => forallb (fun m2 => forallb (fun d2 =>
    ordered_pair m1 d1 m2 d2) days) months) days) months = true.
Proof. vm_compute. reflexivity. Qed.

Lemma in_months (m : Z) : (0 <= m <= 11)%Z -> In m months.
Proof.
intros H. unfold months. apply in_map_iff. exists (Z.to_nat m).
split; [lia | apply in_seq; lia].
Qed.

Lemma in_days (d : Z) : (1 <= d <= 31)%Z -> In d days.
Proof.
intros H. unfold days. apply in_map_iff. exists (Z.to_nat d).
split; [lia | apply in_seq; lia].
Qed.

Lemma forallb_In {A} (f : A -> bool) (l : list A) (x : A) :
  forallb f l = true -> In x l -> f x = true.
Proof. intros H. now apply forallb_forall. Qed.

Lemma ordered_pair_checked (m1 d1 m2 d2 : Z) :
  In m1 months -> In d1 days -> In m2 months -> In d2 days ->
  ordered_pair m1 d1 m2 d2 = true.
Proof.
intros Hm1 Hd1 Hm2 Hd2.
pose proof (forallb_In _ _ _ all_pairs_checked Hm1) as H1. cbv beta in H1.
pose proof (forallb_In _ _ _ H1 Hd1) as H2. cbv beta in H2.
pose proof (forallb_In _ _ _ H2 Hm2) as H3. cbv beta in H3.
exact (forallb_In _ _ _ H3 Hd2).
Qed.

(** X22. The names of the files sort by date within a year: of two days of
    the same year, with the month and the day of a calendar, the file of the
    earlier has the smaller name in the order of the strings, the month and
    the day being written on two digits. *)
Theorem day_files_sort_by_date (t1 t2 : tm) :
  calendar_day t1 -> calendar_day t2 -> earlier_in_year t1 t2 ->
  String.compare (day_file t1) (day_file t2) = Lt.
Proof.
intros [Hm1 Hd1] [Hm2 Hd2] [Hyear Hlt]. unfold day_file. rewrite Hyear.
rewrite !compare_app.
pose proof (ordered_pair_checked _ _ _ _ (in_months _ Hm1) (in_days _ Hd1)
              (in_months _ Hm2) (in_days _ Hd2)) as Hall.
unfold ordered_pair, month_day_log in Hall.
assert (Hb : (Z.ltb (tm_mon t1) (tm_mon t2)
              || (Z.eqb (tm_mon t1) (tm_mon t2) && Z.ltb (tm_mday t1) (tm_mday t2)))%bool
             = true).
{ destruct Hlt as [H | [H1 H2]].
  - apply Z.ltb_lt in H. now rewrite H.
  - apply Z.eqb_eq in H1. apply Z.ltb_lt in H2. rewrite H1, H2. apply orb_true_r. }
rewrite Hb in Hall.
destruct (String.compare (pad2 (tm_mon t1 + 1) ++ "-" ++ pad2 (tm_mday t1) ++ ".log")
            (pad2 (tm_mon t2 + 1) ++ "-" ++ pad2 (tm_mday t2) ++ ".log"));
  [discriminate | reflexivity | discriminate].
Qed.


End Writer.

End EventLogWriterFacts.

(** ** The client of the tester *)

Module TesterFacts.

Import Tester.

(** X24. The GRUU of a client of the tester identifies its uuid: two clients
    have the same GRUU iff they have the same uuid, so that clients whose
    configuration gives no uuid all share one GRUU; the GRUU is the uuid with
    thirteen characters around it, and the delay of the invitations has no
    part in it. *)
Theorem getGruu_identifies_uuid (c1 c2 : CoreClient) (aDelay : Z) :
  (getGruu c1 = getGruu c2 <-> getUuid c1 = getUuid c2)
  /\ String.length (getGruu c1) = String.length (getUuid c1) + 13
  /\ getGruu (setCallInviteReceivedDelay aDelay c1) = getGruu c1.
Proof.
split; [| split].
- unfold getGruu. split.
  + intros H. apply StrFacts.append_inj_l in H. apply StrFacts.append_inj_l in H.
    now apply StrFacts.append_inj_r in H.
  + now intros ->.
- unfold getGruu. rewrite !StrFacts.length_append.
  change (String.length Push.dquote) with 1. change (String.length "<urn:uuid:") with 10.
  change (String.length ">") with 1. lia.
- reflexivity.
Qed.

End TesterFacts.

(** ** The further properties on examples *)

Module ExtraWitnesses.

Import Push ServiceCalls Scenarios MoreScenarios.

#[local] Existing Instance clients.

(** A pair with two colons, and a pair without. *)
Lemma split_keyval_parts_witness :
  (fst (split_keyval "app4:/etc/sa:4.json") ++ ":" ++ snd (split_keyval "app4:/etc/sa:4.json")
   = "app4:/etc/sa:4.json"
   /\ ~ In ":"%char (list_ascii_of_string (fst (split_keyval "app4:/etc/sa:4.json"))))
  /\ split_keyval "app4" = ("app4", "app4").
Proof.
split.
- apply (proj1 (PushExtra.split_keyval_parts "app4:/etc/sa:4.json")). simpl. tauto.
- apply (proj2 (PushExtra.split_keyval_parts "app4")). simpl. intuition discriminate.
Defined.

(** Disjoint identifiers: the call returns; scenario 6 of the specification:
    it does not. *)
Lemma setupFirebaseClients_returns_iff_witness :
  snd (setupFirebaseClients "get-token.py" firebase_config s_ios) = inr tt
  /\ ~ (NoDup (appIds (firebase_service_accounts duplicate_config))
        /\ forall a, In a (appIds (firebase_service_accounts duplicate_config)) ->
             StdMap.contains a (mClients s_empty) = false
             /\ ~ In a (appIds (firebase_projects_api_keys duplicate_config))).
Proof.
split.
- reflexivity.
- intros H.
  apply (proj2 (PushExtra.setupFirebaseClients_returns_iff "get-token.py" duplicate_config
                  s_empty)) in H.
  discriminate H.
Defined.

Lemma setupFirebaseClients_registry_witness :
  let s' := fst (setupFirebaseClients "get-token.py" firebase_config s_ios) in
  registered (mClients s') "app4"
    (newClient (FirebaseV1Client "get-token.py" "/etc/sa:4.json" 60000 300000))
  /\ (exists apiKey, registered (mClients s') "app2" (newClient (FirebaseClient apiKey)))
  /\ StdMap.find "org.example.app" (mClients s') = StdMap.find "org.example.app" (mClients s_ios).
Proof.
pose proof (PushExtra.setupFirebaseClients_registry "get-token.py" firebase_config s_ios
              eq_refl) as (Hv1 & Hlegacy & Hother).
split; [| split].
- apply (Hv1 "app4:/etc/sa:4.json"). simpl. auto.
- apply (Hlegacy "app2"). simpl. auto.
- apply (Hother "org.example.app"); simpl; intuition discriminate.
Defined.

(** "app1" has two keys: the second is the one of its client. *)
Lemma last_api_key_wins_witness :
  registered (mClients (fst (setupFirebaseClients "get-token.py" firebase_config s_empty)))
    "app1" (newClient (FirebaseClient "k3")).
Proof.
apply (PushExtra.last_api_key_wins "get-token.py" firebase_config s_empty "app1" "k3").
reflexivity.
Defined.

Lemma isIdle_after_calls_witness :
  let s := perform_all print_Request "get-token.py" opendir "ENOENT" tlsCreationError startup
             (newService 2) in
  null_free (mClients s)
  /\ exists b, isIdle s = Some b
       /\ (b = true <-> forall name c, registered (mClients s) name c -> Client_isIdle c = true).
Proof.
apply (PushExtra.isIdle_after_calls print_Request "get-token.py" opendir "ENOENT"
         tlsCreationError 2 startup).
unfold startup. repeat constructor.
Defined.

(** A method that is neither GET nor POST; the generic client right after its
    setup; and the key "generic" after a legacy key took it over. *)
Lemma setupGenericClient_preempts_witness :
  (exists msg, setupGenericClient "https://push.example.org" (OtherMethod 7) Http s_ios
               = (s_ios, inl (invalid_argument msg)))
  /\ (forall pType pInfo',
        makeRequest s_generic pType pInfo'
        = Client_makeRequest
            (newClient (GenericHttpClient "https://push.example.org" HttpPost "generic" 2))
            pType pInfo' (Some (mClients s_generic)))
  /\ let s'' := perform_all print_Request "get-token.py" opendir "ENOENT" tlsCreationError
                  later_calls s_generic in
     registered (mClients s'') "generic" (newClient (FirebaseClient "k"))
     /\ exists current,
          registered (mClients s'') "generic" current
          /\ forall pType pInfo',
               makeRequest s'' pType pInfo'
               = Client_makeRequest current pType pInfo' (Some (mClients s'')).
Proof.
split; [| split; [| split]].
- exact (PushExtra.setupGenericClient_preempts print_Request "get-token.py" opendir "ENOENT"
           tlsCreationError "https://push.example.org" (OtherMethod 7) Http s_ios).
- exact (proj1 (proj2 (proj2 (proj2 (PushExtra.setupGenericClient_preempts print_Request
                                       "get-token.py" opendir "ENOENT" tlsCreationError
                                       "https://push.example.org" HttpPost Http s_empty))))).
- reflexivity.
- exact (proj2 (proj2 (proj2 (proj2 (PushExtra.setupGenericClient_preempts print_Request
                                       "get-token.py" opendir "ENOENT" tlsCreationError
                                       "https://push.example.org" HttpPost Http s_empty))))
           later_calls).
Defined.

(** A null fallback after a fallback: both functions throw again. *)
Lemma setFallbackClient_effect_witness :
  let s' := fst (setFallbackClient None s_ios_fallback) in
  (exists msg, sendPush print_Request pn_other s' = (s', inl (runtime_error msg)))
  /\ exists msg, makeRequest s' Message pInfo_other = inl (runtime_error msg).
Proof.
apply (PushExtra.setFallbackClient_effect print_Request None s_ios_fallback pn_other Message
         pInfo_other).
- discriminate.
- reflexivity.
- discriminate.
- reflexivity.
- reflexivity.
Defined.

Lemma sendPush_keeps_keys_witness :
  StdMap.contains "org.example.app" (mClients (fst (sendPush print_Request pn_other s_ios)))
  = true
  /\ StdMap.contains "com.example.other" (mClients (fst (sendPush print_Request pn_other s_ios)))
     = false.
Proof.
split.
- rewrite (proj1 (PushExtra.sendPush_keeps_keys print_Request pn_other s_ios
                    "org.example.app")). reflexivity.
- rewrite (proj1 (PushExtra.sendPush_keeps_keys print_Request pn_other s_ios
                    "com.example.other")). reflexivity.
Defined.

Lemma calls_never_unregister_witness :
  StdMap.contains "org.example.app"
    (mClients (perform_all print_Request "get-token.py" opendir "ENOENT" tlsCreationError
                 startup s_ios)) = true.
Proof.
apply (PushExtra.calls_never_unregister print_Request "get-token.py" opendir "ENOENT"
         tlsCreationError startup s_ios "org.example.app").
reflexivity.
Defined.

Import Conference ConferenceWords.

(** A record whose contact has no GRUU, in the state Binding. *)
Lemma failed_bind_is_only_logged_witness :
  handle CHATROOM_PREFIX asStringUriOnly transport latest createAddress
    (onRecordFound (Some no_gruu) token_a) g_binding
  = Some (g_binding, [LOGF "Conference does not have gruu address."])
  /\ forall a, ~ In (setConferenceAddress a) [LOGF "Conference does not have gruu address."].
Proof.
split; [reflexivity |].
apply (ConferenceExtra.failed_bind_is_only_logged CHATROOM_PREFIX asStringUriOnly transport
         latest createAddress no_gruu token_a g_binding g_binding
         [LOGF "Conference does not have gruu address."] eq_refl eq_refl).
right. exists (mkContact "focus"). split; reflexivity.
Defined.

Lemma collisions_keep_fetching_witness :
  List.length (steps three_collisions) = 3
  /\ Forall (fun st => mState (after st) = Fetching /\ requests (actions st) = 1
                       /\ ~ binds st /\ ~ sets_address st) (steps three_collisions)
  /\ answers CHATROOM_PREFIX asStringUriOnly transport latest createAddress 1
       three_collisions g0 = true.
Proof.
apply (ConferenceExtra.collisions_keep_fetching CHATROOM_PREFIX asStringUriOnly transport latest
         createAddress three_collisions g0 eq_refl).
unfold three_collisions.
repeat constructor; simpl; tauto.
Defined.

(** Scenario 5 of the specification: the second step binds. *)
Lemma binds_at_most_once_witness :
  Forall (fun x => ~ binds x) [step_at 0 collision_then_bind]
  /\ Forall (fun x => requests (actions x) = 0) [step_at 2 collision_then_bind].
Proof.
apply (ConferenceExtra.binds_at_most_once CHATROOM_PREFIX asStringUriOnly transport latest
         createAddress collision_then_bind g0 [step_at 0 collision_then_bind]
         (step_at 1 collision_then_bind) [step_at 2 collision_then_bind] eq_refl).
eexists _, _, _. simpl. left. reflexivity.
Defined.

(** An error after a collision: no step follows it. *)
Lemma silent_step_is_last_witness :
  List.skipn 2 (steps collision_then_error) = [].
Proof.
apply (ConferenceExtra.silent_step_is_last CHATROOM_PREFIX asStringUriOnly transport latest
         createAddress collision_then_error g0 [step_at 0 collision_then_error]
         (step_at 1 collision_then_error) (List.skipn 2 (steps collision_then_error))
         eq_refl eq_refl eq_refl).
Defined.

Import EventLog EventLogWriter CStrings.

Lemma setOrigin_origin_witness :
  exists mOrigin,
    setOrigin via_tls = Some mOrigin
    /\ url_text mOrigin = "sip:198.51.100.7:40000"
    /\ url_params mOrigin = Some "transport=TLS".
Proof.
apply (EventLogExtra.setOrigin_origin via_tls "2.0/TLS" "TLS" eq_refl eq_refl).
unfold no_nul. simpl. intuition discriminate.
Defined.

#[local] Existing Instance sofia.
#[local] Existing Instance disk.

(** The log of the calls of Alice: on a disk that holds only the root the
    four directories are made and the file is opened; on a disk where the
    directory of the users cannot be made nothing more is asked for. *)
Lemma openPath_user_file_witness :
  (exists w' ev,
     openPath wr (Some (a_url alice)) "calls" 1709632800 0 disk0 = Some (w', ev, Some 3)
     /\ accessed ev
        = ["/var/log/flexisip/users"; "/var/log/flexisip/users/example.org";
           "/var/log/flexisip/users/example.org/alice";
           "/var/log/flexisip/users/example.org/alice/calls"]
     /\ opened_paths ev = ["/var/log/flexisip/users/example.org/alice/calls/2024-03-05.log"])
  /\ exists ev,
       openPath wr (Some (a_url alice)) "calls" 1709632800 0 disk_no_users
       = Some (disk_no_users, ev, None)
       /\ accessed ev = ["/var/log/flexisip/users"]
       /\ In (sys_mkdir "/var/log/flexisip/users" false) ev
       /\ opened_paths ev = [].
Proof.
split.
- destruct (EventLogWriterFacts.openPath_user_file (X := sofia) (FS := disk) wr (a_url alice)
              "calls" 1709632800 "example.org" disk0 eq_refl)
    as (w' & ev & fd & Heq & Hopen & _).
  vm_compute in Hopen. injection Hopen as -> -> ->.
  eexists _, _. split; [exact Heq |]. split; reflexivity.
- destruct (EventLogWriterFacts.openPath_user_file (X := sofia) (FS := disk) wr (a_url alice)
              "calls" 1709632800 "example.org" disk_no_users eq_refl)
    as (w' & ev & fd & Heq & Hopen & _).
  vm_compute in Hopen. injection Hopen as -> -> ->.
  eexists. split; [exact Heq |]. split; [reflexivity |]. split; [| reflexivity].
  right. left. reflexivity.
Defined.

(** The log of the errors 404 of the calls, with a null URL. *)
Lemma openPath_error_file_witness :
  exists w' ev,
    openPath wr None "calls" 1709632800 404 disk0 = Some (w', ev, Some 3)
    /\ accessed ev
       = ["/var/log/flexisip/errors/"; "/var/log/flexisip/errors/calls";
          "/var/log/flexisip/errors/calls/404"]
    /\ opened_paths ev = ["/var/log/flexisip/errors/calls/404/2024-03-05.log"].
Proof.
destruct (EventLogWriterFacts.openPath_error_file (X := sofia) (FS := disk) wr None "calls"
            1709632800 404 disk0 ltac:(discriminate))
  as (w' & ev & fd & Heq & Hopen & _).
vm_compute in Hopen. injection Hopen as -> -> ->.
eexists _, _. split; [exact Heq |]. split; reflexivity.
Defined.

(** A call log of status 404: three files opened, none left open. *)
Lemma write_closes_descriptors_witness :
  write 0 wr (IsCallLog call_404) disk0 = Some (call_404_disk, call_404_events, tt)
  /\ opened_paths call_404_events
     = ["/var/log/flexisip/users/example.org/alice/calls/2024-03-05.log";
        "/var/log/flexisip/users/example.net/bob/calls/2024-03-05.log";
        "/var/log/flexisip/errors/calls/404/2024-03-05.log"]
  /\ open_after [] call_404_events = [].
Proof.
assert (H : write 0 wr (IsCallLog call_404) disk0
            = Some (call_404_disk, call_404_events, tt)) by (vm_compute; reflexivity).
split; [exact H |]. split; [vm_compute; reflexivity |].
exact (EventLogWriterFacts.write_closes_descriptors 0 wr (IsCallLog call_404) disk0 _ _ H []).
Defined.

(** The call of Alice to Bob, of status 404: the file of Bob is opened and
    nothing is written to it; the line goes to the file of Alice and to the
    log of the errors. *)
Lemma callee_file_untouched_on_404_witness :
  exists w' evw everr ev1 ev2,
    writeCallLog 0 wr call_404 disk0
    = Some (w', (ev1 ++ ev2 ++ evw ++ sys_close 3 :: sys_close 4 :: everr)%list, tt)
    /\ opened_paths ev2 = ["/var/log/flexisip/users/example.net/bob/calls/2024-03-05.log"]
    /\ written_to 3 evw
       = ["Tue Mar  5 10:00:00 2024: Alice <sip:alice@example.org> -->  <sip:bob@example.net> 404 Not Found" ++ endl]
    /\ written_to 4 evw = []
    /\ opened_paths everr = ["/var/log/flexisip/errors/calls/404/2024-03-05.log"]
    /\ written_to 5 everr
       = ["Tue Mar  5 10:00:00 2024: Alice <sip:alice@example.org> -->  <sip:bob@example.net> 404 Not Found" ++ endl]
    /\ In (sys_close 5) everr.
Proof.
destruct (EventLogWriterFacts.callee_file_untouched_on_404 (X := sofia) (FS := disk) 0 wr
            call_404 alice bob _ disk0 _ _ _ _ 3 4 eq_refl eq_refl eq_refl eq_refl eq_refl
            eq_refl)
  as (w' & evw & everr & Heq & _ & Hfd1 & Hfd2 & _ & Hlog & _ & Hwritten & _).
vm_compute in Hlog. injection Hlog as -> ->.
eexists _, evw, _, _, _. split; [exact Heq |]. split; [reflexivity |].
split; [exact Hfd1 |]. split; [apply Hfd2; discriminate |]. split; [reflexivity |].
apply Hwritten. vm_compute. tauto.
Defined.

(** A registration of status 500 and a message of status 503 when the
    directory of the users cannot be made: no error log. *)
Lemma no_error_log_without_user_file_witness :
  (exists ev, writeRegistrationLog 0 wr register_500 disk_no_users
              = Some (disk_no_users, ev, tt)
              /\ accessed ev = ["/var/log/flexisip/users"])
  /\ exists ev, writeMessageLog 0 wr message_503 disk_no_users
                = Some (disk_no_users, ev, tt)
                /\ accessed ev = ["/var/log/flexisip/users"].
Proof.
split.
- eexists. split.
  + apply (proj1 (EventLogWriterFacts.no_error_log_without_user_file 0 wr) register_500 alice
             disk_no_users disk_no_users _ eq_refl eq_refl).
  + reflexivity.
- eexists. split.
  + apply (proj2 (EventLogWriterFacts.no_error_log_without_user_file 0 wr) message_503 bob
             disk_no_users disk_no_users _ eq_refl eq_refl).
  + reflexivity.
Defined.

(** An authentication of status 0; one refused, of a user that does not
    exist; one that succeeded, of a user that exists. *)
Lemma writeAuthLog_error_log_witness :
  writeAuthLog 0 wr auth_0 disk0 = None
  /\ (exists w' ev line,
        writeAuthLog 0 wr auth_403 disk0 = Some (w', ev, tt)
        /\ auth_line auth_403 = Some line
        /\ accessed ev
           = ["/var/log/flexisip/errors/"; "/var/log/flexisip/errors/auth";
              "/var/log/flexisip/errors/auth/403"]
        /\ opened_paths ev = ["/var/log/flexisip/errors/auth/403/2024-03-05.log"]
        /\ written_to 3 ev = [line])
  /\ exists w' ev1 evw everr line,
       writeAuthLog 0 wr auth_200 disk0 = Some (w', (ev1 ++ evw ++ everr)%list, tt)
       /\ auth_line auth_200 = Some line
       /\ opened_paths ev1 = ["/var/log/flexisip/users/example.org/alice/auth/2024-03-05.log"]
       /\ opened_paths everr = ["/var/log/flexisip/errors/auth/200/2024-03-05.log"]
       /\ written_to 4 everr = [line].
Proof.
split; [| split].
- apply (proj1 (EventLogWriterFacts.writeAuthLog_error_log (X := sofia) (FS := disk) 0 wr
                  auth_0 disk0)). reflexivity.
- destruct (proj2 (EventLogWriterFacts.writeAuthLog_error_log (X := sofia) (FS := disk) 0 wr
                     auth_403 disk0) ltac:(discriminate) _ eq_refl) as [Habsent _].
  destruct (Habsent eq_refl) as (w' & ev & Heq & Hlog & _ & Hwritten & _).
  vm_compute in Hlog. injection Hlog as -> ->.
  eexists _, _, _. split; [exact Heq |]. split; [reflexivity |].
  split; [reflexivity |]. split; [reflexivity |]. apply Hwritten. vm_compute. tauto.
- destruct (proj2 (EventLogWriterFacts.writeAuthLog_error_log (X := sofia) (FS := disk) 0 wr
                     auth_200 disk0) ltac:(discriminate) _ eq_refl) as [_ Hexists].
  destruct (Hexists eq_refl alice _ _ _ eq_refl eq_refl) as (w' & everr & Heq & Hlog & _ & Hwritten).
  vm_compute in Hlog. injection Hlog as -> ->.
  eexists _, _, _, _, _. split; [exact Heq |]. split; [reflexivity |].
  split; [reflexivity |]. split; [reflexivity |]. apply Hwritten. vm_compute. tauto.
Defined.

(** A registration without user agent and without contact, one with both,
    and a call. *)
Lemma log_lines_end_witness :
  (exists l, registration_line register_500 = Some l
             /\ (ends_with ">" l \/ ends_with ") " l))
  /\ (exists l, registration_line register_200 = Some l /\ ends_with endl l)
  /\ exists l, call_line call_404 = Some l /\ ends_with endl l.
Proof.
split; [| split].
- eexists. split; [reflexivity |].
  exact (proj2 (proj2 (proj2 EventLogWriterFacts.log_lines_end)) register_500 _ eq_refl).
- eexists. split; [reflexivity |].
  exact (proj2 (proj2 (proj2 EventLogWriterFacts.log_lines_end)) register_200 _ eq_refl).
- eexists. split; [reflexivity |].
  exact (proj1 EventLogWriterFacts.log_lines_end call_404 _ eq_refl).
Defined.

Lemma day_files_sort_by_date_witness :
  String.compare (day_file march_5) (day_file october_12) = Lt.
Proof.
apply EventLogWriterFacts.day_files_sort_by_date.
- unfold calendar_day. simpl. lia.
- unfold calendar_day. simpl. lia.
- unfold earlier_in_year. simpl. lia.
Defined.


Import Tester.

(** Two clients without uuid share their GRUU; a client with one does not. *)
Lemma getGruu_identifies_uuid_witness :
  getGruu pauline = getGruu laure /\ getGruu marie <> getGruu pauline.
Proof.
split.
- apply (proj1 (TesterFacts.getGruu_identifies_uuid pauline laure 0)). reflexivity.
- intros H. apply (proj1 (TesterFacts.getGruu_identifies_uuid marie pauline 0)) in H.
  discriminate H.
Defined.

End ExtraWitnesses.
